(** * Battleships: board state machine and round orchestration

    Shallow embedding of [battleships/board.py], [battleships/game.py] and
    the sample players of [battleships/players.py].

    - Python objects that are shared by reference ([Field] instances that are
      held both by the grid [_board] and by the ships in [_ships]) live in an
      explicit store: a [Field] is an address into [Board.heap].
    - Python exceptions are values of [Exn]; a call that can raise returns a
      [Res], and state that was mutated before the raise is kept.
    - Python's [int] is [Z]; list indexing and slicing follow Python's rules
      for negative and out-of-range indices.
    - What a player draws from the interpreter's random state is part of its
      instance: the results of its [randint] calls and the outcome of the
      [shuffle] in its constructor. *)

From Stdlib Require Import ZArith Lia Bool.
From stdpp Require Import base tactics option list sorting.

Local Open Scope Z_scope.

(** ** Exceptions and results *)

Inductive Exn : Type :=
| KeyboardInterrupt
| SystemExit
| ValueError
| TypeError
| IndexError
| TimeoutError
| OtherException (tag : nat).

Inductive Res (A : Type) : Type :=
| Ok (a : A)
| Raise (e : Exn).
Arguments Ok {A} a.
Arguments Raise {A} e.

(** The two exception classes of [except (KeyboardInterrupt, SystemExit)]. *)
Definition is_interrupt (e : Exn) : bool :=
  match e with
  | KeyboardInterrupt | SystemExit => true
  | _ => false
  end.

(** ** Python list primitives *)

(** [l[i]]: a negative index counts from the end; [None] is [IndexError]. *)
Definition py_index {A : Type} (l : list A) (i : Z) : option A :=
  let n := Z.of_nat (length l) in
  if i <? 0 then
    if i + n <? 0 then None else l !! Z.to_nat (i + n)
  else l !! Z.to_nat i.

(** Bound adjustment of a slice with step 1. *)
Definition slice_bound (n i : Z) : Z :=
  if i <? 0 then Z.max 0 (i + n) else Z.min i n.

(** [l[start:stop]]: never raises. *)
Definition py_slice {A : Type} (l : list A) (start stop : Z) : list A :=
  let n := Z.of_nat (length l) in
  let lo := slice_bound n start in
  let hi := slice_bound n stop in
  take (Z.to_nat (hi - lo)) (drop (Z.to_nat lo) l).

(** [l.remove(v)]: drops the first element equal to [v]; [None] is
    [ValueError]. *)
Fixpoint py_remove (v : Z) (l : list Z) : option (list Z) :=
  match l with
  | [] => None
  | h :: t => if h =? v then Some t else cons h <$> py_remove v t
  end.

(** [[f(c) for c in l]] where [f] may raise: the first failure aborts. *)
Fixpoint comprehension {A B : Type} (f : A -> option B) (l : list A)
  : option (list B) :=
  match l with
  | [] => Some []
  | a :: t =>
      match f a with
      | None => None
      | Some b => cons b <$> comprehension f t
      end
  end.

(** ** Enumerations *)

Module FieldState.
Inductive t : Type := EMPTY | SHIP | HIT | MISSED.

Definition eqb (a b : t) : bool :=
  match a, b with
  | EMPTY, EMPTY | SHIP, SHIP | HIT, HIT | MISSED, MISSED => true
  | _, _ => false
  end.
End FieldState.

Module ShotResult.
Inductive t : Type := MISS | PREVIOUS_MISS | HIT | PREVIOUS_HIT | INVALID.
End ShotResult.

(** ** Field *)

Module Field.
(** The class attribute [_transitions]. *)
Definition _transitions (s : FieldState.t) : FieldState.t * ShotResult.t :=
  match s with
  | FieldState.EMPTY => (FieldState.MISSED, ShotResult.MISS)
  | FieldState.SHIP => (FieldState.HIT, ShotResult.HIT)
  | FieldState.HIT => (FieldState.HIT, ShotResult.PREVIOUS_HIT)
  | FieldState.MISSED => (FieldState.MISSED, ShotResult.PREVIOUS_MISS)
  end.

(** [Field.__init__]. *)
Definition init : FieldState.t := FieldState.EMPTY.

(** [Field.drop_bomb]: new state and returned result. *)
Definition drop_bomb (state : FieldState.t) : FieldState.t * ShotResult.t :=
  _transitions state.

(** Results of [n] successive [drop_bomb] calls on one field. *)
Fixpoint drop_bombs (n : nat) (state : FieldState.t)
  : FieldState.t * list ShotResult.t :=
  match n with
  | O => (state, [])
  | S n' =>
      let '(state', r) := drop_bomb state in
      let '(final, rs) := drop_bombs n' state' in
      (final, r :: rs)
  end.
End Field.

(** ** Board *)

Module Board.
(** [heap] stores the state of every [Field] object the board allocated;
    [_board] and [_ships] hold addresses into it. *)
Record t : Type := mk {
  size : Z;
  heap : list FieldState.t;
  _board : list (list nat);
  _ships : list (list nat);
  _remaining_ships : list Z
}.

Definition default_size : Z := 12.
Definition default_ships : list Z := [2; 3; 3; 4; 5].

(** The state of the field at address [a]. *)
Definition state (b : t) (a : nat) : FieldState.t :=
  default FieldState.EMPTY (heap b !! a).

(** Row [r] of a fresh grid with [n] columns: the fields are allocated row
    by row, so the field of row [r], column [c] has address [r * n + c]. *)
Definition fresh_row (n r : nat) : list nat :=
  (fun c => (r * n + c)%nat) <$> seq 0 n.

Definition fresh_grid (n : nat) : list (list nat) :=
  fresh_row n <$> seq 0 n.

(** [Board.__init__(size, ships)]; [range(size)] is empty for [size <= 0]. *)
Definition init (size : Z) (ships : list Z) : t :=
  let n := Z.to_nat size in
  {| size := size;
     heap := replicate (n * n) Field.init;
     _board := fresh_grid n;
     _ships := [];
     _remaining_ships := ships |}.

(** [Board()]. *)
Definition init_default : t := init default_size default_ships.

Definition set_heap (b : t) (h : list FieldState.t) : t :=
  {| size := size b; heap := h; _board := _board b;
     _ships := _ships b; _remaining_ships := _remaining_ships b |}.

Definition set_remaining (b : t) (r : list Z) : t :=
  {| size := size b; heap := heap b; _board := _board b;
     _ships := _ships b; _remaining_ships := r |}.

Definition add_ship (b : t) (fields : list nat) : t :=
  {| size := size b; heap := heap b; _board := _board b;
     _ships := _ships b ++ [fields];
     _remaining_ships := _remaining_ships b |}.

(** [self._board[y][x]]; [None] is [IndexError]. *)
Definition field_at (b : t) (x y : Z) : option nat :=
  row ← py_index (_board b) y; py_index row x.

(** [Board.drop_bomb]. *)
Definition drop_bomb (x y : Z) (b : t) : t * Res ShotResult.t :=
  match field_at b x y with
  | None => (b, Raise ValueError)
  | Some field =>
      let '(state', result) := Field.drop_bomb (state b field) in
      (set_heap b (<[field := state']> (heap b)), Ok result)
  end.

(** The fields selected by [place_ship]; [None] is [IndexError]. *)
Definition ship_fields (b : t) (sz x y : Z) (horizontal : bool)
  : option (list nat) :=
  if horizontal then
    row ← py_index (_board b) y; Some (py_slice row x (x + sz))
  else
    comprehension (fun column => py_index column x)
                  (py_slice (_board b) y (y + sz)).

(** [for field in fields: field.state = FieldState.SHIP]. *)
Definition mark_ship (fields : list nat) (h : list FieldState.t)
  : list FieldState.t :=
  foldl (fun h a => <[a := FieldState.SHIP]> h) h fields.

(** [Board.place_ship]. *)
Definition place_ship (sz x y : Z) (horizontal : bool) (b : t)
  : t * Res unit :=
  match py_remove sz (_remaining_ships b) with
  | None => (b, Raise ValueError)
  | Some remaining =>
      let b := set_remaining b remaining in
      match ship_fields b sz x y horizontal with
      | None => (b, Raise ValueError)
      | Some fields =>
          if negb (Z.of_nat (length fields) =? sz) then
            (b, Raise ValueError)
          else if forallb (fun a => FieldState.eqb (state b a)
                                      FieldState.EMPTY) fields then
            (set_heap (add_ship b fields) (mark_ship fields (heap b)),
             Ok tt)
          else (b, Raise ValueError)
      end
  end.

(** [Board.still_floating]. *)
Definition still_floating (b : t) : bool :=
  existsb (fun ship =>
             existsb (fun part => FieldState.eqb (state b part)
                                    FieldState.SHIP) ship)
          (_ships b).

(** [board[x, y]] ([__getitem__] with a pair): the field's state. *)
Definition getitem (b : t) (x y : Z) : option FieldState.t :=
  state b <$> field_at b x y.

(** Boards as [__init__] lays them out: an [n] by [n] grid over [n * n]
    allocated fields. Every operation keeps this shape. *)
Definition wf (b : t) : Prop :=
  _board b = fresh_grid (Z.to_nat (size b)) /\
  length (heap b) = (Z.to_nat (size b) * Z.to_nat (size b))%nat.
End Board.

(** ** Players *)

(** A ship request [(size, x, y, horizontal)] and a resolved shot
    [(x, y, result)]. *)
Definition Ship : Type := Z * Z * Z * bool.
Definition Shot : Type := Z * Z * ShotResult.t.

(** [FeedbackBuffer = List[Optional[Tuple[int, int, ShotResult]]]]. *)
Definition FeedbackBuffer : Type := list (option Shot).

Module Player.
(** A player class over instance states [St]. Each method takes the
    instance state and returns the state it leaves behind together with
    its return value or the exception it raised. [construct] is
    [__init__(size, max_turns, max_fn_time, feedback_delay, ships)]; its
    last argument stands for whatever the class draws from the
    interpreter's random state when an instance is built. Return values
    have the types of the annotations and are fully evaluated: a list of
    [(size, x, y, horizontal)] tuples and an [(x, y)] pair of integers.
    Players that return anything else are not covered: coordinates that
    are not integers make [Board.drop_bomb] raise [TypeError], which the
    [except ValueError] of a lenient turn lets through, and an error
    raised while the ship list is iterated passes the set-up loop unless
    it is a [TypeError]. Every statement about what a round lets escape is
    a statement about players of this type. *)
Record class (St : Type) : Type := mk {
  construct : Z -> Z -> Z -> Z -> list Z -> nat -> Res St;
  ship_locations : St -> St * Res (list Ship);
  drop_bomb : St -> St * Res (Z * Z);
  bomb_feedback : Z -> Z -> ShotResult.t -> St -> St * Res unit;
  bombed_feedback : Z -> Z -> ShotResult.t -> St -> St * Res unit
}.
Arguments mk {St}.
Arguments construct {St}.
Arguments ship_locations {St}.
Arguments drop_bomb {St}.
Arguments bomb_feedback {St}.
Arguments bombed_feedback {St}.
End Player.

(** ** The objects of one round *)

Inductive Side : Type := P1 | P2.

Definition other (s : Side) : Side :=
  match s with P1 => P2 | P2 => P1 end.

Definition Side_eqb (a b : Side) : bool :=
  match a, b with P1, P1 | P2, P2 => true | _, _ => false end.

(** Calls the orchestrator makes on a player; the trace of a round records
    each one with the exception it raised, if any. *)
Inductive Call : Type :=
| Construct
| ShipLocations
| DropBomb
| BombFeedback (x y : Z) (result : ShotResult.t)
| BombedFeedback (x y : Z) (result : ShotResult.t).

Record Event : Type := mkEvent {
  ev_side : Side;
  ev_call : Call;
  ev_raised : option Exn
}.

Definition raised {A : Type} (r : Res A) : option Exn :=
  match r with Ok _ => None | Raise e => Some e end.

(** The locals of [_play_round] that the two bunches alias: both bunches
    hold the same two players, boards and buffers. [trace] is ghost state,
    newest event first. *)
Record Round (St : Type) : Type := mkRound {
  p1 : St;
  p2 : St;
  p1_board : Board.t;
  p2_board : Board.t;
  p1_buffer : FeedbackBuffer;
  p2_buffer : FeedbackBuffer;
  trace : list Event
}.
Arguments mkRound {St}.
Arguments p1 {St}.
Arguments p2 {St}.
Arguments p1_board {St}.
Arguments p2_board {St}.
Arguments p1_buffer {St}.
Arguments p2_buffer {St}.
Arguments trace {St}.

Section RoundStore.
Context {St : Type}.

Definition player (s : Side) (rs : Round St) : St :=
  match s with P1 => p1 rs | P2 => p2 rs end.

Definition board (s : Side) (rs : Round St) : Board.t :=
  match s with P1 => p1_board rs | P2 => p2_board rs end.

Definition buffer (s : Side) (rs : Round St) : FeedbackBuffer :=
  match s with P1 => p1_buffer rs | P2 => p2_buffer rs end.

Definition set_player (s : Side) (v : St) (rs : Round St) : Round St :=
  match s with
  | P1 => mkRound v (p2 rs) (p1_board rs) (p2_board rs)
                  (p1_buffer rs) (p2_buffer rs) (trace rs)
  | P2 => mkRound (p1 rs) v (p1_board rs) (p2_board rs)
                  (p1_buffer rs) (p2_buffer rs) (trace rs)
  end.

Definition set_board (s : Side) (b : Board.t) (rs : Round St) : Round St :=
  match s with
  | P1 => mkRound (p1 rs) (p2 rs) b (p2_board rs)
                  (p1_buffer rs) (p2_buffer rs) (trace rs)
  | P2 => mkRound (p1 rs) (p2 rs) (p1_board rs) b
                  (p1_buffer rs) (p2_buffer rs) (trace rs)
  end.

Definition set_buffer (s : Side) (f : FeedbackBuffer) (rs : Round St)
  : Round St :=
  match s with
  | P1 => mkRound (p1 rs) (p2 rs) (p1_board rs) (p2_board rs)
                  f (p2_buffer rs) (trace rs)
  | P2 => mkRound (p1 rs) (p2 rs) (p1_board rs) (p2_board rs)
                  (p1_buffer rs) f (trace rs)
  end.

Definition record (e : Event) (rs : Round St) : Round St :=
  mkRound (p1 rs) (p2 rs) (p1_board rs) (p2_board rs)
          (p1_buffer rs) (p2_buffer rs) (e :: trace rs).

(** *** Statements over the round's store

    A statement transforms the store and either yields a value or raises;
    what it mutated before raising stays mutated. *)
Definition M (A : Type) : Type := Round St -> Round St * Res A.

Definition ret {A : Type} (a : A) : M A := fun rs => (rs, Ok a).

Definition raise {A : Type} (e : Exn) : M A := fun rs => (rs, Raise e).

Definition bind {A B : Type} (m : M A) (k : A -> M B) : M B :=
  fun rs =>
    match m rs with
    | (rs', Ok a) => k a rs'
    | (rs', Raise e) => (rs', Raise e)
    end.

(** [try: m  except <any>: handler e]; the handler decides per class. *)
Definition try_except {A : Type} (m : M A) (handler : Exn -> M A) : M A :=
  fun rs =>
    match m rs with
    | (rs', Ok a) => (rs', Ok a)
    | (rs', Raise e) => handler e rs'
    end.
End RoundStore.
Arguments M : clear implicits.

Declare Scope round_scope.
Delimit Scope round_scope with round.
Notation "x <- m ;; k" := (bind m (fun x => k))
  (at level 20, m at level 99, k at level 200, only parsing) : round_scope.
Notation "' pat <- m ;; k" := (bind m (fun x => let 'pat := x in k))
  (at level 20, pat pattern, m at level 99, k at level 200, only parsing)
  : round_scope.
Notation "m ;;; k" := (bind m (fun _ => k))
  (at level 100, k at level 200, only parsing, right associativity)
  : round_scope.

(** How a turn loop ended. [OutOfFuel] marks a loop cut off by the bound of
    the model; the loops below never end that way. *)
Inductive LoopExit : Type :=
| Break
| Raised (e : Exn)
| OutOfFuel.

(** What one call of [_play_round] did: the calls it made, the boards it
    built (if it got that far) as they were at the end, and the returned
    score or raised exception ([None]: cut off by the model's bound). *)
Record Run : Type := mkRun {
  run_trace : list Event;
  run_boards : option (Board.t * Board.t);
  run_result : option (Res (Z * Z))
}.

Definition run_of {St : Type} (rs : Round St) (result : option (Res (Z * Z)))
  : Run :=
  mkRun (trace rs) (Some (p1_board rs, p2_board rs)) result.

Section Orchestration.
Context {St : Type}.
(** The classes the two instances [p1] and [p2] belong to. *)
Variables c1 c2 : Player.class St.
Local Open Scope round_scope.

Definition class_of (s : Side) : Player.class St :=
  match s with P1 => c1 | P2 => c2 end.

(** *** Method calls on the players *)

Definition call_ship_locations (s : Side) : M St (list Ship) := fun rs =>
  let '(st, r) := Player.ship_locations (class_of s) (player s rs) in
  (record (mkEvent s ShipLocations (raised r)) (set_player s st rs), r).

Definition call_drop_bomb (s : Side) : M St (Z * Z) := fun rs =>
  let '(st, r) := Player.drop_bomb (class_of s) (player s rs) in
  (record (mkEvent s DropBomb (raised r)) (set_player s st rs), r).

Definition call_bomb_feedback (s : Side) (x y : Z) (result : ShotResult.t)
  : M St unit := fun rs =>
  let '(st, r) := Player.bomb_feedback (class_of s) x y result
                                       (player s rs) in
  (record (mkEvent s (BombFeedback x y result) (raised r))
          (set_player s st rs), r).

Definition call_bombed_feedback (s : Side) (x y : Z) (result : ShotResult.t)
  : M St unit := fun rs =>
  let '(st, r) := Player.bombed_feedback (class_of s) x y result
                                         (player s rs) in
  (record (mkEvent s (BombedFeedback x y result) (raised r))
          (set_player s st rs), r).

(** A call [f] with the starred argument [feedback]: unpacking [None]
    raises [TypeError] before [f] is entered. *)
Definition star_call {A : Type} (f : Z -> Z -> ShotResult.t -> M St A)
           (feedback : option Shot) : M St A :=
  match feedback with
  | None => raise TypeError
  | Some (x, y, result) => f x y result
  end.

(** *** Method calls on the boards and buffers *)

Definition board_place_ship (s : Side) (ship : Ship) : M St unit := fun rs =>
  let '(sz, x, y, horizontal) := ship in
  let '(b, r) := Board.place_ship sz x y horizontal (board s rs) in
  (set_board s b rs, r).

Definition board_drop_bomb (s : Side) (x y : Z) : M St ShotResult.t := fun rs =>
  let '(b, r) := Board.drop_bomb x y (board s rs) in
  (set_board s b rs, r).

(** [buffer.append(entry)]. *)
Definition buffer_append (s : Side) (entry : Shot) : M St unit := fun rs =>
  (set_buffer s (buffer s rs ++ [Some entry]) rs, Ok tt).

(** [buffer.pop(0)]. *)
Definition buffer_pop0 (s : Side) : M St (option Shot) := fun rs =>
  match buffer s rs with
  | [] => (rs, Raise IndexError)
  | entry :: rest => (set_buffer s rest rs, Ok entry)
  end.

(** [result is not None] for a [ShotResult] member. *)
Definition is_not_None (result : ShotResult.t) : bool := true.

(** [score = p1_board.still_floating * 2, p2_board.still_floating * 2]
    and the return statement after it. *)
Definition scoring (b1 b2 : Board.t) : Z * Z :=
  let score := (Z.b2z (Board.still_floating b1) * 2,
                Z.b2z (Board.still_floating b2) * 2) in
  if negb (fst score + snd score =? 2) then (1, 1) else score.

(** [bunches] after [random.shuffle]: a bunch is named by its attacker,
    the target is the other side. *)
Definition shuffled_bunches (swap : bool) : list Side :=
  if swap then [P2; P1] else [P1; P2].

(** [[None] * feedback_delay]. *)
Definition empty_buffer (feedback_delay : Z) : FeedbackBuffer :=
  replicate (Z.to_nat feedback_delay) None.

(** The store right after the boards and buffers are created. *)
Definition fresh_round (st1 st2 : St) (feedback_delay : Z)
           (tr : list Event) : Round St :=
  {| p1 := st1; p2 := st2;
     p1_board := Board.init_default;
     p2_board := Board.init_default;
     p1_buffer := empty_buffer feedback_delay;
     p2_buffer := empty_buffer feedback_delay;
     trace := tr |}.

(** Iterations the turn loop can take before [turn > max_turns * 2]. *)
Definition loop_bound (max_turns : Z) : nat :=
  S (Z.to_nat (max_turns * 2)).

(** The "Play game" loop, [for ... in itertools.cycle(bunches)], around a
    loop body: [cycle] is what the iterator yields next, [turn] the
    counter before [turn += 1]. Both [_play_round] methods have this
    loop; they differ in the body after the termination test. *)
Fixpoint turn_loop (max_turns : Z) (body : Side -> M St unit)
         (fuel : nat) (cycle : list Side) (turn : Z) (rs : Round St)
  : Round St * LoopExit :=
  match fuel with
  | O => (rs, OutOfFuel)
  | S fuel' =>
      match cycle with
      | [] => (rs, Break)
      | att :: rest =>
          let turn := turn + 1 in
          if negb (Board.still_floating (board att rs))
             || (turn >? max_turns * 2)
          then (rs, Break)
          else
            match body att rs with
            | (rs', Raise e) => (rs', Raised e)
            | (rs', Ok _) =>
                turn_loop max_turns body fuel' (rest ++ [att]) turn rs'
            end
      end
  end.

(** [_play_round] from the creation of the boards to the return
    statement, around the "Set up ships" loop and the turn body. *)
Definition play_round_from (set_up_ships : list Side -> M St unit)
           (body : Side -> M St unit) (max_turns feedback_delay : Z)
           (st1 st2 : St) (tr : list Event) (swap : bool) : Run :=
  let rs := fresh_round st1 st2 feedback_delay tr in
  let bunches := shuffled_bunches swap in
  match set_up_ships bunches rs with
  | (rs, Raise e) => run_of rs (Some (Raise e))
  | (rs, Ok _) =>
      match turn_loop max_turns body (loop_bound max_turns) bunches 0 rs with
      | (rs, Break) =>
          run_of rs (Some (Ok (scoring (p1_board rs) (p2_board rs))))
      | (rs, Raised e) => run_of rs (Some (Raise e))
      | (rs, OutOfFuel) => run_of rs None
      end
  end.
End Orchestration.

(** What the interpreter's random state contributes to one round: the
    outcome of [random.shuffle(bunches)] and whatever the two constructors
    draw. *)
Record Chance : Type := mkChance {
  swaps : bool;
  seed1 : nat;
  seed2 : nat
}.

(** [for _ in range(games)] over a [_play_round] method, summing the
    scores; round [i] draws [chance i]. *)
Fixpoint play_rounds (round : nat -> Run) (n i : nat) (p1_score p2_score : Z)
  : option (Res (Z * Z)) :=
  match n with
  | O => Some (Ok (p1_score, p2_score))
  | S n' =>
      match run_result (round i) with
      | None => None
      | Some (Raise e) => Some (Raise e)
      | Some (Ok (p1_round_score, p2_round_score)) =>
          play_rounds round n' (S i) (p1_score + p1_round_score)
                      (p2_score + p2_round_score)
      end
  end.

(** ** NaiveGame *)

Module NaiveGame.
Record t (St : Type) : Type := mk {
  p1_class : Player.class St;
  p2_class : Player.class St;
  size : Z;
  max_turns : Z;
  max_fn_time : Z;
  feedback_delay : Z;
  ships : list Z
}.
Arguments mk {St}.
Arguments p1_class {St}.
Arguments p2_class {St}.
Arguments size {St}.
Arguments max_turns {St}.
Arguments max_fn_time {St}.
Arguments feedback_delay {St}.
Arguments ships {St}.

Section Methods.
Context {St : Type} (self : t St).
Local Open Scope round_scope.

(** [cls(size=self.size, max_turns=self.max_turns, ...)]. *)
Definition new_player (cls : Player.class St) (seed : nat) : Res St :=
  Player.construct cls (size self) (max_turns self) (max_fn_time self)
                   (feedback_delay self) (ships self) seed.

Section Instances.
Variables c1 c2 : Player.class St.

(** [for ship in ships: board.place_ship(...)]. *)
Fixpoint place_ships (s : Side) (ships : list Ship) : M St unit :=
  match ships with
  | [] => ret tt
  | ship :: rest => board_place_ship s ship ;;; place_ships s rest
  end.

(** The "Set up ships" loop over the bunches. *)
Fixpoint set_up_ships (bunches : list Side) : M St unit :=
  match bunches with
  | [] => ret tt
  | s :: rest =>
      (ships <- call_ship_locations c1 c2 s ;; place_ships s ships) ;;;
      set_up_ships rest
  end.

(** The body of the "Play game" loop after the termination test. *)
Definition turn_body (att : Side) : M St unit :=
  let tgt := other att in
  '(x, y) <- call_drop_bomb c1 c2 att ;;
  result <- board_drop_bomb tgt x y ;;
  call_bombed_feedback c1 c2 tgt x y result ;;;
  buffer_append att (x, y, result) ;;;
  feedback <- buffer_pop0 att ;;
  if is_not_None result then
    star_call (call_bomb_feedback c1 c2 att) feedback
  else ret tt.

(** From the creation of the boards to the return statement. *)
Definition play_from (st1 st2 : St) (tr : list Event) (swap : bool)
  : Run :=
  play_round_from set_up_ships turn_body (max_turns self)
                (feedback_delay self) st1 st2 tr swap.
End Instances.

(** [NaiveGame._play_round]. *)
Definition _play_round (ch : Chance) : Run :=
  let r1 := new_player (p1_class self) (seed1 ch) in
  let ev1 := mkEvent P1 Construct (raised r1) in
  match r1 with
  | Raise e => mkRun [ev1] None (Some (Raise e))
  | Ok st1 =>
      let r2 := new_player (p2_class self) (seed2 ch) in
      let ev2 := mkEvent P2 Construct (raised r2) in
      match r2 with
      | Raise e => mkRun [ev2; ev1] None (Some (Raise e))
      | Ok st2 =>
          play_from (p1_class self) (p2_class self) st1 st2 [ev2; ev1]
                    (swaps ch)
      end
  end.

(** [NaiveGame.play]. *)
Definition play (chance : nat -> Chance) (games : Z)
  : option (Res (Z * Z)) :=
  play_rounds (fun i => _play_round (chance i)) (Z.to_nat games) 0 0 0.
End Methods.
End NaiveGame.

(** ** Game *)

Module Game.
Section Methods.
Context {St : Type}.
(** [TimedPlayer] bounds every call of the wrapped player by a signal
    alarm. What the alarm does depends on the wall clock; for the
    orchestrator the wrapper is one more player class. *)
Variable TimedPlayer : Player.class St -> Player.class St.
Variable self : NaiveGame.t St.
Local Open Scope round_scope.

(** The class of the instance built for [base]. *)
Definition instance_class (base : Player.class St) : Player.class St :=
  if NaiveGame.max_fn_time self >? 0 then TimedPlayer base else base.

(** "Check for successful init": [None] is the [None] the handler
    assigns. *)
Definition new_player (base : Player.class St) (seed : nat)
  : Res St * Res (option St) :=
  let r := NaiveGame.new_player self (instance_class base) seed in
  (r,
   match r with
   | Ok st => Ok (Some st)
   | Raise e => if is_interrupt e then Raise e else Ok None
   end).

Section Instances.
Variables c1 c2 : Player.class St.

(** [except (KeyboardInterrupt, SystemExit): raise] followed by
    [except BaseException: <fallback>]. *)
Definition isolate {A : Type} (m : M St A) (fallback : M St A)
  : M St A :=
  try_except m (fun e => if is_interrupt e then raise e else fallback).

(** [try: board.place_ship(...) except ValueError: pass] for each
    ship; the [except TypeError: pass] around the loop ends the loop. *)
Fixpoint place_ships (s : Side) (ships : list Ship) : M St unit :=
  match ships with
  | [] => ret tt
  | ship :: rest =>
      fun rs =>
        match try_except (board_place_ship s ship)
                (fun e => match e with
                          | ValueError => ret tt
                          | _ => raise e
                          end) rs with
        | (rs', Ok _) => place_ships s rest rs'
        | (rs', Raise TypeError) => (rs', Ok tt)
        | (rs', Raise e) => (rs', Raise e)
        end
  end.

(** The "Set up ships" loop over the bunches. *)
Fixpoint set_up_ships (bunches : list Side) : M St unit :=
  match bunches with
  | [] => ret tt
  | s :: rest =>
      (ships <- isolate (call_ship_locations c1 c2 s) (ret []) ;;
       place_ships s ships) ;;;
      set_up_ships rest
  end.

(** The body of the "Play game" loop after the termination test;
    returning early is [continue]. *)
Definition turn_body (att : Side) : M St unit :=
  let tgt := other att in
  shot <- isolate (xy <- call_drop_bomb c1 c2 att ;; ret (Some xy))
                  (ret None) ;;
  match shot with
  | None => ret tt
  | Some (x, y) =>
      hit <- try_except
               (result <- board_drop_bomb tgt x y ;; ret (Some result))
               (fun e => match e with
                         | ValueError => ret None
                         | _ => raise e
                         end) ;;
      match hit with
      | None => ret tt
      | Some result =>
          isolate (call_bombed_feedback c1 c2 tgt x y result)
                  (ret tt) ;;;
          buffer_append att (x, y, result) ;;;
          feedback <- buffer_pop0 att ;;
          if is_not_None result then
            isolate (star_call (call_bomb_feedback c1 c2 att) feedback)
                    (ret tt)
          else ret tt
      end
  end.

(** From the creation of the boards to the return statement. *)
Definition play_from (st1 st2 : St) (tr : list Event) (swap : bool)
  : Run :=
  play_round_from set_up_ships turn_body (NaiveGame.max_turns self)
                (NaiveGame.feedback_delay self) st1 st2 tr swap.
End Instances.

(** [Game._play_round]. *)
Definition _play_round (ch : Chance) : Run :=
  let '(r1, got1) := new_player (NaiveGame.p1_class self) (seed1 ch) in
  let ev1 := mkEvent P1 Construct (raised r1) in
  match got1 with
  | Raise e => mkRun [ev1] None (Some (Raise e))
  | Ok p1 =>
      let '(r2, got2) := new_player (NaiveGame.p2_class self) (seed2 ch) in
      let ev2 := mkEvent P2 Construct (raised r2) in
      match got2 with
      | Raise e => mkRun [ev2; ev1] None (Some (Raise e))
      | Ok p2 =>
          match p1, p2 with
          | None, None => mkRun [ev2; ev1] None (Some (Ok (1, 1)))
          | None, Some _ => mkRun [ev2; ev1] None (Some (Ok (0, 2)))
          | Some _, None => mkRun [ev2; ev1] None (Some (Ok (2, 0)))
          | Some st1, Some st2 =>
              play_from (instance_class (NaiveGame.p1_class self))
                        (instance_class (NaiveGame.p2_class self))
                        st1 st2 [ev2; ev1] (swaps ch)
          end
      end
  end.

(** [Game.play], inherited from [NaiveGame] and dispatching to
    [Game._play_round]. *)
Definition play (chance : nat -> Chance) (games : Z)
  : option (Res (Z * Z)) :=
  play_rounds (fun i => _play_round (chance i)) (Z.to_nat games) 0 0 0.
End Methods.
End Game.

(** ** Scripted players and sample games *)

(** A player that answers from a script: it requests [ships], then fires
    the coordinates of [shots] in order; with the script used up its
    [drop_bomb] raises [IndexError] (a [pop] from an empty list). Feedback
    is ignored. The instance state is the rest of the script. *)
Definition scripted (ships : list Ship) (shots : list (Z * Z))
  : Player.class (list (Z * Z)) :=
  Player.mk
    (fun _ _ _ _ _ _ => Ok shots)
    (fun st => (st, Ok ships))
    (fun st => match st with
               | [] => (st, Raise IndexError)
               | xy :: rest => (rest, Ok xy)
               end)
    (fun _ _ _ st => (st, Ok tt))
    (fun _ _ _ st => (st, Ok tt)).

(** A player whose [drop_bomb] always throws. *)
Definition thrower (ships : list Ship) : Player.class (list (Z * Z)) :=
  Player.mk
    (fun _ _ _ _ _ _ => Ok [])
    (fun st => (st, Ok ships))
    (fun st => (st, Raise (OtherException 0)))
    (fun _ _ _ st => (st, Ok tt))
    (fun _ _ _ st => (st, Ok tt)).

(** A player that fires at one cell forever. *)
Definition stubborn (ships : list Ship) (x y : Z)
  : Player.class (list (Z * Z)) :=
  Player.mk
    (fun _ _ _ _ _ _ => Ok [])
    (fun st => (st, Ok ships))
    (fun st => (st, Ok (x, y)))
    (fun _ _ _ st => (st, Ok tt))
    (fun _ _ _ st => (st, Ok tt)).

(** On a platform without [SIGALRM] the timed wrapper only delegates. *)
Definition untimed {St : Type} (base : Player.class St) : Player.class St :=
  base.

Definition fixed_chance (swap : bool) : nat -> Chance :=
  fun _ => mkChance swap 0 0.

(** A round of four turns a side with [feedback_delay = 1]: player 1
    fires at (0,0), (1,0), (2,0), (3,0), player 2 at (5,5), (6,5) and then
    has nothing left to fire. *)
Definition delayed_game : NaiveGame.t (list (Z * Z)) :=
  NaiveGame.mk (scripted [(2, 0, 5, true)] [(0, 0); (1, 0); (2, 0); (3, 0)])
               (scripted [(2, 5, 5, true)] [(5, 5); (6, 5)])
               12 4 0 1 [2; 3; 3; 4; 5].

(** A player whose [drop_bomb] always throws against one that keeps firing
    at (0,0), with the default configuration. *)
Definition thrower_game : NaiveGame.t (list (Z * Z)) :=
  NaiveGame.mk (thrower [(2, 5, 5, true)]) (stubborn [(2, 0, 0, true)] 0 0)
               12 144 0 0 [2; 3; 3; 4; 5].

(** The same thrower against an opponent that places no ship. *)
Definition shipless_game : NaiveGame.t (list (Z * Z)) :=
  NaiveGame.mk (thrower [(2, 5, 5, true)]) (stubborn [] 0 0)
               12 144 0 0 [2; 3; 3; 4; 5].


(** One turn a side: player 1 fires at (-1, 0), and player 2 has a ship on
    (10, 0) and (11, 0). *)
Definition wrapping_game : NaiveGame.t (list (Z * Z)) :=
  NaiveGame.mk (scripted [(2, 0, 5, true)] [(-1, 0)])
               (scripted [(2, 10, 0, true)] [])
               12 1 0 0 [2; 3; 3; 4; 5].

(** Successive board operations. *)
Definition bomb_all (shots : list (Z * Z)) (b : Board.t) : Board.t :=
  foldl (fun b xy => fst (Board.drop_bomb (fst xy) (snd xy) b)) b shots.

(** The fields a list of shots lands on. *)
Definition targets (b : Board.t) (shots : list (Z * Z)) : list nat :=
  omap (fun xy => Board.field_at b (fst xy) (snd xy)) shots.

(** Address of the field of row [r], column [c] on a grid of [n]
    columns. *)
Definition cell (n r c : nat) : nat := (r * n + c)%nat.

(** The position an index [i] of [-n <= i < n] denotes in a list of length
    [n]. *)
Definition wrap (n i : Z) : nat := Z.to_nat (i mod n).

(** The fields of a span of [sz] cells from the wrapped start (x, y). *)
Definition span_cells (n : nat) (sz x y : Z) (horizontal : bool) : list nat :=
  let N := Z.of_nat n in
  if horizontal then cell n (wrap N y) <$> seq (wrap N x) (Z.to_nat sz)
  else (fun r => cell n r (wrap N x)) <$> seq (wrap N y) (Z.to_nat sz).

(** The claim that any negative start coordinate within [-N, N) is
    accepted by [place_ship] on an empty board with the size available. *)
Definition place_ship_wraps_every_negative_start : Prop :=
  forall (N sz x y : Z) (horizontal : bool),
    0 < sz <= N -> -N <= x < N -> -N <= y < N -> x < 0 \/ y < 0 ->
    snd (Board.place_ship sz x y horizontal (Board.init N [sz])) = Ok tt.

(** Successive placements, failures skipped. *)
Definition place_all (ships : list Ship) (b : Board.t) : Board.t :=
  foldl (fun b (ship : Ship) =>
           let '(sz, x, y, horizontal) := ship in
           fst (Board.place_ship sz x y horizontal b)) b ships.

(** ** Reading a trace *)

(** A shot of side [s] that the target board resolved shows in the trace
    as the [bombed_feedback] call on the other side. *)
Definition is_shot (s : Side) (e : Event) : option Shot :=
  match ev_call e with
  | BombedFeedback x y r =>
      if Side_eqb (ev_side e) (other s) then Some (x, y, r) else None
  | _ => None
  end.

(** A [bomb_feedback] call on side [s]. *)
Definition is_delivery (s : Side) (e : Event) : option Shot :=
  match ev_call e with
  | BombFeedback x y r =>
      if Side_eqb (ev_side e) s then Some (x, y, r) else None
  | _ => None
  end.

(** The resolved shots of side [s] in a history (oldest event first). *)
Definition shots_by (s : Side) (h : list Event) : list Shot :=
  omap (is_shot s) h.

(** Every [bomb_feedback] call on side [s] in a history, with the number
    of shots of [s] resolved when the call is made, counting from [n]. *)
Fixpoint stamp (s : Side) (h : list Event) (n : nat) : list (nat * Shot) :=
  match h with
  | [] => []
  | e :: h' =>
      match is_shot s e, is_delivery s e with
      | Some _, _ => stamp s h' (S n)
      | None, Some d => (n, d) :: stamp s h' n
      | None, None => stamp s h' n
      end
  end.

(** The feedback side [s] got in a round, from the round's trace. *)
Definition delivery_schedule (s : Side) (tr : list Event)
  : list (nat * Shot) :=
  stamp s (rev tr) 0.

(** Feedback with a lag of [k] shots: the result of shot number i arrives
    while shot number i + k is processed (shots counted from 1). *)
Definition delayed_schedule (k : nat) (shots : list Shot)
  : list (nat * Shot) :=
  zip (seq (1 + k) (length shots - k)) shots.

(** The schedule with the result of shot number i arriving while shot
    number i + k + 1 is processed. *)
Definition stated_schedule (k : nat) (shots : list Shot)
  : list (nat * Shot) :=
  zip (seq (2 + k) (length shots - (1 + k))) shots.

(** The exception [e] is raised by some call of a method of class [c]. *)
Definition raised_by {St : Type} (c : Player.class St) (e : Exn) : Prop :=
  (exists size max_turns max_fn_time feedback_delay ships seed,
      Player.construct c size max_turns max_fn_time feedback_delay ships seed
      = Raise e) \/
  (exists st, snd (Player.ship_locations c st) = Raise e) \/
  (exists st, snd (Player.drop_bomb c st) = Raise e) \/
  (exists x y r st, snd (Player.bomb_feedback c x y r st) = Raise e) \/
  (exists x y r st, snd (Player.bombed_feedback c x y r st) = Raise e).

(** A class none of whose methods raises an interrupt. *)
Definition never_interrupts {St : Type} (c : Player.class St) : Prop :=
  forall e, raised_by c e -> is_interrupt e = false.

(** A class whose [drop_bomb] always throws something other than an
    interrupt. *)
Definition drop_bomb_always_throws {St : Type} (c : Player.class St) : Prop :=
  forall st, exists err,
    snd (Player.drop_bomb c st) = Raise err /\ is_interrupt err = false.

(** ** Reading a run *)

(** [b'] is [b] after some placements and shots. *)
Inductive evolves (b : Board.t) : Board.t -> Prop :=
| evolves_refl : evolves b b
| evolves_place (sz x y : Z) (horizontal : bool) (b' : Board.t) :
    evolves b b' ->
    evolves b (fst (Board.place_ship sz x y horizontal b'))
| evolves_bomb (x y : Z) (b' : Board.t) :
    evolves b b' -> evolves b (fst (Board.drop_bomb x y b')).

(** No call in the trace raised an interrupt. *)
Definition quiet (tr : list Event) : Prop :=
  Forall (fun ev => forall e, ev_raised ev = Some e -> is_interrupt e = false)
         tr.

(** A run ends with a score after a quiet trace, or with the interrupt that
    the last call of its trace raised. *)
Definition only_interrupts_escape (run : Run) : Prop :=
  match run_result run with
  | Some (Ok _) => quiet (run_trace run)
  | Some (Raise e) =>
      is_interrupt e = true /\
      exists ev tr, run_trace run = ev :: tr /\
                    ev_raised ev = Some e /\ quiet tr
  | None => False
  end.

(** The store after a statement raised [e]: [e] is an interrupt that a
    method of [c1] or [c2] raised in the last call of the trace, after a
    quiet trace. *)
Definition escaped {St : Type} (c1 c2 : Player.class St) (e : Exn)
           (rs : Round St) : Prop :=
  is_interrupt e = true /\
  (raised_by c1 e \/ raised_by c2 e) /\
  exists ev tr, trace rs = ev :: tr /\ ev_raised ev = Some e /\ quiet tr.

(** No field of the board has been bombed. *)
Definition untouched (b : Board.t) : Prop :=
  forall a, Board.state b a = FieldState.EMPTY \/
            Board.state b a = FieldState.SHIP.

(** Every run of the statement [m] takes a store to one related by [R]. *)
Definition respects {St A : Type} (R : Round St -> Round St -> Prop)
           (m : M St A) : Prop :=
  forall rs rs' r, m rs = (rs', r) -> R rs rs'.

(** Both boards change by placements and shots only. *)
Definition boards_evolve {St : Type} (rs rs' : Round St) : Prop :=
  forall s, evolves (board s rs) (board s rs').

(** The round score in the words of the specification: 2 for a board
    with a floating ship, 0 for a sunk one, and the draw (1, 1) whenever
    that pair does not sum to 2. *)
Definition stated_score (floating1 floating2 : bool) : Z * Z :=
  let pair := (if floating1 then 2 else 0, if floating2 then 2 else 0) in
  if fst pair + snd pair =? 2 then pair else (1, 1).

(** What ties the buffer of side [s] to the trace in a round with
    [feedback_delay] [k]: after n resolved shots the buffer holds entries
    n, n + 1, ... of the [k] empty slots followed by the shots, and the
    feedback given so far came with a lag of [k] shots. *)
Definition feedback_invariant {St : Type} (k : nat) (s : Side)
           (rs : Round St) : Prop :=
  let shots := shots_by s (rev (trace rs)) in
  buffer s rs = drop (length shots) (replicate k None ++ (Some <$> shots)) /\
  delivery_schedule s (trace rs) = delayed_schedule k shots.

(** An event that is neither a shot of side [s] nor feedback to it. *)
Definition silent (s : Side) (ev : Event) : Prop :=
  is_shot s ev = None /\ is_delivery s ev = None.

(** ** Further sample players and readings of a trace *)

(** A class whose constructor raises [e]. *)
Definition unbuildable (e : Exn) : Player.class (list (Z * Z)) :=
  Player.mk
    (fun _ _ _ _ _ _ => Raise e)
    (fun st => (st, Ok []))
    (fun st => (st, Ok (0, 0)))
    (fun _ _ _ st => (st, Ok tt))
    (fun _ _ _ st => (st, Ok tt)).

(** A player that cannot be built against one that can. *)
Definition unbuildable_game : NaiveGame.t (list (Z * Z)) :=
  NaiveGame.mk (unbuildable (OtherException 1))
               (stubborn [(2, 0, 0, true)] 0 0)
               12 144 0 0 [2; 3; 3; 4; 5].

(** With [feedback_delay = 2], a first player that places no ship against
    one that does. *)
Definition idle_delayed_game : NaiveGame.t (list (Z * Z)) :=
  NaiveGame.mk (stubborn [] 0 0) (stubborn [(2, 0, 0, true)] 0 0)
               12 144 0 2 [2; 3; 3; 4; 5].

(** A [drop_bomb] call on side [s]. *)
Definition is_drop_bomb (s : Side) (e : Event) : bool :=
  match ev_call e with
  | DropBomb => Side_eqb (ev_side e) s
  | _ => false
  end.

(** How often [drop_bomb] was called on side [s]. *)
Definition drop_bomb_calls (s : Side) (tr : list Event) : nat :=
  length (List.filter (is_drop_bomb s) tr).

(** The side [shuffle] puts first. *)
Definition first_mover (swap : bool) : Side :=
  if swap then P2 else P1.

(** Feedback, to either side, names a field of the default board and a
    result other than [INVALID]. *)
Definition feedback_on_board (x y : Z) (result : ShotResult.t) : Prop :=
  - Board.default_size <= x < Board.default_size /\
  - Board.default_size <= y < Board.default_size /\
  result <> ShotResult.INVALID.

Definition event_on_board (ev : Event) : Prop :=
  match ev_call ev with
  | BombFeedback x y result | BombedFeedback x y result =>
      feedback_on_board x y result
  | _ => True
  end.

(** A constructor or [ship_locations] call. *)
Definition is_preparation (ev : Event) : Prop :=
  ev_call ev = Construct \/ ev_call ev = ShipLocations.

(** The board of side [s] among the two boards of a run. *)
Definition board_of (s : Side) (boards : Board.t * Board.t) : Board.t :=
  match s with P1 => fst boards | P2 => snd boards end.

(** What the turn counter allows in a round of [max_turns] whose shuffle
    came out as [swap]: the sides are asked for bombs in turn, the first
    mover first, at most [2 * max_turns] times in all and so at most
    [max_turns] times each; and a round that returns a score has used all
    of these turns unless the side whose turn it would be has nothing
    afloat. *)
Definition turns_within_budget (max_turns : Z) (swap : bool) (run : Run)
  : Prop :=
  let a := first_mover swap in
  let na := drop_bomb_calls a (run_trace run) in
  let no := drop_bomb_calls (other a) (run_trace run) in
  (no <= na <= no + 1)%nat /\
  (na + no <= Z.to_nat (max_turns * 2))%nat /\
  Z.of_nat na <= Z.max 0 max_turns /\
  Z.of_nat no <= Z.max 0 max_turns /\
  forall boards score,
    run_boards run = Some boards ->
    run_result run = Some (Ok score) ->
    (na + no)%nat = Z.to_nat (max_turns * 2) \/
    Board.still_floating
      (board_of (if (na =? no)%nat then a else other a) boards) = false.

(** What a slot of a feedback buffer may hold. *)
Definition slot_on_board (slot : option Shot) : Prop :=
  match slot with
  | None => True
  | Some (x, y, result) => feedback_on_board x y result
  end.

(** One turn a side without delay: player 1 fires at (-1, 0), where
    player 2 has a ship, and player 2 at (3, 3). *)
Definition plain_game : NaiveGame.t (list (Z * Z)) :=
  NaiveGame.mk (scripted [(2, 0, 5, true)] [(-1, 0)])
               (scripted [(2, 10, 0, true)] [(3, 3)])
               12 1 0 0 [2; 3; 3; 4; 5].

(** The coordinates of a resolved shot. *)
Definition coordinates (shot : Shot) : Z * Z :=
  let '(x, y, _) := shot in (x, y).

(** Bombing [b] at [shots] in order, keeping what the board answers to
    the shots it resolves. *)
Fixpoint replay (shots : list (Z * Z)) (b : Board.t) : list Shot :=
  match shots with
  | [] => []
  | (x, y) :: rest =>
      match Board.drop_bomb x y b with
      | (b', Ok result) => (x, y, result) :: replay rest b'
      | (b', Raise _) => replay rest b'
      end
  end.

(** The board [b] of a side and the resolved shots [shots] of its
    opponent are what a default board with the ships [ships] requested
    and then bombed at these shots gives. *)
Definition replayed (ships : list Ship) (shots : list Shot) (b : Board.t)
  : Prop :=
  let set_up := place_all ships Board.init_default in
  b = bomb_all (coordinates <$> shots) set_up /\
  shots = replay (coordinates <$> shots) set_up.

(** ** Sample players of the repository *)

(** [l.pop()]: the last element and the list without it; [None] is
    [IndexError]. *)
Definition py_pop {A : Type} (l : list A) : option (A * list A) :=
  match rev l with
  | [] => None
  | a :: rest => Some (a, rev rest)
  end.

(** [sorted(l, reverse=True)] on integers. *)
Definition sorted_reverse (l : list Z) : list Z := merge_sort Z.ge l.

Module StrategicPlayer.
(** The attributes of an instance. *)
Record t : Type := mk {
  size : Z;
  max_turns : Z;
  max_fn_time : Z;
  feedback_delay : Z;
  ships : list Z;
  scanning_index : Z;
  forced_drops : list (Z * Z)
}.

(** [__init__]. *)
Definition init (size max_turns max_fn_time feedback_delay : Z)
           (ships : list Z) : t :=
  mk size max_turns max_fn_time feedback_delay ships 0 [].

Definition set_scanning_index (self : t) (v : Z) : t :=
  mk (size self) (max_turns self) (max_fn_time self) (feedback_delay self)
     (ships self) v (forced_drops self).

Definition set_forced_drops (self : t) (v : list (Z * Z)) : t :=
  mk (size self) (max_turns self) (max_fn_time self) (feedback_delay self)
     (ships self) (scanning_index self) v.

(** [ship_locations]: [x] is the position in the enumeration. *)
Definition ship_locations (self : t) : list Ship :=
  imap (fun (x : nat) (ship_size : Z) =>
          let adjusted_x := size self - 1 - 2 * Z.of_nat x in
          let y := size self - 1 - ship_size in
          (ship_size, adjusted_x * 2, y, false))
       (sorted_reverse (ships self)).

(** [drop_bomb]: the instance it leaves and the coordinates. *)
Definition drop_bomb (self : t) : t * (Z * Z) :=
  match py_pop (forced_drops self) with
  | Some (xy, rest) => (set_forced_drops self rest, xy)
  | None =>
      let coordinates := (scanning_index self / 3, scanning_index self mod 3) in
      (set_scanning_index self (scanning_index self + 1), coordinates)
  end.

(** [range(-2, 3)]. *)
Definition offsets : list Z := [-2; -1; 0; 1; 2].

(** What the two loops of [bomb_feedback] append. *)
Definition neighbours (x y : Z) : list (Z * Z) :=
  x_offset ← offsets;
  y_offset ← offsets;
  if (x_offset =? y_offset) && (y_offset =? 0) then []
  else [(x + x_offset, y + y_offset)].

(** [bomb_feedback]. *)
Definition bomb_feedback (x y : Z) (result : ShotResult.t) (self : t) : t :=
  match result, forced_drops self with
  | ShotResult.HIT, [] =>
      set_forced_drops self (forced_drops self ++ neighbours x y)
  | _, _ => self
  end.

(** [bombed_feedback]. *)
Definition bombed_feedback (x y : Z) (result : ShotResult.t) (self : t) : t :=
  self.

Definition class : Player.class t :=
  Player.mk
    (fun size max_turns max_fn_time feedback_delay ships _ =>
       Ok (init size max_turns max_fn_time feedback_delay ships))
    (fun self => (self, Ok (ship_locations self)))
    (fun self => let '(self', xy) := drop_bomb self in (self', Ok xy))
    (fun x y result self => (bomb_feedback x y result self, Ok tt))
    (fun x y result self => (bombed_feedback x y result self, Ok tt)).
End StrategicPlayer.

Module MirrorPlayer.
(** The attributes of an instance: those of a [StrategicPlayer] and
    [last_enemy_move]. *)
Record t : Type := mk {
  base : StrategicPlayer.t;
  last_enemy_move : option (Z * Z)
}.

(** [__init__]. *)
Definition init (size max_turns max_fn_time feedback_delay : Z)
           (ships : list Z) : t :=
  mk (StrategicPlayer.init size max_turns max_fn_time feedback_delay ships)
     None.

(** [ship_locations], inherited. *)
Definition ship_locations (self : t) : list Ship :=
  StrategicPlayer.ship_locations (base self).

(** [drop_bomb]. *)
Definition drop_bomb (self : t) : t * (Z * Z) :=
  match last_enemy_move self with
  | None => (self, (0, 0))
  | Some move => (self, move)
  end.

(** [bomb_feedback], inherited. *)
Definition bomb_feedback (x y : Z) (result : ShotResult.t) (self : t) : t :=
  mk (StrategicPlayer.bomb_feedback x y result (base self))
     (last_enemy_move self).

(** [bombed_feedback]. *)
Definition bombed_feedback (x y : Z) (result : ShotResult.t) (self : t) : t :=
  mk (base self) (Some (x, y)).

Definition class : Player.class t :=
  Player.mk
    (fun size max_turns max_fn_time feedback_delay ships _ =>
       Ok (init size max_turns max_fn_time feedback_delay ships))
    (fun self => (self, Ok (ship_locations self)))
    (fun self => let '(self', xy) := drop_bomb self in (self', Ok xy))
    (fun x y result self => (bomb_feedback x y result self, Ok tt))
    (fun x y result self => (bombed_feedback x y result self, Ok tt)).
End MirrorPlayer.

(** A player's side of successive turns: it is asked for a bomb and then
    given the feedback of the list, turn by turn. The result is the
    instance state it ends with and what [drop_bomb] returned on each
    turn. *)
Fixpoint take_turns {St : Type} (c : Player.class St) (feedback : list Shot)
         (st : St) : St * list (Res (Z * Z)) :=
  match feedback with
  | [] => (st, [])
  | (x, y, result) :: rest =>
      let '(st, shot) := Player.drop_bomb c st in
      let '(st, _) := Player.bomb_feedback c x y result st in
      let '(st, shots) := take_turns c rest st in
      (st, shot :: shots)
  end.

(** Two [StrategicPlayer]s with the default configuration. *)
Definition strategic_game : NaiveGame.t StrategicPlayer.t :=
  NaiveGame.mk StrategicPlayer.class StrategicPlayer.class
               12 144 0 0 [2; 3; 3; 4; 5].

(** Two [MirrorPlayer]s with the default configuration. *)
Definition mirror_game : NaiveGame.t MirrorPlayer.t :=
  NaiveGame.mk MirrorPlayer.class MirrorPlayer.class
               12 144 0 0 [2; 3; 3; 4; 5].

(** A class whose [ship_locations] always throws something other than an
    interrupt. *)
Definition ship_locations_always_throws {St : Type} (c : Player.class St)
  : Prop :=
  forall st, exists err,
    snd (Player.ship_locations c st) = Raise err /\ is_interrupt err = false.

(** A player whose [ship_locations] always throws, and that fires at
    ([x], [y]) forever. *)
Definition adrift (x y : Z) : Player.class (list (Z * Z)) :=
  Player.mk
    (fun _ _ _ _ _ _ => Ok [])
    (fun st => (st, Raise (OtherException 2)))
    (fun st => (st, Ok (x, y)))
    (fun _ _ _ st => (st, Ok tt))
    (fun _ _ _ st => (st, Ok tt)).

(** Two turns a side, against a player without ships that would fire at
    (0, 0), where its opponent has a ship. *)
Definition adrift_game : NaiveGame.t (list (Z * Z)) :=
  NaiveGame.mk (scripted [(2, 0, 0, true)] [(5, 5); (6, 6)]) (adrift 0 0)
               12 2 0 0 [2; 3; 3; 4; 5].

(** The points of side [s] in a score. *)
Definition points (s : Side) (score : Z * Z) : Z :=
  match s with P1 => fst score | P2 => snd score end.

(** ** The random players *)

(** [range(n)]. *)
Definition py_range (n : Z) : list Z := Z.of_nat <$> seq 0 (Z.to_nat n).

Module RandomPlayer.
(** The attributes of an instance, and what it will see of the
    interpreter's random state: [randint_results k a b] is what its call
    number [k] of [randint], made with the arguments [(a, b)], returns. *)
Record t : Type := mk {
  size : Z;
  max_turns : Z;
  max_fn_time : Z;
  feedback_delay : Z;
  ships : list Z;
  randint_results : nat -> Z -> Z -> Z;
  randint_calls : nat
}.

(** [__init__], inherited from [Player]. *)
Definition init (size max_turns max_fn_time feedback_delay : Z)
           (ships : list Z) (results : nat -> Z -> Z -> Z) : t :=
  mk size max_turns max_fn_time feedback_delay ships results 0.

(** [randint(a, b)]: an empty range is a [ValueError]. *)
Definition randint (a b : Z) (self : t) : t * Res Z :=
  if b <? a then (self, Raise ValueError)
  else (mk (size self) (max_turns self) (max_fn_time self)
           (feedback_delay self) (ships self) (randint_results self)
           (S (randint_calls self)),
        Ok (randint_results self (randint_calls self) a b)).

(** [_rxy]. *)
Definition _rxy (self : t) : t * Res (Z * Z) :=
  let '(self, rx) := randint 0 (size self - 1) self in
  match rx with
  | Raise e => (self, Raise e)
  | Ok x =>
      let '(self, ry) := randint 0 (size self - 1) self in
      match ry with
      | Raise e => (self, Raise e)
      | Ok y => (self, Ok (x, y))
      end
  end.

(** The comprehension of [ship_locations] over the rest of [self.ships]. *)
Fixpoint ship_locations_for (ships : list Z) (self : t)
  : t * Res (list Ship) :=
  match ships with
  | [] => (self, Ok [])
  | ship_size :: rest =>
      let '(self, rxy) := _rxy self in
      match rxy with
      | Raise e => (self, Raise e)
      | Ok (x, y) =>
          let '(self, rh) := randint 0 1 self in
          match rh with
          | Raise e => (self, Raise e)
          | Ok h =>
              let '(self, locations) := ship_locations_for rest self in
              match locations with
              | Raise e => (self, Raise e)
              | Ok locations =>
                  (self, Ok ((ship_size, x, y, negb (h =? 0)) :: locations))
              end
          end
      end
  end.

(** [ship_locations]. *)
Definition ship_locations (self : t) : t * Res (list Ship) :=
  ship_locations_for (ships self) self.

(** [drop_bomb]. *)
Definition drop_bomb (self : t) : t * Res (Z * Z) := _rxy self.

(** The class, given what the instance built with each seed will draw. *)
Definition class (randint_of : nat -> nat -> Z -> Z -> Z) : Player.class t :=
  Player.mk
    (fun size max_turns max_fn_time feedback_delay ships seed =>
       Ok (init size max_turns max_fn_time feedback_delay ships
                (randint_of seed)))
    ship_locations
    drop_bomb
    (fun _ _ _ self => (self, Ok tt))
    (fun _ _ _ self => (self, Ok tt)).
End RandomPlayer.

Module BetterRandomPlayer.
(** The attributes of an instance: those of a [RandomPlayer] and
    [bomb_sequence]. *)
Record t : Type := mk {
  base : RandomPlayer.t;
  bomb_sequence : list (Z * Z)
}.

(** [list(itertools.product(range(size), range(size)))]. *)
Definition product_range (size : Z) : list (Z * Z) :=
  x ← py_range size; y ← py_range size; [(x, y)].

(** [__init__]: [shuffle] is what [random.shuffle] makes of the list. *)
Definition init (size max_turns max_fn_time feedback_delay : Z)
           (ships : list Z) (results : nat -> Z -> Z -> Z)
           (shuffle : list (Z * Z) -> list (Z * Z)) : t :=
  mk (RandomPlayer.init size max_turns max_fn_time feedback_delay ships
                        results)
     (shuffle (product_range size)).

(** [ship_locations], inherited. *)
Definition ship_locations (self : t) : t * Res (list Ship) :=
  let '(b, r) := RandomPlayer.ship_locations (base self) in
  (mk b (bomb_sequence self), r).

(** [drop_bomb]. *)
Definition drop_bomb (self : t) : t * Res (Z * Z) :=
  match py_pop (bomb_sequence self) with
  | Some (xy, rest) => (mk (base self) rest, Ok xy)
  | None =>
      let '(b, r) := RandomPlayer._rxy (base self) in
      (mk b (bomb_sequence self), r)
  end.

(** The class, given what the instance built with each seed will draw and
    how its constructor's shuffle comes out. *)
Definition class (randint_of : nat -> nat -> Z -> Z -> Z)
           (shuffle_of : nat -> list (Z * Z) -> list (Z * Z))
  : Player.class t :=
  Player.mk
    (fun size max_turns max_fn_time feedback_delay ships seed =>
       Ok (init size max_turns max_fn_time feedback_delay ships
                (randint_of seed) (shuffle_of seed)))
    ship_locations
    drop_bomb
    (fun _ _ _ self => (self, Ok tt))
    (fun _ _ _ self => (self, Ok tt)).
End BetterRandomPlayer.

(** [randint] keeps to its range. *)
Definition within_range (results : nat -> Z -> Z -> Z) : Prop :=
  forall k a b, a <= b -> a <= results k a b <= b.

(** Draws that always come out as the lower bound. *)
Definition lowest : nat -> Z -> Z -> Z := fun _ a _ => a.

(** Both boards come from default boards, and the trace and the buffers
    only name fields of these. *)
Definition on_board {St : Type} (rs : Round St) : Prop :=
  (forall s, evolves Board.init_default (board s rs)) /\
  Forall event_on_board (trace rs) /\
  (forall s, Forall slot_on_board (buffer s rs)).

(** The board accepts every request of [ships], tried in order from
    [b]. *)
Fixpoint accepted_in_turn (ships : list Ship) (b : Board.t) : Prop :=
  match ships with
  | [] => True
  | ship :: rest =>
      let '(sz, x, y, horizontal) := ship in
      snd (Board.place_ship sz x y horizontal b) = Ok tt /\
      accepted_in_turn rest (fst (Board.place_ship sz x y horizontal b))
  end.

(** [p is None] after "Check for successful init", for a constructor that
    did not raise an interrupt. *)
Definition failed {A : Type} (r : Res A) : bool :=
  match r with
  | Ok _ => false
  | Raise _ => true
  end.

(** The round computes the score it returns from the two boards it ends
    with, as the specification states it. *)
Definition scored_from_boards (run : Run) : Prop :=
  forall score,
    run_result run = Some (Ok score) ->
    exists b1 b2,
      run_boards run = Some (b1, b2) /\
      score = stated_score (Board.still_floating b1)
                           (Board.still_floating b2).

(** The claim that every completed lenient round is scored so. *)
Definition every_lenient_round_scored_from_boards : Prop :=
  forall (St : Type) (TimedPlayer : Player.class St -> Player.class St)
         (self : NaiveGame.t St) (ch : Chance),
    scored_from_boards (Game._play_round TimedPlayer self ch).

(** * Properties of the field and the board *)

Example board_place_then_bomb :
  let b := fst (Board.place_ship 3 1 2 true (Board.init 5 [3])) in
  Board._ships b = [[11%nat; 12%nat; 13%nat]] /\
  snd (Board.drop_bomb 2 2 b) = Ok ShotResult.HIT /\
  snd (Board.drop_bomb 0 0 b) = Ok ShotResult.MISS /\
  snd (Board.drop_bomb 5 0 b) = Raise ValueError.
Proof. vm_compute. auto. Qed.

Lemma drop_bombs_missed (n : nat) :
  Field.drop_bombs n FieldState.MISSED
  = (FieldState.MISSED, replicate n ShotResult.PREVIOUS_MISS).
Proof. induction n as [|n IH]; simpl; [|rewrite IH]; reflexivity. Qed.

Lemma drop_bombs_hit (n : nat) :
  Field.drop_bombs n FieldState.HIT
  = (FieldState.HIT, replicate n ShotResult.PREVIOUS_HIT).
Proof. induction n as [|n IH]; simpl; [|rewrite IH]; reflexivity. Qed.

(** C7: [Field.drop_bomb] is a total function of the current state with
    exactly the four transitions EMPTY->MISSED/MISS, SHIP->HIT/HIT,
    HIT->HIT/PREVIOUS_HIT, MISSED->MISSED/PREVIOUS_MISS; any run of calls on
    an EMPTY field yields MISS once and PREVIOUS_MISS from then on, and on a
    SHIP field HIT once and PREVIOUS_HIT from then on. *)
Theorem field_drop_bomb_transitions :
  (forall s, exists s' r, Field.drop_bomb s = (s', r)) /\
  Field.drop_bomb FieldState.EMPTY = (FieldState.MISSED, ShotResult.MISS) /\
  Field.drop_bomb FieldState.SHIP = (FieldState.HIT, ShotResult.HIT) /\
  Field.drop_bomb FieldState.HIT = (FieldState.HIT, ShotResult.PREVIOUS_HIT) /\
  Field.drop_bomb FieldState.MISSED
  = (FieldState.MISSED, ShotResult.PREVIOUS_MISS) /\
  (forall n, Field.drop_bombs (S n) FieldState.EMPTY
             = (FieldState.MISSED,
                ShotResult.MISS :: replicate n ShotResult.PREVIOUS_MISS)) /\
  (forall n, Field.drop_bombs (S n) FieldState.SHIP
             = (FieldState.HIT,
                ShotResult.HIT :: replicate n ShotResult.PREVIOUS_HIT)).
Proof.
  repeat split; try reflexivity.
  - intros s. destruct s; eexists _, _; reflexivity.
  - intros n. simpl. rewrite drop_bombs_missed. reflexivity.
  - intros n. simpl. rewrite drop_bombs_hit. reflexivity.
Qed.

(** C10: [ShotResult.INVALID] is never produced: [Field.drop_bomb] returns
    one of MISS, HIT, PREVIOUS_MISS, PREVIOUS_HIT in every state, so
    [Board.drop_bomb] never returns INVALID. *)
Theorem invalid_never_produced :
  (forall s, snd (Field.drop_bomb s) <> ShotResult.INVALID) /\
  (forall s, In (snd (Field.drop_bomb s))
                [ShotResult.MISS; ShotResult.HIT;
                 ShotResult.PREVIOUS_MISS; ShotResult.PREVIOUS_HIT]) /\
  (forall b x y, snd (Board.drop_bomb x y b) <> Ok ShotResult.INVALID).
Proof.
  split; [|split].
  - intros s. destruct s; discriminate.
  - intros s. destruct s; simpl; auto.
  - intros b x y. unfold Board.drop_bomb.
    destruct (Board.field_at b x y) as [a|]; [|discriminate].
    destruct (Board.state b a); simpl; discriminate.
Qed.

(** A failing [place_ship] changes nothing but the remaining-ships list. *)
Lemma place_ship_failure_keeps_fields (sz x y : Z) (h : bool) (b : Board.t)
      (e : Exn) :
  snd (Board.place_ship sz x y h b) = Raise e ->
  Board.heap (fst (Board.place_ship sz x y h b)) = Board.heap b /\
  Board._ships (fst (Board.place_ship sz x y h b)) = Board._ships b /\
  Board._board (fst (Board.place_ship sz x y h b)) = Board._board b.
Proof.
  unfold Board.place_ship.
  destruct (py_remove sz (Board._remaining_ships b)) as [rem|]; [|auto].
  destruct (Board.ship_fields _ sz x y h) as [fields|]; [|auto].
  destruct (negb _); [auto|].
  destruct (forallb _ fields); [discriminate|auto].
Qed.

(** C2: [place_ship] is not atomic in the code. On [Board(size=5,
    ships=[3])] the call [place_ship(3, 3, 0, True)] fails for lack of space
    and leaves every field as it was, but it has already removed size 3
    from the remaining ships, so the next [place_ship(3, 0, 0, True)] fails
    too. *)
Theorem failed_placement_consumes_ship :
  let b0 := Board.init 5 [3] in
  let b1 := fst (Board.place_ship 3 3 0 true b0) in
  snd (Board.place_ship 3 3 0 true b0) = Raise ValueError /\
  Board.heap b1 = Board.heap b0 /\
  Board._ships b1 = [] /\
  Board._remaining_ships b1 = [] /\
  snd (Board.place_ship 3 0 0 true b1) = Raise ValueError /\
  snd (Board.place_ship 3 0 0 true b0) = Ok tt.
Proof. vm_compute. repeat split. Qed.

(** C3: [Board.drop_bomb] does not reject every coordinate outside
    [0, N): on a fresh default board the shot (-1, 0) raises nothing, it is
    resolved on the field of column 11, row 0, which becomes MISSED; and in
    a lenient round the shot (-1, 0) is not skipped, it hits the ship on
    (11, 0) and both players get their feedback. *)
Theorem negative_shot_is_resolved :
  let b := Board.init_default in
  let run := Game._play_round untimed wrapping_game (mkChance false 0 0) in
  snd (Board.drop_bomb (-1) 0 b) = Ok ShotResult.MISS /\
  Board.field_at b (-1) 0 = Some 11%nat /\
  Board.getitem b 11 0 = Some FieldState.EMPTY /\
  Board.getitem (fst (Board.drop_bomb (-1) 0 b)) 11 0
  = Some FieldState.MISSED /\
  snd (Board.drop_bomb 12 0 b) = Raise ValueError /\
  snd (Board.drop_bomb (-13) 0 b) = Raise ValueError /\
  shots_by P1 (rev (run_trace run)) = [(-1, 0, ShotResult.HIT)] /\
  delivery_schedule P1 (run_trace run)
  = [(1%nat, (-1, 0, ShotResult.HIT))] /\
  (fun bb : Board.t * Board.t => Board.getitem (snd bb) 11 0)
    <$> run_boards run = Some (Some FieldState.HIT).
Proof. vm_compute. repeat split. Qed.

Lemma FieldState_eqb_eq (a b : FieldState.t) :
  FieldState.eqb a b = true <-> a = b.
Proof. destruct a, b; simpl; split; congruence. Qed.

Lemma transitions_never_ship (s : FieldState.t) :
  fst (Field._transitions s) <> FieldState.SHIP.
Proof. destruct s; discriminate. Qed.

Lemma drop_bomb_keeps_layout (x y : Z) (b : Board.t) :
  Board._board (fst (Board.drop_bomb x y b)) = Board._board b /\
  Board._ships (fst (Board.drop_bomb x y b)) = Board._ships b /\
  Board._remaining_ships (fst (Board.drop_bomb x y b))
  = Board._remaining_ships b /\
  Board.size (fst (Board.drop_bomb x y b)) = Board.size b /\
  length (Board.heap (fst (Board.drop_bomb x y b))) = length (Board.heap b).
Proof.
  unfold Board.drop_bomb.
  destruct (Board.field_at b x y) as [f|]; [|auto].
  destruct (Field.drop_bomb _) as [s' r]. simpl.
  rewrite length_insert. auto.
Qed.

(** A field is in state SHIP after a shot exactly if it was before and the
    shot landed elsewhere. *)
Lemma ship_after_drop_bomb (x y : Z) (b : Board.t) (a : nat) :
  Board.state (fst (Board.drop_bomb x y b)) a = FieldState.SHIP <->
  Board.state b a = FieldState.SHIP /\ Board.field_at b x y <> Some a.
Proof.
  unfold Board.drop_bomb.
  destruct (Board.field_at b x y) as [f|] eqn:Hf; [|simpl; split; [auto|tauto]].
  unfold Field.drop_bomb.
  destruct (Field._transitions (Board.state b f)) as [s' r] eqn:Ht.
  unfold Board.state in *. simpl.
  destruct (decide (f = a)) as [->|Hne].
  - split; [|intros [_ H]; congruence].
    intros H. exfalso.
    destruct (decide (a < length (Board.heap b))%nat) as [Hlt|Hge].
    + rewrite list_lookup_insert_eq in H by exact Hlt. simpl in H.
      apply (transitions_never_ship (default FieldState.EMPTY
                                             (Board.heap b !! a))).
      rewrite Ht. exact H.
    + rewrite list_insert_ge in H by lia.
      rewrite lookup_ge_None_2 in H by lia. discriminate.
  - rewrite list_lookup_insert_ne by exact Hne.
    split; [intros H; split; [exact H|congruence]|tauto].
Qed.

Lemma targets_drop_bomb (x y : Z) (b : Board.t) (shots : list (Z * Z)) :
  targets (fst (Board.drop_bomb x y b)) shots = targets b shots.
Proof.
  unfold targets, Board.field_at.
  destruct (drop_bomb_keeps_layout x y b) as [-> _]. reflexivity.
Qed.

Lemma ship_after_bomb_all (shots : list (Z * Z)) (b : Board.t) (a : nat) :
  Board.state (bomb_all shots b) a = FieldState.SHIP <->
  Board.state b a = FieldState.SHIP /\ ~ In a (targets b shots).
Proof.
  revert b. induction shots as [|[x y] shots IH]; intros b.
  - simpl. tauto.
  - change (bomb_all ((x, y) :: shots) b)
      with (bomb_all shots (fst (Board.drop_bomb x y b))).
    rewrite IH, ship_after_drop_bomb, targets_drop_bomb.
    unfold targets at 2. simpl.
    fold (targets b shots).
    destruct (Board.field_at b x y) as [f|]; simpl.
    + intuition congruence.
    + intuition congruence.
Qed.

Lemma bomb_all_keeps_ships (shots : list (Z * Z)) (b : Board.t) :
  Board._ships (bomb_all shots b) = Board._ships b.
Proof.
  revert b. induction shots as [|[x y] shots IH]; intros b; [reflexivity|].
  change (bomb_all ((x, y) :: shots) b)
    with (bomb_all shots (fst (Board.drop_bomb x y b))).
  rewrite IH. apply drop_bomb_keeps_layout.
Qed.

Lemma still_floating_spec (b : Board.t) :
  Board.still_floating b = true <->
  exists ship part, In ship (Board._ships b) /\ In part ship /\
                    Board.state b part = FieldState.SHIP.
Proof.
  unfold Board.still_floating. rewrite existsb_exists. split.
  - intros (ship & Hin & Hex). apply existsb_exists in Hex.
    destruct Hex as (part & Hp & Heq). apply FieldState_eqb_eq in Heq.
    eauto.
  - intros (ship & part & Hin & Hp & Heq). exists ship. split; [exact Hin|].
    apply existsb_exists. exists part. split; [exact Hp|].
    apply FieldState_eqb_eq. exact Heq.
Qed.

(** C8: [still_floating] is true iff some field of some placed ship is in
    state SHIP; under any further shots it stays true exactly as long as
    some ship field that was intact has not been landed on, so it turns
    false once every such field has been hit; once false it stays false
    under [drop_bomb], since no field goes back to SHIP. *)
Theorem still_floating_until_all_hit :
  (forall b,
      Board.still_floating b = true <->
      exists ship part, In ship (Board._ships b) /\ In part ship /\
                        Board.state b part = FieldState.SHIP) /\
  (forall b shots,
      Board.still_floating (bomb_all shots b) = true <->
      exists ship part, In ship (Board._ships b) /\ In part ship /\
                        Board.state b part = FieldState.SHIP /\
                        ~ In part (targets b shots)) /\
  (forall b shots,
      Board.still_floating b = false ->
      Board.still_floating (bomb_all shots b) = false) /\
  (forall b x y a,
      Board.state (fst (Board.drop_bomb x y b)) a = FieldState.SHIP ->
      Board.state b a = FieldState.SHIP).
Proof.
  assert (Hsecond : forall b shots,
      Board.still_floating (bomb_all shots b) = true <->
      exists ship part, In ship (Board._ships b) /\ In part ship /\
                        Board.state b part = FieldState.SHIP /\
                        ~ In part (targets b shots)).
  { intros b shots. rewrite still_floating_spec, bomb_all_keeps_ships.
    split; intros (ship & part & Hin & Hp & H).
    - apply ship_after_bomb_all in H. exists ship, part. tauto.
    - exists ship, part. rewrite ship_after_bomb_all. tauto. }
  split; [exact still_floating_spec|]. split; [exact Hsecond|]. split.
  - intros b shots Hsunk.
    destruct (Board.still_floating (bomb_all shots b)) eqn:H; [|reflexivity].
    apply Hsecond in H. destruct H as (ship & part & Hin & Hp & Hs & _).
    assert (Board.still_floating b = true) as Hf
        by (apply still_floating_spec; eauto).
    congruence.
  - intros b x y a H. apply ship_after_drop_bomb in H. tauto.
Qed.

(** ** Indexing and slicing the grid *)

Lemma wrap_nonneg (n i : Z) : 0 <= i < n -> wrap n i = Z.to_nat i.
Proof. intros H. unfold wrap. rewrite Z.mod_small by lia. reflexivity. Qed.

Lemma wrap_neg (n i : Z) : - n <= i < 0 -> wrap n i = Z.to_nat (i + n).
Proof.
  intros H. unfold wrap. f_equal. symmetry.
  apply Z.mod_unique with (q := -1); lia.
Qed.

Lemma wrap_lt (n i : Z) : 0 < n -> (wrap n i < Z.to_nat n)%nat.
Proof.
  intros H. unfold wrap. pose proof (Z.mod_pos_bound i n H). lia.
Qed.

Lemma py_index_in_range {A : Type} (l : list A) (i : Z) :
  - Z.of_nat (length l) <= i < Z.of_nat (length l) ->
  py_index l i = l !! wrap (Z.of_nat (length l)) i.
Proof.
  intros H. unfold py_index.
  destruct (Z.ltb_spec i 0) as [Hneg|Hpos].
  - destruct (Z.ltb_spec (i + Z.of_nat (length l)) 0); [lia|].
    rewrite wrap_neg by lia. reflexivity.
  - rewrite wrap_nonneg by lia. reflexivity.
Qed.

Lemma py_index_out_of_range {A : Type} (l : list A) (i : Z) :
  ~ (- Z.of_nat (length l) <= i < Z.of_nat (length l)) ->
  py_index l i = None.
Proof.
  intros H. unfold py_index.
  destruct (Z.ltb_spec i 0) as [Hneg|Hpos].
  - destruct (Z.ltb_spec (i + Z.of_nat (length l)) 0); [reflexivity|lia].
  - apply lookup_ge_None_2. lia.
Qed.

Lemma py_slice_in_range {A : Type} (l : list A) (start sz : Z) :
  0 <= sz ->
  (- Z.of_nat (length l) <= start /\ start + sz < 0) \/
  (0 <= start /\ start + sz <= Z.of_nat (length l)) ->
  py_slice l start (start + sz)
  = take (Z.to_nat sz) (drop (wrap (Z.of_nat (length l)) start) l).
Proof.
  intros Hsz H. unfold py_slice, slice_bound.
  destruct H as [[Hlo Hhi]|[Hlo Hhi]].
  - destruct (Z.ltb_spec start 0); [|lia].
    destruct (Z.ltb_spec (start + sz) 0); [|lia].
    rewrite wrap_neg by lia. f_equal; [|f_equal]; lia.
  - destruct (Z.ltb_spec start 0); [lia|].
    destruct (Z.ltb_spec (start + sz) 0); [lia|].
    destruct (decide (start < Z.of_nat (length l))) as [Hlt|Hge].
    + rewrite wrap_nonneg by lia. f_equal; [|f_equal]; lia.
    + replace (Z.to_nat sz) with 0%nat by lia.
      match goal with |- take ?k _ = _ => replace k with 0%nat by lia end.
      reflexivity.
Qed.

Lemma wrap_span_le (n start sz : Z) :
  0 <= sz ->
  (- n <= start /\ start + sz < 0) \/ (0 <= start /\ start + sz <= n) ->
  (wrap n start + Z.to_nat sz <= Z.to_nat n)%nat.
Proof.
  intros Hsz [[Hlo Hhi]|[Hlo Hhi]].
  - rewrite wrap_neg by lia. lia.
  - destruct (decide (start < n)) as [Hlt|Hge].
    + rewrite wrap_nonneg by lia. lia.
    + assert (start = n) as -> by lia. unfold wrap.
      rewrite Z_mod_same_full. lia.
Qed.

(** A span that starts at a negative index and reaches index 0 selects
    fewer than [sz] elements. *)
Lemma py_slice_straddle {A : Type} (l : list A) (start sz : Z) :
  0 < sz -> - Z.of_nat (length l) <= start < 0 -> 0 <= start + sz ->
  Z.of_nat (length (py_slice l start (start + sz))) < sz.
Proof.
  intros Hsz Hlo Hhi. unfold py_slice, slice_bound.
  destruct (Z.ltb_spec start 0); [|lia].
  destruct (Z.ltb_spec (start + sz) 0); [lia|].
  rewrite length_take, length_drop. lia.
Qed.

Lemma length_fresh_row (n r : nat) : length (Board.fresh_row n r) = n.
Proof. unfold Board.fresh_row. rewrite length_fmap, length_seq. reflexivity. Qed.

Lemma length_fresh_grid (n : nat) : length (Board.fresh_grid n) = n.
Proof. unfold Board.fresh_grid. rewrite length_fmap, length_seq. reflexivity. Qed.

Lemma lookup_fresh_row (n r c : nat) :
  (c < n)%nat -> Board.fresh_row n r !! c = Some (cell n r c).
Proof.
  intros H. unfold Board.fresh_row.
  rewrite list_lookup_fmap, lookup_seq_lt by exact H. reflexivity.
Qed.

Lemma lookup_fresh_grid (n r : nat) :
  (r < n)%nat -> Board.fresh_grid n !! r = Some (Board.fresh_row n r).
Proof.
  intros H. unfold Board.fresh_grid.
  rewrite list_lookup_fmap, lookup_seq_lt by exact H. reflexivity.
Qed.

Lemma span_of_fresh_row (n r j k : nat) :
  (j + k <= n)%nat ->
  take k (drop j (Board.fresh_row n r)) = cell n r <$> seq j k.
Proof.
  intros H. unfold Board.fresh_row.
  rewrite <- fmap_drop, <- fmap_take, drop_seq, take_seq.
  replace (k `min` (n - j))%nat with k by lia. reflexivity.
Qed.

Lemma span_of_fresh_grid (n j k : nat) :
  (j + k <= n)%nat ->
  take k (drop j (Board.fresh_grid n)) = Board.fresh_row n <$> seq j k.
Proof.
  intros H. unfold Board.fresh_grid.
  rewrite <- fmap_drop, <- fmap_take, drop_seq, take_seq.
  replace (k `min` (n - j))%nat with k by lia. reflexivity.
Qed.

Lemma comprehension_total {A B C : Type} (f : B -> option C) (h : A -> B)
      (g : A -> C) (l : list A) :
  (forall a, In a l -> f (h a) = Some (g a)) ->
  comprehension f (h <$> l) = Some (g <$> l).
Proof.
  induction l as [|a l IH]; intros H; [reflexivity|].
  rewrite !fmap_cons. cbn [comprehension].
  rewrite (H a) by (left; reflexivity).
  rewrite IH by (intros a' Ha'; apply H; right; exact Ha'). reflexivity.
Qed.

Lemma wf_init (size : Z) (ships : list Z) : Board.wf (Board.init size ships).
Proof.
  unfold Board.wf, Board.init. simpl. split; [reflexivity|].
  apply length_replicate.
Qed.

Lemma wf_drop_bomb (x y : Z) (b : Board.t) :
  Board.wf b -> Board.wf (fst (Board.drop_bomb x y b)).
Proof.
  unfold Board.wf. intros [Hg Hh].
  destruct (drop_bomb_keeps_layout x y b) as (-> & _ & _ & -> & ->). auto.
Qed.

Section WellFormedBoard.
Variable b : Board.t.
Hypothesis Hwf : Board.wf b.
Let n : nat := Z.to_nat (Board.size b).
Let N : Z := Z.of_nat n.

Lemma field_at_in_range (x y : Z) :
  - N <= x < N -> - N <= y < N ->
  Board.field_at b x y = Some (cell n (wrap N y) (wrap N x)).
Proof.
  intros Hx Hy. destruct Hwf as [Hg _]. unfold Board.field_at.
  rewrite Hg. fold n.
  rewrite py_index_in_range by (rewrite length_fresh_grid; fold N; lia).
  rewrite length_fresh_grid. fold N.
  assert (wrap N y < n)%nat as Hr
      by (pose proof (wrap_lt N y); unfold N in *; lia).
  rewrite lookup_fresh_grid by exact Hr. simpl.
  rewrite py_index_in_range by (rewrite length_fresh_row; fold N; lia).
  rewrite length_fresh_row. fold N.
  apply lookup_fresh_row.
  pose proof (wrap_lt N x); unfold N in *; lia.
Qed.

Lemma field_at_out_of_range (x y : Z) :
  ~ (- N <= x < N /\ - N <= y < N) -> Board.field_at b x y = None.
Proof.
  intros H. destruct Hwf as [Hg _]. unfold Board.field_at.
  rewrite Hg. fold n.
  destruct (decide (- N <= y < N)) as [Hy|Hy].
  - rewrite py_index_in_range by (rewrite length_fresh_grid; fold N; lia).
    rewrite length_fresh_grid. fold N.
    assert (wrap N y < n)%nat as Hr
        by (pose proof (wrap_lt N y); unfold N in *; lia).
    rewrite lookup_fresh_grid by exact Hr. simpl.
    apply py_index_out_of_range. rewrite length_fresh_row. fold N. lia.
  - rewrite py_index_out_of_range
      by (rewrite length_fresh_grid; fold N; exact Hy).
    reflexivity.
Qed.

(** The fields [place_ship] selects when the span stays on one side of
    index 0. *)
Lemma ship_fields_in_range (sz x y : Z) (horizontal : bool) :
  0 <= sz ->
  (let cross := if horizontal then y else x in - N <= cross < N) ->
  (let along := if horizontal then x else y in
   (- N <= along /\ along + sz < 0) \/ (0 <= along /\ along + sz <= N)) ->
  forall rem,
    Board.ship_fields (Board.set_remaining b rem) sz x y horizontal
    = Some (span_cells n sz x y horizontal).
Proof.
  intros Hsz Hcross Halong rem. destruct Hwf as [Hg _].
  unfold Board.ship_fields, span_cells. simpl. rewrite Hg. fold n N.
  destruct horizontal; simpl in *.
  - rewrite py_index_in_range by (rewrite length_fresh_grid; fold N; lia).
    rewrite length_fresh_grid. fold N.
    assert (wrap N y < n)%nat as Hr
        by (pose proof (wrap_lt N y); unfold N in *; lia).
    rewrite lookup_fresh_grid by exact Hr. simpl. f_equal.
    rewrite py_slice_in_range
      by (rewrite ?length_fresh_row; fold N; lia).
    rewrite length_fresh_row. fold N.
    apply span_of_fresh_row.
    pose proof (wrap_span_le N x sz Hsz Halong). unfold N in *. lia.
  - rewrite py_slice_in_range
      by (rewrite ?length_fresh_grid; fold N; lia).
    rewrite length_fresh_grid. fold N.
    rewrite span_of_fresh_grid
      by (pose proof (wrap_span_le N y sz Hsz Halong); unfold N in *; lia).
    apply comprehension_total. intros r _.
    rewrite py_index_in_range by (rewrite length_fresh_row; fold N; lia).
    rewrite length_fresh_row. fold N.
    apply lookup_fresh_row.
    pose proof (wrap_lt N x); unfold N in *; lia.
Qed.
End WellFormedBoard.

Lemma py_index_Some_In {A : Type} (l : list A) (i : Z) (a : A) :
  py_index l i = Some a -> In a l.
Proof.
  unfold py_index. intros H. apply list_elem_of_In.
  destruct (i <? 0); [destruct (i + Z.of_nat (length l) <? 0);
                      [discriminate|]|];
    eapply list_elem_of_lookup_2; exact H.
Qed.

Lemma comprehension_length {A B : Type} (f : A -> option B) (l : list A)
      (r : list B) :
  comprehension f l = Some r -> length r = length l.
Proof.
  revert r. induction l as [|a l IH]; intros r H; simpl in H.
  - injection H as <-. reflexivity.
  - destruct (f a) as [v|]; [|discriminate].
    destruct (comprehension f l) as [r'|]; [|discriminate].
    injection H as <-. simpl. rewrite (IH r' eq_refl). reflexivity.
Qed.

Lemma place_ship_result (sz x y : Z) (h : bool) (b : Board.t) :
  snd (Board.place_ship sz x y h b) = Ok tt \/
  snd (Board.place_ship sz x y h b) = Raise ValueError.
Proof.
  unfold Board.place_ship.
  destruct (py_remove sz (Board._remaining_ships b)) as [rem|]; [|auto].
  destruct (Board.ship_fields _ sz x y h) as [fields|]; [|auto].
  destruct (negb _); [auto|].
  destruct (forallb _ fields); auto.
Qed.

Lemma place_ship_ok_fields (sz x y : Z) (h : bool) (b : Board.t) :
  snd (Board.place_ship sz x y h b) = Ok tt ->
  exists rem fields,
    py_remove sz (Board._remaining_ships b) = Some rem /\
    Board.ship_fields (Board.set_remaining b rem) sz x y h = Some fields /\
    Z.of_nat (length fields) = sz.
Proof.
  unfold Board.place_ship.
  destruct (py_remove sz (Board._remaining_ships b)) as [rem|];
    [|discriminate].
  destruct (Board.ship_fields _ sz x y h) as [fields|] eqn:Hf;
    [|discriminate].
  destruct (Z.eqb_spec (Z.of_nat (length fields)) sz) as [Hlen|Hlen];
    [|discriminate].
  intros _. exists rem, fields. auto.
Qed.

Lemma lookup_mark_ship_other (fields : list nat) (h : list FieldState.t)
      (a : nat) :
  ~ In a fields -> Board.mark_ship fields h !! a = h !! a.
Proof.
  unfold Board.mark_ship. revert h.
  induction fields as [|f fields IH]; intros h Hnot; [reflexivity|].
  simpl. rewrite IH by (intros Hin; apply Hnot; right; exact Hin).
  apply list_lookup_insert_ne. intros ->. apply Hnot. left. reflexivity.
Qed.

Lemma lookup_mark_ship (fields : list nat) (h : list FieldState.t) (a : nat) :
  In a fields -> (a < length h)%nat ->
  Board.mark_ship fields h !! a = Some FieldState.SHIP.
Proof.
  revert h. induction fields as [|f fields IH]; intros h Hin Hlt;
    [destruct Hin|].
  change (Board.mark_ship (f :: fields) h)
    with (Board.mark_ship fields (<[f := FieldState.SHIP]> h)).
  destruct (in_dec Nat.eq_dec a fields) as [Hin'|Hnot].
  - apply IH; [exact Hin'|]. rewrite length_insert. exact Hlt.
  - destruct Hin as [->|Hin]; [|contradiction].
    rewrite lookup_mark_ship_other by exact Hnot.
    apply list_lookup_insert_eq. exact Hlt.
Qed.

Lemma span_cells_lt (n : nat) (sz x y : Z) (horizontal : bool) (a : nat) :
  0 <= sz ->
  (let cross := if horizontal then y else x in
   - Z.of_nat n <= cross < Z.of_nat n) ->
  (let along := if horizontal then x else y in
   (- Z.of_nat n <= along /\ along + sz < 0) \/
   (0 <= along /\ along + sz <= Z.of_nat n)) ->
  In a (span_cells n sz x y horizontal) -> (a < n * n)%nat.
Proof.
  intros Hsz Hcross Halong Hin. unfold span_cells, cell in Hin.
  destruct horizontal; simpl in *;
    apply list_elem_of_In, list_elem_of_fmap in Hin;
    destruct Hin as (i & -> & Hi); apply elem_of_seq in Hi.
  - pose proof (wrap_span_le (Z.of_nat n) x sz Hsz Halong).
    pose proof (wrap_lt (Z.of_nat n) y). nia.
  - pose proof (wrap_span_le (Z.of_nat n) y sz Hsz Halong).
    pose proof (wrap_lt (Z.of_nat n) x). nia.
Qed.

Section WellFormedPlacement.
Variable b : Board.t.
Hypothesis Hwf : Board.wf b.
Let n : nat := Z.to_nat (Board.size b).
Let N : Z := Z.of_nat n.

Lemma ship_fields_straddle (sz x y : Z) (horizontal : bool) :
  0 < sz ->
  (let along := if horizontal then x else y in
   - N <= along < 0 /\ 0 <= along + sz) ->
  forall rem fields,
    Board.ship_fields (Board.set_remaining b rem) sz x y horizontal
    = Some fields ->
    Z.of_nat (length fields) < sz.
Proof.
  intros Hsz Halong rem fields. destruct (Hwf) as [Hg _].
  unfold Board.ship_fields. simpl. rewrite Hg. fold n.
  destruct horizontal; simpl in Halong.
  - destruct (py_index (Board.fresh_grid n) y) as [row|] eqn:Hrow;
      [|discriminate].
    simpl. intros [= <-].
    apply py_index_Some_In, list_elem_of_In, list_elem_of_fmap in Hrow.
    destruct Hrow as (r & -> & _).
    apply py_slice_straddle; rewrite ?length_fresh_row; fold N; lia.
  - intros Hc. apply comprehension_length in Hc. rewrite Hc.
    apply py_slice_straddle; rewrite ?length_fresh_grid; fold N; lia.
Qed.

Lemma place_ship_straddle (sz x y : Z) (horizontal : bool) :
  0 < sz ->
  (let along := if horizontal then x else y in
   - N <= along < 0 /\ 0 <= along + sz) ->
  snd (Board.place_ship sz x y horizontal b) = Raise ValueError.
Proof.
  intros Hsz Halong.
  destruct (place_ship_result sz x y horizontal b) as [Hok|Hfail];
    [|exact Hfail].
  apply place_ship_ok_fields in Hok.
  destruct Hok as (rem & fields & _ & Hf & Hlen).
  apply (ship_fields_straddle sz x y horizontal Hsz Halong) in Hf. lia.
Qed.

Lemma place_ship_in_range (sz x y : Z) (horizontal : bool) (rem : list Z) :
  0 <= sz ->
  (let cross := if horizontal then y else x in - N <= cross < N) ->
  (let along := if horizontal then x else y in
   (- N <= along /\ along + sz < 0) \/ (0 <= along /\ along + sz <= N)) ->
  py_remove sz (Board._remaining_ships b) = Some rem ->
  (forall a, In a (span_cells n sz x y horizontal) ->
             Board.state b a = FieldState.EMPTY) ->
  Board.place_ship sz x y horizontal b
  = (Board.set_heap
       (Board.add_ship (Board.set_remaining b rem)
                       (span_cells n sz x y horizontal))
       (Board.mark_ship (span_cells n sz x y horizontal) (Board.heap b)),
     Ok tt).
Proof.
  intros Hsz Hcross Halong Hrem Hempty. unfold Board.place_ship.
  rewrite Hrem.
  rewrite (ship_fields_in_range b Hwf sz x y horizontal Hsz Hcross Halong).
  fold n.
  assert (length (span_cells n sz x y horizontal) = Z.to_nat sz) as Hlen
      by (unfold span_cells; destruct horizontal;
          rewrite length_fmap, length_seq; reflexivity).
  rewrite Hlen.
  destruct (Z.eqb_spec (Z.of_nat (Z.to_nat sz)) sz) as [_|Hne]; [|lia].
  simpl negb. cbv iota.
  assert (forallb (fun a => FieldState.eqb
                              (Board.state (Board.set_remaining b rem) a)
                              FieldState.EMPTY)
                  (span_cells n sz x y horizontal) = true) as ->.
  { apply forallb_forall. intros a Ha. apply FieldState_eqb_eq.
    apply (Hempty a Ha). }
  reflexivity.
Qed.
End WellFormedPlacement.

(** C9 (as far as the code goes): on a well-formed board of size N, a shot
    with both coordinates in [-N, N) never raises and lands on the field of
    column x mod N, row y mod N, and any other shot raises; [place_ship]
    accepts a negative start by the same wrapping when the span of the ship
    ends before index 0 (or starts at a non-negative index and fits), and
    rejects a span that starts at a negative index and reaches index 0. *)
Theorem negative_coordinates_wrap (b : Board.t) :
  Board.wf b ->
  let n := Z.to_nat (Board.size b) in
  let N := Z.of_nat n in
  (forall x y, - N <= x < N -> - N <= y < N ->
     let a := cell n (wrap N y) (wrap N x) in
     Board.drop_bomb x y b
     = (Board.set_heap b (<[a := fst (Field.drop_bomb (Board.state b a))]>
                            (Board.heap b)),
        Ok (snd (Field.drop_bomb (Board.state b a))))) /\
  (forall x y, ~ (- N <= x < N /\ - N <= y < N) ->
     Board.drop_bomb x y b = (b, Raise ValueError)) /\
  (forall (sz x y : Z) (horizontal : bool) rem,
     0 <= sz ->
     (let cross := if horizontal then y else x in - N <= cross < N) ->
     (let along := if horizontal then x else y in
      (- N <= along /\ along + sz < 0) \/ (0 <= along /\ along + sz <= N)) ->
     py_remove sz (Board._remaining_ships b) = Some rem ->
     (forall a, In a (span_cells n sz x y horizontal) ->
                Board.state b a = FieldState.EMPTY) ->
     let b' := fst (Board.place_ship sz x y horizontal b) in
     snd (Board.place_ship sz x y horizontal b) = Ok tt /\
     Board._ships b' = Board._ships b ++ [span_cells n sz x y horizontal] /\
     (forall a, In a (span_cells n sz x y horizontal) ->
                Board.state b' a = FieldState.SHIP)) /\
  (forall (sz x y : Z) (horizontal : bool),
     0 < sz ->
     (let along := if horizontal then x else y in
      - N <= along < 0 /\ 0 <= along + sz) ->
     snd (Board.place_ship sz x y horizontal b) = Raise ValueError).
Proof.
  intros Hwf n N. split; [|split; [|split]].
  - intros x y Hx Hy a. unfold Board.drop_bomb.
    rewrite (field_at_in_range b Hwf x y Hx Hy). fold n N a.
    destruct (Field.drop_bomb (Board.state b a)); reflexivity.
  - intros x y Hout. unfold Board.drop_bomb.
    rewrite (field_at_out_of_range b Hwf x y Hout). reflexivity.
  - intros sz x y horizontal rem Hsz Hcross Halong Hrem Hempty b'.
    unfold b'.
    rewrite (place_ship_in_range b Hwf sz x y horizontal rem
                                 Hsz Hcross Halong Hrem Hempty).
    fold n. simpl. split; [reflexivity|]. split; [reflexivity|].
    intros a Ha. unfold Board.state. simpl.
    rewrite lookup_mark_ship; [reflexivity|exact Ha|].
    destruct Hwf as [_ ->]. fold n.
    apply (span_cells_lt n sz x y horizontal a Hsz Hcross Halong Ha).
  - intros sz x y horizontal Hsz Halong.
    apply (place_ship_straddle b Hwf sz x y horizontal Hsz Halong).
Qed.

(** A ship of size 3 asked for at x = -4 on a board of size 5 is placed on
    columns 1, 2, 3 of row 0, and the shot (-1, -1) lands on the field of
    column 4, row 4. *)
Lemma negative_coordinates_wrap_witness :
  Board.wf (Board.init 5 [3]) /\
  snd (Board.place_ship 3 (-4) 0 true (Board.init 5 [3])) = Ok tt /\
  Board._ships (fst (Board.place_ship 3 (-4) 0 true (Board.init 5 [3])))
  = [[1; 2; 3]%nat] /\
  snd (Board.drop_bomb (-1) (-1) (Board.init 5 [3])) = Ok ShotResult.MISS.
Proof.
  pose proof (negative_coordinates_wrap (Board.init 5 [3]) (wf_init 5 [3]))
    as (Hbomb & _ & Hplace & _).
  split; [apply wf_init|].
  destruct (Hplace 3 (-4) 0 true [] ltac:(lia) ltac:(simpl; lia)
                   ltac:(simpl; lia) eq_refl) as (Hok & Hships & _).
  { intros a _. unfold Board.state.
    destruct (Board.heap (Board.init 5 [3]) !! a) as [s|] eqn:Hs;
      [|reflexivity].
    apply list_elem_of_lookup_2, elem_of_replicate in Hs.
    destruct Hs as [-> _]. reflexivity. }
  split; [exact Hok|]. split; [exact Hships|].
  rewrite (Hbomb (-1) (-1)) by (simpl; lia). reflexivity.
Defined.

(** C9 as stated fails for a span across index 0: on an empty board of
    size 5 with a ship of size 2 available, [place_ship(2, -1, 0, True)]
    is rejected for lack of space. *)
Lemma straddling_ship_is_rejected :
  snd (Board.place_ship 2 (-1) 0 true (Board.init 5 [2])) = Raise ValueError /\
  ~ place_ship_wraps_every_negative_start.
Proof.
  split; [reflexivity|].
  intros H. specialize (H 5 2 (-1) 0 true).
  assert (snd (Board.place_ship 2 (-1) 0 true (Board.init 5 [2]))
          = Raise ValueError) as Hfail by reflexivity.
  rewrite H in Hfail by lia. discriminate.
Qed.

(** * Properties of the round *)

Lemma board_drop_bomb_result (x y : Z) (b : Board.t) :
  (exists r, snd (Board.drop_bomb x y b) = Ok r) \/
  Board.drop_bomb x y b = (b, Raise ValueError).
Proof.
  unfold Board.drop_bomb.
  destruct (Board.field_at b x y) as [f|]; [|auto].
  destruct (Field.drop_bomb _) as [s' r]. simpl. eauto.
Qed.


Section TurnBody.
Context {St : Type}.
Variables c1 c2 : Player.class St.

(** Split on the buffer that [pop(0)] reads in [H]; it was just appended
    to, so it is not empty. *)
Local Ltac split_buffer H Hbuf fb rest :=
  match type of H with
  | context [match ?l ++ [?v] with _ => _ end] =>
      destruct (l ++ [v]) as [|fb rest] eqn:Hbuf;
      [apply app_eq_nil in Hbuf; destruct Hbuf; discriminate|];
      simpl in H
  end.

(** What one pass through the body of the lenient loop does to the
    boards, the buffers and the trace. *)
Lemma Game_turn_body_cases (att : Side) (rs rs' : Round St) (r : Res unit) :
  Game.turn_body c1 c2 att rs = (rs', r) ->
  let tgt := other att in
  let bombing := mkEvent att DropBomb None in
  board att rs' = board att rs /\
  buffer tgt rs' = buffer tgt rs /\
  ((exists e,
       snd (Player.drop_bomb (class_of c1 c2 att) (player att rs))
       = Raise e /\
       board tgt rs' = board tgt rs /\
       buffer att rs' = buffer att rs /\
       trace rs' = mkEvent att DropBomb (Some e) :: trace rs /\
       r = (if is_interrupt e then Raise e else Ok tt)) \/
   (exists x y,
       snd (Player.drop_bomb (class_of c1 c2 att) (player att rs))
       = Ok (x, y) /\
       Board.drop_bomb x y (board tgt rs)
       = (board tgt rs, Raise ValueError) /\
       board tgt rs' = board tgt rs /\
       buffer att rs' = buffer att rs /\
       trace rs' = bombing :: trace rs /\
       r = Ok tt) \/
   (exists x y result e,
       snd (Player.drop_bomb (class_of c1 c2 att) (player att rs))
       = Ok (x, y) /\
       snd (Board.drop_bomb x y (board tgt rs)) = Ok result /\
       board tgt rs' = fst (Board.drop_bomb x y (board tgt rs)) /\
       buffer att rs' = buffer att rs /\
       is_interrupt e = true /\
       (exists st,
           snd (Player.bombed_feedback (class_of c1 c2 tgt) x y result st)
           = Raise e) /\
       trace rs'
       = mkEvent tgt (BombedFeedback x y result) (Some e)
           :: bombing :: trace rs /\
       r = Raise e) \/
   (exists x y result o fb,
       snd (Player.drop_bomb (class_of c1 c2 att) (player att rs))
       = Ok (x, y) /\
       snd (Board.drop_bomb x y (board tgt rs)) = Ok result /\
       board tgt rs' = fst (Board.drop_bomb x y (board tgt rs)) /\
       buffer att rs ++ [Some (x, y, result)] = fb :: buffer att rs' /\
       (forall e, o = Some e -> is_interrupt e = false) /\
       let bombed := mkEvent tgt (BombedFeedback x y result) o in
       match fb with
       | None => trace rs' = bombed :: bombing :: trace rs /\ r = Ok tt
       | Some (x', y', result') =>
           exists o',
           trace rs'
           = mkEvent att (BombFeedback x' y' result') o'
               :: bombed :: bombing :: trace rs /\
           r = match o' with
               | Some e => if is_interrupt e then Raise e else Ok tt
               | None => Ok tt
               end /\
           exists st,
             raised (snd (Player.bomb_feedback (class_of c1 c2 att)
                                               x' y' result' st)) = o'
       end)).
Proof.
  intros H tgt bombing. subst tgt bombing.
  unfold Game.turn_body, Game.isolate, bind, try_except, ret, raise,
    call_drop_bomb, board_drop_bomb, call_bombed_feedback, buffer_append,
    buffer_pop0, star_call, call_bomb_feedback, is_not_None in H.
  destruct att; simpl in H |- *.
  -
    destruct (Player.drop_bomb c1 (p1 rs)) as [st [[x y]|e]] eqn:Hdrop;
      simpl in H |- *.
    2:{ destruct (is_interrupt e) eqn:Hint; injection H as <- <-; simpl;
        (split; [reflexivity|split; [reflexivity|]]);
        left; exists e; rewrite ?Hint; repeat split. }
    destruct (board_drop_bomb_result x y (p2_board rs))
      as [[result Hres]|Hinv].
    2:{ rewrite Hinv in H. simpl in H. injection H as <- <-. simpl.
        (split; [reflexivity|split; [reflexivity|]]);
        right; left; exists x, y; repeat split; assumption. }
    destruct (Board.drop_bomb x y (p2_board rs)) as [b' res] eqn:Hbomb.
    simpl in Hres. subst res. simpl in H.
    destruct (Player.bombed_feedback c2 x y result (p2 rs))
      as [st' [[]|e]] eqn:Hbombed; simpl in H.
    2:{ destruct (is_interrupt e) eqn:Hint; simpl in H.
        { injection H as <- <-. simpl.
          (split; [reflexivity|split; [reflexivity|]]).
          right; right; left; exists x, y, result, e; rewrite ?Hbomb;
            repeat split;
            first [assumption|reflexivity
                  |eexists; rewrite Hbombed; reflexivity]. }
        split_buffer H Hbuf fb rest.
        (split; [|split]); [| |right; right; right;
                                exists x, y, result, (Some e), fb].
        all: destruct fb as [[[x' y'] result']|]; simpl in H.
        all: try (destruct (Player.bomb_feedback c1 x' y' result' st)
                    as [st'' [[]|e']] eqn:Hfb; simpl in H;
                  [|destruct (is_interrupt e') eqn:Hint'; simpl in H]).
        all: injection H as <- <-; simpl; rewrite ?Hbomb; try reflexivity.
        all: (split; [reflexivity|split; [reflexivity|split; [reflexivity|
               split; [exact Hbuf|split; [intros ? [= <-]; exact Hint|]]]]]).
        all: try (split; reflexivity).
        - exists None. repeat split. eexists. rewrite Hfb. reflexivity.
        - exists (Some e'). rewrite Hint'. repeat split.
          eexists. rewrite Hfb. reflexivity.
        - exists (Some e'). rewrite Hint'. repeat split.
          eexists. rewrite Hfb. reflexivity. }
    split_buffer H Hbuf fb rest.
    (split; [|split]); [| |right; right; right;
                            exists x, y, result, None, fb].
    all: destruct fb as [[[x' y'] result']|]; simpl in H.
    all: try (destruct (Player.bomb_feedback c1 x' y' result' st)
                as [st'' [[]|e']] eqn:Hfb; simpl in H;
              [|destruct (is_interrupt e') eqn:Hint'; simpl in H]).
    all: injection H as <- <-; simpl; rewrite ?Hbomb; try reflexivity.
    all: (split; [reflexivity|split; [reflexivity|split; [reflexivity|
           split; [exact Hbuf|split; [discriminate|]]]]]).
    all: try (split; reflexivity).
    + exists None. repeat split. eexists. rewrite Hfb. reflexivity.
    + exists (Some e'). rewrite Hint'. repeat split.
          eexists. rewrite Hfb. reflexivity.
    + exists (Some e'). rewrite Hint'. repeat split.
          eexists. rewrite Hfb. reflexivity.
  -
    destruct (Player.drop_bomb c2 (p2 rs)) as [st [[x y]|e]] eqn:Hdrop;
      simpl in H |- *.
    2:{ destruct (is_interrupt e) eqn:Hint; injection H as <- <-; simpl;
        (split; [reflexivity|split; [reflexivity|]]);
        left; exists e; rewrite ?Hint; repeat split. }
    destruct (board_drop_bomb_result x y (p1_board rs))
      as [[result Hres]|Hinv].
    2:{ rewrite Hinv in H. simpl in H. injection H as <- <-. simpl.
        (split; [reflexivity|split; [reflexivity|]]);
        right; left; exists x, y; repeat split; assumption. }
    destruct (Board.drop_bomb x y (p1_board rs)) as [b' res] eqn:Hbomb.
    simpl in Hres. subst res. simpl in H.
    destruct (Player.bombed_feedback c1 x y result (p1 rs))
      as [st' [[]|e]] eqn:Hbombed; simpl in H.
    2:{ destruct (is_interrupt e) eqn:Hint; simpl in H.
        { injection H as <- <-. simpl.
          (split; [reflexivity|split; [reflexivity|]]).
          right; right; left; exists x, y, result, e; rewrite ?Hbomb;
            repeat split;
            first [assumption|reflexivity
                  |eexists; rewrite Hbombed; reflexivity]. }
        split_buffer H Hbuf fb rest.
        (split; [|split]); [| |right; right; right;
                                exists x, y, result, (Some e), fb].
        all: destruct fb as [[[x' y'] result']|]; simpl in H.
        all: try (destruct (Player.bomb_feedback c2 x' y' result' st)
                    as [st'' [[]|e']] eqn:Hfb; simpl in H;
                  [|destruct (is_interrupt e') eqn:Hint'; simpl in H]).
        all: injection H as <- <-; simpl; rewrite ?Hbomb; try reflexivity.
        all: (split; [reflexivity|split; [reflexivity|split; [reflexivity|
               split; [exact Hbuf|split; [intros ? [= <-]; exact Hint|]]]]]).
        all: try (split; reflexivity).
        - exists None. repeat split. eexists. rewrite Hfb. reflexivity.
        - exists (Some e'). rewrite Hint'. repeat split.
          eexists. rewrite Hfb. reflexivity.
        - exists (Some e'). rewrite Hint'. repeat split.
          eexists. rewrite Hfb. reflexivity. }
    split_buffer H Hbuf fb rest.
    (split; [|split]); [| |right; right; right;
                            exists x, y, result, None, fb].
    all: destruct fb as [[[x' y'] result']|]; simpl in H.
    all: try (destruct (Player.bomb_feedback c2 x' y' result' st)
                as [st'' [[]|e']] eqn:Hfb; simpl in H;
              [|destruct (is_interrupt e') eqn:Hint'; simpl in H]).
    all: injection H as <- <-; simpl; rewrite ?Hbomb; try reflexivity.
    all: (split; [reflexivity|split; [reflexivity|split; [reflexivity|
           split; [exact Hbuf|split; [discriminate|]]]]]).
    all: try (split; reflexivity).
    + exists None. repeat split. eexists. rewrite Hfb. reflexivity.
    + exists (Some e'). rewrite Hint'. repeat split.
          eexists. rewrite Hfb. reflexivity.
    + exists (Some e'). rewrite Hint'. repeat split.
          eexists. rewrite Hfb. reflexivity.
Qed.
End TurnBody.

(** ** The turn loop *)

Section TurnLoop.
Context {St : Type}.
Variable max_turns : Z.
Variable body : Side -> M St unit.

Lemma turn_loop_terminates (fuel : nat) (cycle : list Side) (turn : Z)
      (rs : Round St) :
  Z.max 0 (max_turns * 2 - turn) + 1 <= Z.of_nat fuel ->
  snd (turn_loop max_turns body fuel cycle turn rs) <> OutOfFuel.
Proof.
  revert cycle turn rs.
  induction fuel as [|fuel IH]; intros cycle turn rs Hfuel; [lia|].
  simpl. destruct cycle as [|att rest]; [discriminate|].
  destruct (negb (Board.still_floating (board att rs))); [discriminate|].
  simpl. destruct (Z.gtb_spec (turn + 1) (max_turns * 2)); [discriminate|].
  destruct (body att rs) as [rs' [[]|e]]; [|discriminate].
  apply IH. lia.
Qed.

Lemma turn_loop_from_start (cycle : list Side) (rs : Round St) :
  snd (turn_loop max_turns body (loop_bound max_turns) cycle 0 rs)
  <> OutOfFuel.
Proof. apply turn_loop_terminates. unfold loop_bound. lia. Qed.

(** An invariant of the body is an invariant of the loop. *)
Lemma turn_loop_invariant (I : Round St -> Prop)
      (E : Exn -> Round St -> Prop) :
  (forall att rs rs' r,
      I rs -> body att rs = (rs', r) ->
      match r with Ok _ => I rs' | Raise e => E e rs' end) ->
  forall fuel cycle turn rs rs' ex,
    turn_loop max_turns body fuel cycle turn rs = (rs', ex) ->
    I rs ->
    match ex with
    | Break => I rs'
    | Raised e => E e rs'
    | OutOfFuel => True
    end.
Proof.
  intros Hbody fuel.
  induction fuel as [|fuel IH]; intros cycle turn rs rs' ex Hloop HI;
    simpl in Hloop.
  - injection Hloop as <- <-. exact Logic.I.
  - destruct cycle as [|att rest]; [injection Hloop as <- <-; exact HI|].
    destruct (negb (Board.still_floating (board att rs))
              || (turn + 1 >? max_turns * 2));
      [injection Hloop as <- <-; exact HI|].
    destruct (body att rs) as [rs1 [[]|e]] eqn:Hb.
    + apply (IH _ _ _ _ _ Hloop). apply (Hbody att rs rs1 _ HI Hb).
    + injection Hloop as <- <-. apply (Hbody att rs rs1 _ HI Hb).
Qed.
End TurnLoop.

(** ** Scoring *)

Lemma scoring_table (b1 b2 : Board.t) :
  scoring b1 b2
  = match Board.still_floating b1, Board.still_floating b2 with
    | true, false => (2, 0)
    | false, true => (0, 2)
    | _, _ => (1, 1)
    end.
Proof.
  unfold scoring.
  destruct (Board.still_floating b1), (Board.still_floating b2); reflexivity.
Qed.

Lemma play_round_from_result {St : Type}
      (set_up_ships : list Side -> M St unit) (body : Side -> M St unit)
      (max_turns feedback_delay : Z) (st1 st2 : St) (tr : list Event)
      (swap : bool) :
  exists (rs : Round St) res,
    play_round_from set_up_ships body max_turns feedback_delay
                    st1 st2 tr swap = run_of rs res /\
    forall score, res = Some (Ok score) ->
                  score = scoring (p1_board rs) (p2_board rs).
Proof.
  unfold play_round_from.
  destruct (set_up_ships _ _) as [rs [[]|e]].
  - destruct (turn_loop _ _ _ _ _ _) as [rs' [|e|]];
      eexists _, _; (split; [reflexivity|]); intros score [= <-].
    reflexivity.
  - eexists _, _. split; [reflexivity|]. intros score [=].
Qed.

(** ** Statements and the relations they respect *)

Section Respects.
Context {St : Type}.
Variable R : Round St -> Round St -> Prop.
Hypothesis R_refl : forall rs, R rs rs.
Hypothesis R_trans : forall a b c, R a b -> R b c -> R a c.

Lemma respects_ret {A : Type} (a : A) : respects R (ret a).
Proof. intros rs rs' r [= <- <-]. apply R_refl. Qed.

Lemma respects_raise {A : Type} (e : Exn) : respects R (@raise St A e).
Proof. intros rs rs' r [= <- <-]. apply R_refl. Qed.

Lemma respects_bind {A B : Type} (m : M St A) (k : A -> M St B) :
  respects R m -> (forall a, respects R (k a)) -> respects R (bind m k).
Proof.
  intros Hm Hk rs rs' r. unfold bind.
  destruct (m rs) as [rs1 [a|e]] eqn:H1.
  - intros H2. exact (R_trans _ _ _ (Hm _ _ _ H1) (Hk a _ _ _ H2)).
  - intros [= <- <-]. exact (Hm _ _ _ H1).
Qed.

Lemma respects_try_except {A : Type} (m : M St A) (handler : Exn -> M St A) :
  respects R m -> (forall e, respects R (handler e)) ->
  respects R (try_except m handler).
Proof.
  intros Hm Hh rs rs' r. unfold try_except.
  destruct (m rs) as [rs1 [a|e]] eqn:H1.
  - intros [= <- <-]. exact (Hm _ _ _ H1).
  - intros H2. exact (R_trans _ _ _ (Hm _ _ _ H1) (Hh e _ _ _ H2)).
Qed.

Lemma respects_isolate {A : Type} (m fallback : M St A) :
  respects R m -> respects R fallback ->
  respects R (Game.isolate m fallback).
Proof.
  intros Hm Hf. apply respects_try_except; [exact Hm|].
  intros e. destruct (is_interrupt e); [apply respects_raise|exact Hf].
Qed.

Lemma respects_star_call {A : Type} (f : Z -> Z -> ShotResult.t -> M St A)
      (feedback : option Shot) :
  (forall x y r, respects R (f x y r)) -> respects R (star_call f feedback).
Proof.
  intros Hf. destruct feedback as [[[x y] r]|]; simpl;
    [apply Hf|apply respects_raise].
Qed.

(** The loop respects what its body respects. *)
Lemma respects_turn_loop (max_turns : Z) (body : Side -> M St unit) :
  (forall att, respects R (body att)) ->
  forall fuel cycle turn rs rs' ex,
    turn_loop max_turns body fuel cycle turn rs = (rs', ex) -> R rs rs'.
Proof.
  intros Hbody fuel.
  induction fuel as [|fuel IH]; intros cycle turn rs rs' ex Hloop;
    simpl in Hloop.
  - injection Hloop as <- <-. apply R_refl.
  - destruct cycle as [|att rest]; [injection Hloop as <- <-; apply R_refl|].
    destruct (negb (Board.still_floating (board att rs))
              || (turn + 1 >? max_turns * 2));
      [injection Hloop as <- <-; apply R_refl|].
    destruct (body att rs) as [rs1 [[]|e]] eqn:Hb.
    + exact (R_trans _ _ _ (Hbody _ _ _ _ Hb) (IH _ _ _ _ _ Hloop)).
    + injection Hloop as <- <-. exact (Hbody _ _ _ _ Hb).
Qed.
End Respects.

(** ** The boards of a round *)

Lemma evolves_trans (a b c : Board.t) : evolves a b -> evolves b c -> evolves a c.
Proof.
  intros Hab Hbc. induction Hbc.
  - exact Hab.
  - apply evolves_place. exact IHHbc.
  - apply evolves_bomb. exact IHHbc.
Qed.

Section BoardsEvolve.
Context {St : Type}.
Variables c1 c2 : Player.class St.

Lemma boards_evolve_refl (rs : Round St) : boards_evolve rs rs.
Proof. intros s. apply evolves_refl. Qed.

Lemma boards_evolve_trans (a b c : Round St) :
  boards_evolve a b -> boards_evolve b c -> boards_evolve a c.
Proof. intros Hab Hbc s. exact (evolves_trans _ _ _ (Hab s) (Hbc s)). Qed.

Lemma evolve_call_ship_locations (s : Side) :
  respects boards_evolve (call_ship_locations c1 c2 s).
Proof.
  intros rs rs' r. unfold call_ship_locations.
  destruct (Player.ship_locations _ _) as [st res]. intros [= <- <-] s'.
  destruct s, s'; apply evolves_refl.
Qed.

Lemma evolve_call_drop_bomb (s : Side) :
  respects boards_evolve (call_drop_bomb c1 c2 s).
Proof.
  intros rs rs' r. unfold call_drop_bomb.
  destruct (Player.drop_bomb _ _) as [st res]. intros [= <- <-] s'.
  destruct s, s'; apply evolves_refl.
Qed.

Lemma evolve_call_bomb_feedback (s : Side) (x y : Z) (result : ShotResult.t) :
  respects boards_evolve (call_bomb_feedback c1 c2 s x y result).
Proof.
  intros rs rs' r. unfold call_bomb_feedback.
  destruct (Player.bomb_feedback _ _ _ _ _) as [st res].
  intros [= <- <-] s'. destruct s, s'; apply evolves_refl.
Qed.

Lemma evolve_call_bombed_feedback (s : Side) (x y : Z)
      (result : ShotResult.t) :
  respects boards_evolve (call_bombed_feedback c1 c2 s x y result).
Proof.
  intros rs rs' r. unfold call_bombed_feedback.
  destruct (Player.bombed_feedback _ _ _ _ _) as [st res].
  intros [= <- <-] s'. destruct s, s'; apply evolves_refl.
Qed.

Lemma evolve_board_place_ship (s : Side) (ship : Ship) :
  respects (@boards_evolve St) (board_place_ship s ship).
Proof.
  intros rs rs' r. unfold board_place_ship.
  destruct ship as [[[sz x] y] h].
  destruct (Board.place_ship sz x y h (board s rs)) as [b res] eqn:Hp.
  intros [= <- <-] s'.
  assert (b = fst (Board.place_ship sz x y h (board s rs))) as ->
      by (rewrite Hp; reflexivity).
  destruct s, s'; simpl;
    first [apply evolves_refl|apply evolves_place, evolves_refl].
Qed.

Lemma evolve_board_drop_bomb (s : Side) (x y : Z) :
  respects (@boards_evolve St) (board_drop_bomb s x y).
Proof.
  intros rs rs' r. unfold board_drop_bomb.
  destruct (Board.drop_bomb x y (board s rs)) as [b res] eqn:Hp.
  intros [= <- <-] s'.
  assert (b = fst (Board.drop_bomb x y (board s rs))) as ->
      by (rewrite Hp; reflexivity).
  destruct s, s'; simpl;
    first [apply evolves_refl|apply evolves_bomb, evolves_refl].
Qed.

Lemma evolve_buffer_append (s : Side) (entry : Shot) :
  respects (@boards_evolve St) (buffer_append s entry).
Proof.
  intros rs rs' r [= <- <-] s'. destruct s, s'; apply evolves_refl.
Qed.

Lemma evolve_buffer_pop0 (s : Side) :
  respects (@boards_evolve St) (buffer_pop0 s).
Proof.
  intros rs rs' r. unfold buffer_pop0.
  destruct (buffer s rs); intros [= <- <-] s';
    destruct s, s'; apply evolves_refl.
Qed.

Local Ltac evolve :=
  repeat first
    [ apply (respects_bind _ boards_evolve_trans)
    | apply (respects_isolate _ boards_evolve_refl boards_evolve_trans)
    | apply (respects_try_except _ boards_evolve_trans)
    | apply (respects_star_call _ boards_evolve_refl)
    | apply (respects_ret _ boards_evolve_refl)
    | apply (respects_raise _ boards_evolve_refl)
    | apply evolve_call_ship_locations
    | apply evolve_call_drop_bomb
    | apply evolve_call_bomb_feedback
    | apply evolve_call_bombed_feedback
    | apply evolve_board_place_ship
    | apply evolve_board_drop_bomb
    | apply evolve_buffer_append
    | apply evolve_buffer_pop0
    | match goal with
      | |- forall _ : _ * _, _ => intros [? ?]; cbv beta iota
      | |- forall _, respects _ _ => intro; cbv beta
      | |- respects _ (match ?e with _ => _ end) => destruct e
      end ].


Lemma evolve_Game_turn_body (att : Side) :
  respects boards_evolve (Game.turn_body c1 c2 att).
Proof. unfold Game.turn_body, is_not_None. evolve. Qed.



Lemma evolve_Game_place_ships (s : Side) (ships : list Ship) :
  respects (@boards_evolve St) (Game.place_ships s ships).
Proof.
  induction ships as [|ship ships IH]; simpl; [evolve|].
  intros rs rs' r.
  destruct (try_except _ _ rs) as [rs1 res] eqn:H1.
  assert (boards_evolve rs rs1) as Hstep.
  { revert H1. generalize rs rs1 res.
    change (respects (@boards_evolve St)
              (try_except (board_place_ship s ship)
                 (fun e => match e with
                           | ValueError => ret tt
                           | _ => raise e
                           end))).
    evolve. }
  destruct res as [[]|e].
  - intros H2. exact (boards_evolve_trans _ _ _ Hstep (IH _ _ _ H2)).
  - destruct e; intros [= <- <-]; exact Hstep.
Qed.

Lemma evolve_Game_set_up_ships (bunches : list Side) :
  respects boards_evolve (Game.set_up_ships c1 c2 bunches).
Proof.
  induction bunches as [|s bunches IH]; simpl; evolve;
    [apply evolve_Game_place_ships|exact IH].
Qed.

(** The boards a round ends with come from two default boards. *)
Lemma play_round_from_boards (set_up_ships : list Side -> M St unit)
      (body : Side -> M St unit) (max_turns feedback_delay : Z)
      (st1 st2 : St) (tr : list Event) (swap : bool) :
  (forall bunches, respects boards_evolve (set_up_ships bunches)) ->
  (forall att, respects boards_evolve (body att)) ->
  exists b1 b2,
    run_boards (play_round_from set_up_ships body max_turns feedback_delay
                                st1 st2 tr swap) = Some (b1, b2) /\
    evolves Board.init_default b1 /\ evolves Board.init_default b2.
Proof.
  intros Hset Hbody. unfold play_round_from.
  destruct (set_up_ships _ _) as [rs1 res1] eqn:H1.
  pose proof (Hset _ _ _ _ H1) as E1.
  destruct res1 as [[]|e].
  - destruct (turn_loop _ _ _ _ _ _) as [rs2 ex] eqn:H2.
    pose proof (respects_turn_loop _ boards_evolve_refl boards_evolve_trans
                  _ _ Hbody _ _ _ _ _ _ H2) as E2.
    pose proof (boards_evolve_trans _ _ _ E1 E2) as E.
    destruct ex; simpl; eexists _, _; (split; [reflexivity|]);
      split; [apply (E P1)|apply (E P2)|apply (E P1)|apply (E P2)
              |apply (E P1)|apply (E P2)].
  - simpl. eexists _, _. split; [reflexivity|].
    split; [apply (E1 P1)|apply (E1 P2)].
Qed.
End BoardsEvolve.

Lemma py_remove_Permutation (v : Z) (l l' : list Z) :
  py_remove v l = Some l' -> l ≡ₚ v :: l'.
Proof.
  revert l'. induction l as [|h t IH]; intros l' H; simpl in H;
    [discriminate|].
  destruct (Z.eqb_spec h v) as [->|Hne].
  - injection H as <-. reflexivity.
  - destruct (py_remove v t) as [t'|]; [|discriminate].
    injection H as <-. rewrite (IH t' eq_refl). apply Permutation_swap.
Qed.

Lemma length_mark_ship (fields : list nat) (h : list FieldState.t) :
  length (Board.mark_ship fields h) = length h.
Proof.
  unfold Board.mark_ship. revert h.
  induction fields as [|f fields IH]; intros h; [reflexivity|].
  simpl. rewrite IH. apply length_insert.
Qed.

(** The multiset of ships on the board and ships still allowed. *)
Lemma place_ship_accounts (sz x y : Z) (h : bool) (b : Board.t) :
  ((fun ship => Z.of_nat (length ship))
     <$> Board._ships (fst (Board.place_ship sz x y h b)))
  ++ Board._remaining_ships (fst (Board.place_ship sz x y h b))
  ⊆+ ((fun ship => Z.of_nat (length ship)) <$> Board._ships b)
     ++ Board._remaining_ships b.
Proof.
  unfold Board.place_ship.
  destruct (py_remove sz (Board._remaining_ships b)) as [rem|] eqn:Hrem;
    [|reflexivity].
  apply py_remove_Permutation in Hrem.
  assert (((fun ship => Z.of_nat (length ship)) <$> Board._ships b) ++ rem
          ⊆+ ((fun ship => Z.of_nat (length ship)) <$> Board._ships b)
             ++ Board._remaining_ships b) as Hdrop.
  { apply submseteq_app; [reflexivity|]. rewrite Hrem.
    apply submseteq_cons. reflexivity. }
  destruct (Board.ship_fields _ sz x y h) as [fields|]; [|exact Hdrop].
  destruct (Z.eqb_spec (Z.of_nat (length fields)) sz) as [Hlen|Hlen];
    [|exact Hdrop].
  simpl. destruct (forallb _ fields); [|exact Hdrop].
  simpl. rewrite fmap_app. simpl. rewrite Hlen, <- app_assoc. simpl.
  rewrite Hrem. reflexivity.
Qed.

Lemma place_ship_keeps_layout (sz x y : Z) (h : bool) (b : Board.t) :
  Board.size (fst (Board.place_ship sz x y h b)) = Board.size b /\
  Board._board (fst (Board.place_ship sz x y h b)) = Board._board b /\
  length (Board.heap (fst (Board.place_ship sz x y h b)))
  = length (Board.heap b).
Proof.
  unfold Board.place_ship.
  destruct (py_remove sz (Board._remaining_ships b)) as [rem|]; [|auto].
  destruct (Board.ship_fields _ sz x y h) as [fields|]; [|auto].
  destruct (negb _); [auto|].
  destruct (forallb _ fields); [|auto].
  simpl. rewrite length_mark_ship. auto.
Qed.

Lemma wf_place_ship (sz x y : Z) (h : bool) (b : Board.t) :
  Board.wf b -> Board.wf (fst (Board.place_ship sz x y h b)).
Proof.
  unfold Board.wf. intros [Hg Hh].
  destruct (place_ship_keeps_layout sz x y h b) as (-> & -> & ->). auto.
Qed.

(** What stays true of a board throughout a round. *)
Lemma evolves_shape (b0 b : Board.t) :
  evolves b0 b ->
  Board.size b = Board.size b0 /\
  Board._board b = Board._board b0 /\
  length (Board.heap b) = length (Board.heap b0) /\
  ((fun ship => Z.of_nat (length ship)) <$> Board._ships b)
  ++ Board._remaining_ships b
  ⊆+ ((fun ship => Z.of_nat (length ship)) <$> Board._ships b0)
     ++ Board._remaining_ships b0.
Proof.
  induction 1 as [|sz x y h b' _ (IH1 & IH2 & IH3 & IH4)
                  |x y b' _ (IH1 & IH2 & IH3 & IH4)].
  - repeat split; reflexivity.
  - destruct (place_ship_keeps_layout sz x y h b') as (-> & -> & ->).
    repeat split; try assumption.
    etransitivity; [apply place_ship_accounts|exact IH4].
  - destruct (drop_bomb_keeps_layout x y b') as (-> & -> & -> & -> & ->).
    repeat split; assumption.
Qed.


(** ** Invariants of a whole round *)

(** An invariant [I] of the set-up and of the turn body, with [E] holding
    of whatever they raise, holds of the end of the round; and the round
    does end. *)
Lemma play_round_from_invariant {St : Type}
      (I : Round St -> Prop) (E : Exn -> Round St -> Prop)
      (set_up_ships : list Side -> M St unit) (body : Side -> M St unit)
      (max_turns feedback_delay : Z) (st1 st2 : St) (tr : list Event)
      (swap : bool) :
  I (fresh_round st1 st2 feedback_delay tr) ->
  (forall bunches rs rs' r,
      I rs -> set_up_ships bunches rs = (rs', r) ->
      match r with Ok _ => I rs' | Raise e => E e rs' end) ->
  (forall att rs rs' r,
      I rs -> body att rs = (rs', r) ->
      match r with Ok _ => I rs' | Raise e => E e rs' end) ->
  exists rs res,
    play_round_from set_up_ships body max_turns feedback_delay
                    st1 st2 tr swap = run_of rs res /\
    match res with
    | Some (Ok score) =>
        I rs /\ score = scoring (p1_board rs) (p2_board rs)
    | Some (Raise e) => E e rs
    | None => False
    end.
Proof.
  intros H0 Hset Hbody. unfold play_round_from.
  destruct (set_up_ships _ _) as [rs1 [[]|e]] eqn:H1;
    pose proof (Hset _ _ _ _ H0 H1) as I1; simpl in I1.
  - pose proof (turn_loop_from_start max_turns body
                  (shuffled_bunches swap) rs1) as Hfuel.
    destruct (turn_loop _ _ _ _ _ _) as [rs2 ex] eqn:H2.
    pose proof (turn_loop_invariant max_turns body I E Hbody
                  _ _ _ _ _ _ H2 I1) as I2.
    destruct ex; simpl in *.
    + eexists _, _. split; [reflexivity|]. split; [exact I2|reflexivity].
    + eexists _, _. split; [reflexivity|]. exact I2.
    + exfalso. apply Hfuel. reflexivity.
  - eexists _, _. split; [reflexivity|]. exact I1.
Qed.

(** ** Setting up the ships in the lenient round *)

Lemma untouched_place_ship (sz x y : Z) (h : bool) (b : Board.t) :
  untouched b -> untouched (fst (Board.place_ship sz x y h b)).
Proof.
  intros Hb. unfold Board.place_ship.
  destruct (py_remove sz (Board._remaining_ships b)) as [rem|]; [|exact Hb].
  destruct (Board.ship_fields _ sz x y h) as [fields|]; [|exact Hb].
  destruct (negb _); [exact Hb|].
  destruct (forallb _ fields); [|exact Hb].
  intros a. unfold Board.state. simpl.
  destruct (in_dec Nat.eq_dec a fields) as [Hin|Hnot].
  - destruct (decide (a < length (Board.heap b))%nat) as [Hlt|Hge].
    + rewrite lookup_mark_ship by assumption. right. reflexivity.
    + rewrite lookup_ge_None_2 by (rewrite length_mark_ship; lia).
      left. reflexivity.
  - rewrite lookup_mark_ship_other by exact Hnot. apply (Hb a).
Qed.

Lemma untouched_init (size : Z) (ships : list Z) :
  untouched (Board.init size ships).
Proof.
  intros a. left. unfold Board.state, Board.init. simpl.
  destruct (replicate _ _ !! a) as [s|] eqn:Hs; [|reflexivity].
  apply list_elem_of_lookup_2, elem_of_replicate in Hs.
  destruct Hs as [-> _]. reflexivity.
Qed.

Section GameSetUp.
Context {St : Type}.
Variables c1 c2 : Player.class St.

Lemma Game_place_ships_spec (s : Side) (ships : list Ship) (rs : Round St) :
  exists rs',
    Game.place_ships s ships rs = (rs', Ok tt) /\
    trace rs' = trace rs /\
    (forall s', buffer s' rs' = buffer s' rs) /\
    (forall s', untouched (board s' rs) -> untouched (board s' rs')).
Proof.
  revert rs. induction ships as [|ship ships IH]; intros rs.
  - exists rs. simpl. repeat split; auto.
  - simpl. unfold try_except, board_place_ship.
    destruct ship as [[[sz x] y] h].
    destruct (place_ship_result sz x y h (board s rs)) as [Hr|Hr];
      destruct (Board.place_ship sz x y h (board s rs)) as [b res] eqn:Hp;
      simpl in Hr; subst res; simpl;
      destruct (IH (set_board s b rs)) as (rs' & -> & Htr & Hbuf & Hun);
      exists rs'; (split; [reflexivity|]);
      (split; [rewrite Htr; destruct s; reflexivity|]);
      (split; [intros s'; rewrite Hbuf; destruct s, s'; reflexivity|]);
      intros s' Hs'; apply Hun;
      assert (b = fst (Board.place_ship sz x y h (board s rs))) as ->
          by (rewrite Hp; reflexivity);
      destruct s, s'; simpl in *;
      first [exact Hs'|apply untouched_place_ship; exact Hs'].
Qed.

(** The set-up only adds [ship_locations] calls to the trace; it ends
    with the interrupt one of them raised, or normally. *)
Lemma Game_set_up_ships_spec (bunches : list Side) (rs rs' : Round St)
      (r : Res unit) :
  Game.set_up_ships c1 c2 bunches rs = (rs', r) ->
  (forall s, buffer s rs' = buffer s rs) /\
  (forall s, untouched (board s rs) -> untouched (board s rs')) /\
  exists evs,
    trace rs' = evs ++ trace rs /\
    Forall (fun ev => ev_call ev = ShipLocations) evs /\
    match r with
    | Ok _ => quiet evs
    | Raise e =>
        is_interrupt e = true /\
        (exists s st,
            snd (Player.ship_locations (class_of c1 c2 s) st) = Raise e) /\
        exists ev evs', evs = ev :: evs' /\ ev_raised ev = Some e /\
                        quiet evs'
    end.
Proof.
  revert rs. induction bunches as [|s bunches IH]; intros rs H.
  - injection H as <- <-. split; [auto|]. split; [auto|].
    exists []. repeat split; constructor.
  - simpl in H. unfold bind, Game.isolate, try_except, ret, raise,
                  call_ship_locations in H.
    destruct (Player.ship_locations (class_of c1 c2 s) (player s rs))
      as [st [ships|e]] eqn:Hcall; simpl in H.
    + destruct (Game_place_ships_spec s ships
                  (record (mkEvent s ShipLocations None)
                          (set_player s st rs)))
        as (rs1 & Hp & Htr & Hbuf & Hun).
      rewrite Hp in H.
      destruct (IH _ H) as (Hbuf' & Hun' & evs & Htr' & Hall & Hres).
      split; [intros s'; rewrite Hbuf', Hbuf; destruct s, s'; reflexivity|].
      split; [intros s' Hs'; apply Hun', Hun;
              destruct s, s'; exact Hs'|].
      exists (evs ++ [mkEvent s ShipLocations None]).
      split; [rewrite Htr', Htr, <- app_assoc; destruct s; reflexivity|].
      split; [apply Forall_app; split;
              [exact Hall|constructor; [reflexivity|constructor]]|].
      assert (quiet [mkEvent s ShipLocations None]) as Hq
          by (constructor; [discriminate|constructor]).
      destruct r as [[]|e].
      * apply Forall_app. split; assumption.
      * destruct Hres as (Hint & Hwho & ev & evs' & -> & Hev & Hq').
        split; [exact Hint|]. split; [exact Hwho|].
        exists ev, (evs' ++ [mkEvent s ShipLocations None]).
        split; [reflexivity|]. split; [exact Hev|].
        apply Forall_app. split; assumption.
    + destruct (is_interrupt e) eqn:Hint; simpl in H.
      * injection H as <- <-.
        split; [intros s'; destruct s, s'; reflexivity|].
        split; [intros s' Hs'; destruct s, s'; exact Hs'|].
        exists [mkEvent s ShipLocations (Some e)].
        split; [destruct s; reflexivity|].
        split; [constructor; [reflexivity|constructor]|].
        split; [exact Hint|].
        split; [exists s, (player s rs); rewrite Hcall; reflexivity|].
        eexists _, []. repeat split. constructor.
      * destruct (IH _ H) as (Hbuf' & Hun' & evs & Htr' & Hall & Hres).
        split; [intros s'; rewrite Hbuf'; destruct s, s'; reflexivity|].
        split; [intros s' Hs'; apply Hun'; destruct s, s'; exact Hs'|].
        exists (evs ++ [mkEvent s ShipLocations (Some e)]).
        split; [rewrite Htr', <- app_assoc; destruct s; reflexivity|].
        split; [apply Forall_app; split;
                [exact Hall|constructor; [reflexivity|constructor]]|].
        assert (quiet [mkEvent s ShipLocations (Some e)]) as Hq
            by (constructor; [intros e' [= <-]; exact Hint|constructor]).
        destruct r as [[]|e'].
        -- apply Forall_app. split; assumption.
        -- destruct Hres as (Hint' & Hwho & ev & evs' & -> & Hev & Hq').
           split; [exact Hint'|]. split; [exact Hwho|].
           exists ev, (evs' ++ [mkEvent s ShipLocations (Some e)]).
           split; [reflexivity|]. split; [exact Hev|].
           apply Forall_app. split; assumption.
Qed.
End GameSetUp.

(** ** What escapes from the lenient round *)

Lemma quiet_cons (ev : Event) (tr : list Event) :
  (forall e, ev_raised ev = Some e -> is_interrupt e = false) ->
  quiet tr -> quiet (ev :: tr).
Proof. intros Hev Htr. constructor; assumption. Qed.

Section GameEscape.
Context {St : Type}.
Variables c1 c2 : Player.class St.

Lemma raised_by_class_of (s : Side) (e : Exn) :
  raised_by (class_of c1 c2 s) e -> raised_by c1 e \/ raised_by c2 e.
Proof. destruct s; auto. Qed.

Lemma Game_turn_body_escape (att : Side) (rs rs' : Round St)
      (r : Res unit) :
  quiet (trace rs) ->
  Game.turn_body c1 c2 att rs = (rs', r) ->
  match r with
  | Ok _ => quiet (trace rs')
  | Raise e => escaped c1 c2 e rs'
  end.
Proof.
  intros Hq H. apply Game_turn_body_cases in H.
  destruct H as (_ & _ & [H|[H|[H|H]]]).
  - destruct H as (e & Hcall & _ & _ & Htr & ->).
    destruct (is_interrupt e) eqn:Hint.
    + split; [exact Hint|]. split.
      * apply (raised_by_class_of att). right. right. left. eauto.
      * eexists _, _. split; [exact Htr|]. split; [reflexivity|exact Hq].
    + rewrite Htr.
      apply quiet_cons; [intros e' [= <-]; exact Hint|exact Hq].
  - destruct H as (x & y & _ & _ & _ & _ & Htr & ->). rewrite Htr.
    apply quiet_cons; [discriminate|exact Hq].
  - destruct H as (x & y & result & e & _ & _ & _ & _ & Hint & Hwho
                   & Htr & ->).
    split; [exact Hint|]. split.
    + apply (raised_by_class_of (other att)).
      destruct Hwho as [st Hst]. do 4 right. eauto.
    + eexists _, _. split; [exact Htr|]. split; [reflexivity|].
      apply quiet_cons; [discriminate|exact Hq].
  - destruct H as (x & y & result & o & fb & _ & _ & _ & _ & Ho & H).
    assert (quiet (mkEvent (other att) (BombedFeedback x y result) o
                     :: mkEvent att DropBomb None :: trace rs)) as Hq'
        by (apply quiet_cons; [exact Ho|];
            apply quiet_cons; [discriminate|exact Hq]).
    destruct fb as [[[x' y'] result']|].
    + destruct H as (o' & Htr & -> & st & Hst).
      destruct o' as [e|].
      * destruct (is_interrupt e) eqn:Hint.
        -- split; [exact Hint|]. split.
           ++ apply (raised_by_class_of att). right. right. right. left.
              exists x', y', result', st.
              destruct (snd (Player.bomb_feedback _ _ _ _ _));
                [discriminate|]. simpl in Hst. congruence.
           ++ eexists _, _. split; [exact Htr|].
              split; [reflexivity|exact Hq'].
        -- rewrite Htr.
           apply quiet_cons; [intros e' [= <-]; exact Hint|exact Hq'].
      * rewrite Htr. apply quiet_cons; [discriminate|exact Hq'].
    + destruct H as [Htr ->]. rewrite Htr. exact Hq'.
Qed.

Lemma Game_set_up_ships_escape (bunches : list Side) (rs rs' : Round St)
      (r : Res unit) :
  quiet (trace rs) ->
  Game.set_up_ships c1 c2 bunches rs = (rs', r) ->
  match r with
  | Ok _ => quiet (trace rs')
  | Raise e => escaped c1 c2 e rs'
  end.
Proof.
  intros Hq H. apply Game_set_up_ships_spec in H.
  destruct H as (_ & _ & evs & Htr & _ & H).
  destruct r as [[]|e].
  - rewrite Htr. apply Forall_app. split; assumption.
  - destruct H as (Hint & (s & st & Hwho) & ev & evs' & -> & Hev & Hq').
    split; [exact Hint|]. split.
    + apply (raised_by_class_of s). right. left. eauto.
    + exists ev, (evs' ++ trace rs). split; [exact Htr|].
      split; [exact Hev|]. apply Forall_app. split; assumption.
Qed.

Lemma Game_play_from_escape (self : NaiveGame.t St) (st1 st2 : St)
      (tr : list Event) (swap : bool) :
  quiet tr ->
  let run := Game.play_from self c1 c2 st1 st2 tr swap in
  only_interrupts_escape run /\
  forall e, run_result run = Some (Raise e) ->
            raised_by c1 e \/ raised_by c2 e.
Proof.
  intros Hq run. subst run. unfold Game.play_from.
  destruct (play_round_from_invariant
              (fun rs => quiet (trace rs)) (escaped c1 c2)
              (Game.set_up_ships c1 c2) (Game.turn_body c1 c2)
              (NaiveGame.max_turns self) (NaiveGame.feedback_delay self)
              st1 st2 tr swap Hq)
    as (rs & res & -> & H).
  - intros bunches rs rs' r Hrs Hrun.
    exact (Game_set_up_ships_escape bunches rs rs' r Hrs Hrun).
  - intros att rs rs' r Hrs Hrun.
    exact (Game_turn_body_escape att rs rs' r Hrs Hrun).
  - unfold only_interrupts_escape. simpl.
    destruct res as [[score|e]|]; [| |destruct H].
    + split; [apply H|discriminate].
    + destruct H as (Hint & Hwho & Hev).
      split; [split; assumption|]. intros e' [= <-]. exact Hwho.
Qed.
End GameEscape.

Lemma Game_play_round_escape {St : Type}
      (TimedPlayer : Player.class St -> Player.class St)
      (self : NaiveGame.t St) (ch : Chance) :
  let run := Game._play_round TimedPlayer self ch in
  let c1 := Game.instance_class TimedPlayer self (NaiveGame.p1_class self) in
  let c2 := Game.instance_class TimedPlayer self (NaiveGame.p2_class self) in
  only_interrupts_escape run /\
  forall e, run_result run = Some (Raise e) ->
            raised_by c1 e \/ raised_by c2 e.
Proof.
  intros run c1 c2. subst run. unfold Game._play_round, Game.new_player.
  fold c1 c2. unfold NaiveGame.new_player.
  destruct (Player.construct c1 _ _ _ _ _ (seed1 ch)) as [st1|e1] eqn:H1.
  - destruct (Player.construct c2 _ _ _ _ _ (seed2 ch)) as [st2|e2] eqn:H2.
    + apply Game_play_from_escape.
      repeat (apply quiet_cons; [discriminate|]). constructor.
    + destruct (is_interrupt e2) eqn:Hint.
      * split.
        -- split; [exact Hint|]. eexists _, _. split; [reflexivity|].
           split; [reflexivity|].
           apply quiet_cons; [discriminate|constructor].
        -- intros e [= <-]. right. left. eauto 10.
      * split; [|discriminate].
        apply quiet_cons; [intros e [= <-]; exact Hint|].
        apply quiet_cons; [discriminate|constructor].
  - destruct (is_interrupt e1) eqn:Hint1.
    + split.
      * split; [exact Hint1|]. eexists _, _. split; [reflexivity|].
        split; [reflexivity|constructor].
      * intros e [= <-]. left. left. eauto 10.
    + destruct (Player.construct c2 _ _ _ _ _ (seed2 ch)) as [st2|e2] eqn:H2.
      * split; [|discriminate].
        apply quiet_cons; [discriminate|].
        apply quiet_cons; [intros e [= <-]; exact Hint1|constructor].
      * destruct (is_interrupt e2) eqn:Hint2.
        -- split.
           ++ split; [exact Hint2|]. eexists _, _. split; [reflexivity|].
              split; [reflexivity|].
              apply quiet_cons; [intros e [= <-]; exact Hint1|constructor].
           ++ intros e [= <-]. right. left. eauto 10.
        -- split; [|discriminate].
           apply quiet_cons; [intros e [= <-]; exact Hint2|].
           apply quiet_cons; [intros e [= <-]; exact Hint1|constructor].
Qed.

(** The tournament loop ends with a total or with what a round raised. *)
Lemma play_rounds_escape (round : nat -> Run) (P : Exn -> Prop) :
  (forall i, match run_result (round i) with
             | Some (Ok _) => True
             | Some (Raise e) => P e
             | None => False
             end) ->
  forall n i a b,
    match play_rounds round n i a b with
    | Some (Ok _) => True
    | Some (Raise e) => P e
    | None => False
    end.
Proof.
  intros Hround n. induction n as [|n IH]; intros i a b; simpl; [exact I|].
  specialize (Hround i).
  destruct (run_result (round i)) as [[[s1 s2]|e]|];
    [apply IH|exact Hround|exact Hround].
Qed.

(** ** A player whose [drop_bomb] always throws *)

Section Thrower.
Context {St : Type}.
Variables c1 c2 : Player.class St.
Variable t : Side.
Hypothesis Hthrows : drop_bomb_always_throws (class_of c1 c2 t).

Lemma Game_turn_body_thrower (att : Side) (rs rs' : Round St)
      (r : Res unit) :
  Game.turn_body c1 c2 att rs = (rs', r) ->
  untouched (board (other t) rs) -> untouched (board (other t) rs').
Proof.
  intros H Hun. apply Game_turn_body_cases in H.
  destruct H as (Hatt & _ & H).
  assert (att = t \/ other t = att) as [->|Hother]
      by (destruct att, t; auto).
  - destruct (Hthrows (player t rs)) as (err & Herr & _).
    destruct H as [H|[H|[H|H]]].
    + destruct H as (e & _ & -> & _). exact Hun.
    + destruct H as (x & y & _ & _ & -> & _). exact Hun.
    + destruct H as (x & y & result & e & Hcall & _). congruence.
    + destruct H as (x & y & result & o & fb & Hcall & _). congruence.
  - rewrite Hother in *. rewrite Hatt. exact Hun.
Qed.

Lemma Game_play_from_thrower (self : NaiveGame.t St) (st1 st2 : St)
      (tr : list Event) (swap : bool) :
  exists b1 b2,
    run_boards (Game.play_from self c1 c2 st1 st2 tr swap)
    = Some (b1, b2) /\
    untouched (match t with P1 => b2 | P2 => b1 end).
Proof.
  unfold Game.play_from.
  destruct (play_round_from_invariant
              (fun rs => untouched (board (other t) rs))
              (fun _ rs => untouched (board (other t) rs))
              (Game.set_up_ships c1 c2) (Game.turn_body c1 c2)
              (NaiveGame.max_turns self) (NaiveGame.feedback_delay self)
              st1 st2 tr swap)
    as (rs & res & -> & H).
  - destruct t; apply untouched_init.
  - intros bunches rs rs' r Hrs Hrun.
    apply Game_set_up_ships_spec in Hrun.
    destruct Hrun as (_ & Hun & _).
    destruct r; apply Hun; exact Hrs.
  - intros att rs rs' r Hrs Hrun.
    destruct r; exact (Game_turn_body_thrower att rs rs' _ Hrun Hrs).
  - simpl. eexists _, _. split; [reflexivity|].
    destruct res as [[score|e]|]; [destruct H as [H _]| |destruct H];
      destruct t; exact H.
Qed.
End Thrower.

(** ** The feedback buffer *)

Lemma zip_snoc {A B : Type} (l : list A) (a : A) (m : list B) (d : B) :
  m !! length l = Some d -> zip (l ++ [a]) m = zip l m ++ [(a, d)].
Proof.
  revert m. induction l as [|x l IH]; intros m H.
  - destruct m as [|y m]; [discriminate|]. simpl in H. injection H as ->.
    simpl. destruct m; reflexivity.
  - destruct m as [|y m]; [discriminate|]. simpl in *.
    rewrite (IH m H). reflexivity.
Qed.

Lemma zip_app_short {A B : Type} (l : list A) (m m' : list B) :
  (length l <= length m)%nat -> zip l (m ++ m') = zip l m.
Proof.
  revert m. induction l as [|x l IH]; intros m H; [reflexivity|].
  destruct m as [|y m]; simpl in *; [lia|].
  rewrite IH by lia. reflexivity.
Qed.

Lemma shots_by_app (s : Side) (h1 h2 : list Event) :
  shots_by s (h1 ++ h2) = shots_by s h1 ++ shots_by s h2.
Proof. apply omap_app. Qed.

Lemma stamp_app (s : Side) (h1 h2 : list Event) (n : nat) :
  stamp s (h1 ++ h2) n
  = stamp s h1 n ++ stamp s h2 (n + length (shots_by s h1)).
Proof.
  revert n. induction h1 as [|e h1 IH]; intros n.
  - simpl. rewrite Nat.add_0_r. reflexivity.
  - unfold shots_by. simpl. fold (shots_by s h1).
    destruct (is_shot s e) as [sh|], (is_delivery s e) as [d|]; simpl;
      rewrite IH; try reflexivity; unfold shots_by, omap; do 2 f_equal; lia.
Qed.

Lemma silent_shots_by (s : Side) (h : list Event) :
  Forall (silent s) h -> shots_by s h = [].
Proof.
  induction 1 as [|e h [He _] _ IH]; [reflexivity|].
  unfold shots_by in *. simpl. rewrite He. exact IH.
Qed.

Lemma silent_stamp (s : Side) (h : list Event) (n : nat) :
  Forall (silent s) h -> stamp s h n = [].
Proof.
  induction 1 as [|e h [He Hd] _ IH]; [reflexivity|].
  simpl. rewrite He, Hd. exact IH.
Qed.

Lemma delayed_schedule_snoc (k : nat) (shots : list Shot) (sh : Shot) :
  delayed_schedule k (shots ++ [sh])
  = delayed_schedule k shots
    ++ match (replicate k None ++ (Some <$> shots ++ [sh])) !! length shots
       with
       | Some (Some d) => [(S (length shots), d)]
       | _ => []
       end.
Proof.
  unfold delayed_schedule. rewrite length_app. simpl.
  destruct (decide (length shots < k)%nat) as [Hlt|Hge].
  - rewrite lookup_app_l by (rewrite length_replicate; exact Hlt).
    rewrite lookup_replicate_2 by exact Hlt.
    replace (length shots + 1 - k)%nat with 0%nat by lia.
    replace (length shots - k)%nat with 0%nat by lia. reflexivity.
  - rewrite lookup_app_r by (rewrite length_replicate; lia).
    rewrite length_replicate, list_lookup_fmap.
    destruct ((shots ++ [sh]) !! (length shots - k)%nat) as [d|] eqn:Hd.
    + simpl.
      replace (length shots + 1 - k)%nat with (S (length shots - k)) by lia.
      rewrite seq_S.
      rewrite (zip_snoc _ _ _ d)
        by (rewrite length_seq; exact Hd).
      rewrite zip_app_short by (rewrite length_seq; lia).
      repeat f_equal. lia.
    + apply lookup_ge_None_1 in Hd. rewrite length_app in Hd. simpl in Hd.
      lia.
Qed.

Lemma is_shot_bombed (s : Side) (x y : Z) (r : ShotResult.t)
      (o : option Exn) :
  is_shot s (mkEvent (other s) (BombedFeedback x y r) o) = Some (x, y, r).
Proof. destruct s; reflexivity. Qed.

Lemma is_delivery_feedback (s : Side) (x y : Z) (r : ShotResult.t)
      (o : option Exn) :
  is_delivery s (mkEvent s (BombFeedback x y r) o) = Some (x, y, r).
Proof. destruct s; reflexivity. Qed.

Section FeedbackInvariant.
Context {St : Type}.
Variable k : nat.

Lemma feedback_invariant_silent (s : Side) (evs : list Event)
      (rs rs' : Round St) :
  trace rs' = evs ++ trace rs ->
  Forall (silent s) evs ->
  buffer s rs' = buffer s rs ->
  feedback_invariant k s rs -> feedback_invariant k s rs'.
Proof.
  unfold feedback_invariant, delivery_schedule.
  intros Htr Hsil Hbuf [Hb Hd]. rewrite Htr, Hbuf, rev_app_distr.
  assert (Forall (silent s) (rev evs)) as Hsil'
      by (apply List.Forall_rev; exact Hsil).
  rewrite shots_by_app, stamp_app, (silent_shots_by s (rev evs) Hsil'),
    (silent_stamp s (rev evs) _ Hsil'), !app_nil_r.
  split; assumption.
Qed.

(** A resolved shot of [s]: the shot is appended, the oldest entry
    popped, and [bomb_feedback] called with it exactly if it is a
    triple. *)
Lemma feedback_invariant_shot (s : Side) (x y : Z) (result : ShotResult.t)
      (o : option Exn) (fb : option Shot) (dl : list Event)
      (rs rs' : Round St) :
  trace rs'
  = dl ++ mkEvent (other s) (BombedFeedback x y result) o
       :: mkEvent s DropBomb None :: trace rs ->
  match fb with
  | Some (x', y', result') =>
      exists o', dl = [mkEvent s (BombFeedback x' y' result') o']
  | None => dl = []
  end ->
  buffer s rs ++ [Some (x, y, result)] = fb :: buffer s rs' ->
  feedback_invariant k s rs -> feedback_invariant k s rs'.
Proof.
  unfold feedback_invariant, delivery_schedule.
  intros Htr Hdl Hbuf [Hb Hd].
  set (shots := shots_by s (rev (trace rs))) in *.
  assert (shots_by s (rev dl) = [] /\
          forall n, stamp s (rev dl) n
                    = match fb with Some d => [(n, d)] | None => [] end)
    as [Hdl1 Hdl2].
  { destruct fb as [[[x' y'] r']|]; [destruct Hdl as [o' ->]|subst dl];
      (split; [|intros n]); try reflexivity.
    simpl. rewrite is_delivery_feedback. reflexivity. }
  assert (shots_by s (rev (trace rs')) = shots ++ [(x, y, result)]) as HS.
  { rewrite Htr, rev_app_distr. simpl. rewrite <- !app_assoc. simpl.
    rewrite shots_by_app. fold shots. f_equal.
    unfold shots_by. cbn [omap list_omap].
    rewrite is_shot_bombed. fold (omap (is_shot s) (rev dl)).
    fold (shots_by s (rev dl)). rewrite Hdl1. reflexivity. }
  assert (stamp s (rev (trace rs')) 0
          = stamp s (rev (trace rs)) 0
            ++ match fb with
               | Some d => [(S (length shots), d)]
               | None => []
               end) as HD.
  { rewrite Htr, rev_app_distr. simpl. rewrite <- !app_assoc. simpl.
    rewrite stamp_app. fold shots. f_equal.
    cbn [stamp]. rewrite is_shot_bombed. apply Hdl2. }
  rewrite HS, HD, Hd, delayed_schedule_snoc. fold shots.
  assert (drop (length shots)
               (replicate k None ++ (Some <$> shots ++ [(x, y, result)]))
          = fb :: buffer s rs') as Hdrop.
  { rewrite <- Hbuf, Hb, fmap_app, app_assoc. simpl.
    rewrite drop_app_le
      by (rewrite length_app, length_replicate, length_fmap; lia).
    reflexivity. }
  split.
  - rewrite length_app. simpl.
    rewrite <- drop_drop, Hdrop. reflexivity.
  - f_equal.
    pose proof (lookup_drop
                  (replicate k None ++ (Some <$> shots ++ [(x, y, result)]))
                  (length shots) 0) as Hl.
    rewrite Hdrop, Nat.add_0_r in Hl. simpl in Hl.
    match goal with
    | |- _ = match ?t with _ => _ end =>
        replace t with (Some fb) by exact Hl
    end.
    destruct fb; reflexivity.
Qed.
End FeedbackInvariant.

Lemma silent_unless_feedback (s : Side) (ev : Event) :
  match ev_call ev with
  | BombFeedback _ _ _ => ev_side ev = other s
  | BombedFeedback _ _ _ => ev_side ev = s
  | _ => True
  end -> silent s ev.
Proof.
  destruct ev as [side call o]. unfold silent, is_shot, is_delivery. simpl.
  destruct call; intros H; try (split; reflexivity); subst side;
    destruct s; split; reflexivity.
Qed.

Lemma feedback_invariant_fresh {St : Type} (s : Side) (st1 st2 : St)
      (feedback_delay : Z) (tr : list Event) :
  Forall (silent s) tr ->
  feedback_invariant (Z.to_nat feedback_delay) s
                     (fresh_round st1 st2 feedback_delay tr).
Proof.
  intros Hsil. unfold feedback_invariant, delivery_schedule. simpl.
  apply List.Forall_rev in Hsil.
  rewrite (silent_shots_by s _ Hsil), (silent_stamp s _ 0 Hsil).
  split; [|reflexivity].
  simpl. rewrite app_nil_r. destruct s; reflexivity.
Qed.

Section GameFeedback.
Context {St : Type}.
Variables c1 c2 : Player.class St.
Variable k : nat.

Lemma Game_turn_body_feedback (att : Side) (rs rs' : Round St) :
  Game.turn_body c1 c2 att rs = (rs', Ok tt) ->
  (forall s, feedback_invariant k s rs) ->
  forall s, feedback_invariant k s rs'.
Proof.
  intros H Hinv s. specialize (Hinv s).
  apply Game_turn_body_cases in H.
  destruct H as (_ & Htgt & [H|[H|[H|H]]]).
  - destruct H as (e & _ & _ & Hbuf & Htr & _).
    apply (feedback_invariant_silent k s [mkEvent att DropBomb (Some e)]
                                     rs rs' Htr);
      [constructor; [apply silent_unless_feedback; exact I|constructor]
      | |exact Hinv].
    destruct s, att; simpl in *; congruence.
  - destruct H as (x & y & _ & _ & _ & Hbuf & Htr & _).
    apply (feedback_invariant_silent k s [mkEvent att DropBomb None]
                                     rs rs' Htr);
      [constructor; [apply silent_unless_feedback; exact I|constructor]
      | |exact Hinv].
    destruct s, att; simpl in *; congruence.
  - destruct H as (x & y & result & e & _ & _ & _ & _ & _ & _ & _ & Hr).
    discriminate Hr.
  - destruct H as (x & y & result & o & fb & _ & _ & _ & Hbuf & _ & H).
    cbv zeta in H.
    assert (s = att \/ att = other s) as [-> | ->]
        by (destruct s, att; auto).
    + apply (feedback_invariant_shot k att x y result o fb
               (match fb with
                | Some (x', y', result') =>
                    match trace rs' with
                    | ev :: _ => [ev]
                    | [] => []
                    end
                | None => []
                end) rs rs'); [| |exact Hbuf|exact Hinv].
      * destruct fb as [[[x' y'] result']|].
        -- destruct H as (o' & -> & _). reflexivity.
        -- destruct H as [-> _]. reflexivity.
      * destruct fb as [[[x' y'] result']|]; [|reflexivity].
        destruct H as (o' & -> & _). exists o'. reflexivity.
    + assert (other (other s) = s) as Hs by (destruct s; reflexivity).
      rewrite Hs in *.
      assert (exists evs, trace rs' = evs ++ trace rs /\
                          Forall (silent s) evs) as (evs & Htr & Hsil).
      { destruct fb as [[[x' y'] result']|].
        - destruct H as (o' & -> & _).
          eexists [_; _; _]. split; [reflexivity|].
          repeat constructor; apply silent_unless_feedback; simpl; auto.
        - destruct H as [-> _]. eexists [_; _]. split; [reflexivity|].
          repeat constructor; apply silent_unless_feedback; simpl; auto. }
      apply (feedback_invariant_silent k s evs rs rs' Htr Hsil Htgt Hinv).
Qed.

Lemma Game_set_up_ships_feedback (bunches : list Side) (rs rs' : Round St)
      (r : Res unit) :
  Game.set_up_ships c1 c2 bunches rs = (rs', r) ->
  (forall s, feedback_invariant k s rs) ->
  forall s, feedback_invariant k s rs'.
Proof.
  intros H Hinv s. apply Game_set_up_ships_spec in H.
  destruct H as (Hbuf & _ & evs & Htr & Hall & _).
  apply (feedback_invariant_silent k s evs rs rs' Htr); [|apply Hbuf|apply Hinv].
  eapply Forall_impl; [exact Hall|]. intros ev Hev.
  apply silent_unless_feedback. rewrite Hev. exact I.
Qed.
End GameFeedback.

(** A lenient round that returns a score gave each side its feedback with a
    lag of [feedback_delay] shots. *)
Lemma Game_play_from_feedback {St : Type} (c1 c2 : Player.class St)
      (self : NaiveGame.t St) (st1 st2 : St) (tr : list Event) (swap : bool)
      (score : Z * Z) (s : Side) :
  (forall s, Forall (silent s) tr) ->
  let run := Game.play_from self c1 c2 st1 st2 tr swap in
  run_result run = Some (Ok score) ->
  delivery_schedule s (run_trace run)
  = delayed_schedule (Z.to_nat (NaiveGame.feedback_delay self))
                     (shots_by s (rev (run_trace run))).
Proof.
  intros Hsil run. subst run. unfold Game.play_from.
  destruct (play_round_from_invariant
              (fun rs => forall s,
                   feedback_invariant
                     (Z.to_nat (NaiveGame.feedback_delay self)) s rs)
              (fun _ _ => True)
              (Game.set_up_ships c1 c2) (Game.turn_body c1 c2)
              (NaiveGame.max_turns self) (NaiveGame.feedback_delay self)
              st1 st2 tr swap)
    as (rs & res & -> & H).
  - intros s'. apply feedback_invariant_fresh. apply Hsil.
  - intros bunches rs rs' r Hrs Hrun.
    destruct r; [|exact I].
    exact (Game_set_up_ships_feedback c1 c2 _ bunches rs rs' _ Hrun Hrs).
  - intros att rs rs' r Hrs Hrun.
    destruct r as [[]|]; [|exact I].
    exact (Game_turn_body_feedback c1 c2 _ att rs rs' Hrun Hrs).
  - simpl. intros [= ->]. destruct H as [H _]. apply (H s).
Qed.

(** ** The strict round against the lenient one

    As long as nothing is raised the two [_play_round] methods do the
    same. *)

Section StrictIsLenient.
Context {St : Type}.
Variables c1 c2 : Player.class St.

Lemma NaiveGame_turn_body_ok (att : Side) (rs rs' : Round St) :
  NaiveGame.turn_body c1 c2 att rs = (rs', Ok tt) ->
  Game.turn_body c1 c2 att rs = (rs', Ok tt).
Proof.
  unfold NaiveGame.turn_body, Game.turn_body, Game.isolate, bind,
    try_except, ret, raise, is_not_None.
  destruct (call_drop_bomb c1 c2 att rs) as [rs1 [[x y]|e]];
    [|discriminate].
  destruct (board_drop_bomb (other att) x y rs1) as [rs2 [result|e]];
    [|discriminate].
  destruct (call_bombed_feedback c1 c2 (other att) x y result rs2)
    as [rs3 [[]|e]]; [|discriminate].
  destruct (buffer_append att (x, y, result) rs3) as [rs4 [[]|e]];
    [|discriminate].
  destruct (buffer_pop0 att rs4) as [rs5 [fb|e]]; [|discriminate].
  destruct (star_call (call_bomb_feedback c1 c2 att) fb rs5)
    as [rs6 [[]|e]]; [|discriminate].
  intros H. exact H.
Qed.

Lemma NaiveGame_place_ships_ok (s : Side) (ships : list Ship)
      (rs rs' : Round St) :
  NaiveGame.place_ships s ships rs = (rs', Ok tt) ->
  Game.place_ships s ships rs = (rs', Ok tt).
Proof.
  revert rs. induction ships as [|ship ships IH]; intros rs;
    [intros H; exact H|].
  simpl. unfold bind, try_except.
  destruct (board_place_ship s ship rs) as [rs1 [[]|e]]; [|discriminate].
  apply IH.
Qed.

Lemma NaiveGame_set_up_ships_ok (bunches : list Side) (rs rs' : Round St) :
  NaiveGame.set_up_ships c1 c2 bunches rs = (rs', Ok tt) ->
  Game.set_up_ships c1 c2 bunches rs = (rs', Ok tt).
Proof.
  revert rs. induction bunches as [|s bunches IH]; intros rs;
    [intros H; exact H|].
  simpl. unfold bind, Game.isolate, try_except.
  destruct (call_ship_locations c1 c2 s rs) as [rs1 [ships|e]];
    [|discriminate].
  destruct (NaiveGame.place_ships s ships rs1) as [rs2 [[]|e]] eqn:Hp;
    [|discriminate].
  rewrite (NaiveGame_place_ships_ok s ships rs1 rs2 Hp). apply IH.
Qed.

Lemma turn_loop_ok (max_turns : Z) (body body' : Side -> M St unit) :
  (forall att rs rs', body att rs = (rs', Ok tt) ->
                      body' att rs = (rs', Ok tt)) ->
  forall fuel cycle turn rs rs',
    turn_loop max_turns body fuel cycle turn rs = (rs', Break) ->
    turn_loop max_turns body' fuel cycle turn rs = (rs', Break).
Proof.
  intros Hbody fuel.
  induction fuel as [|fuel IH]; intros cycle turn rs rs';
    [discriminate|].
  simpl. destruct cycle as [|att rest]; [intros H; exact H|].
  destruct (negb (Board.still_floating (board att rs))
            || (turn + 1 >? max_turns * 2)); [intros H; exact H|].
  destruct (body att rs) as [rs1 [[]|e]] eqn:Hb; [|discriminate].
  rewrite (Hbody att rs rs1 Hb). apply IH.
Qed.

Lemma NaiveGame_play_from_ok (self : NaiveGame.t St) (st1 st2 : St)
      (tr : list Event) (swap : bool) (score : Z * Z) :
  run_result (NaiveGame.play_from self c1 c2 st1 st2 tr swap)
  = Some (Ok score) ->
  Game.play_from self c1 c2 st1 st2 tr swap
  = NaiveGame.play_from self c1 c2 st1 st2 tr swap.
Proof.
  unfold NaiveGame.play_from, Game.play_from, play_round_from.
  destruct (NaiveGame.set_up_ships c1 c2 _ _) as [rs1 [[]|e]] eqn:H1;
    [|discriminate].
  rewrite (NaiveGame_set_up_ships_ok _ _ _ H1).
  destruct (turn_loop _ (NaiveGame.turn_body c1 c2) _ _ _ _)
    as [rs2 [|e|]] eqn:H2; [|discriminate|discriminate].
  rewrite (turn_loop_ok _ _ _ NaiveGame_turn_body_ok _ _ _ _ _ H2).
  reflexivity.
Qed.
End StrictIsLenient.

(** * The round: feedback delay *)

Lemma constructions_silent (s : Side) (o1 o2 : option Exn) :
  Forall (silent s) [mkEvent P2 Construct o2; mkEvent P1 Construct o1].
Proof. repeat constructor. Qed.

(** C1 (as far as the code goes): the feedback buffers start as
    [feedback_delay] empty slots; on a turn of the lenient loop whose shot
    the board resolves, the triple is appended to the attacker's buffer, the
    oldest entry is popped, and [bomb_feedback] is called with it exactly
    if it is a triple; so in every round that returns a score, with
    [feedback_delay = k], each side gets the result of its shot number i
    while its shot number i + k is processed, and that is all the feedback
    it gets. *)
Theorem feedback_lags_by_feedback_delay :
  (forall (St : Type) (st1 st2 : St) feedback_delay tr s,
      buffer s (fresh_round st1 st2 feedback_delay tr)
      = replicate (Z.to_nat feedback_delay) None) /\
  (forall (St : Type) (c1 c2 : Player.class St) att rs rs',
      Game.turn_body c1 c2 att rs = (rs', Ok tt) ->
      (exists o, trace rs' = mkEvent att DropBomb o :: trace rs /\
                 buffer att rs' = buffer att rs) \/
      (exists x y result o fb,
          buffer att rs ++ [Some (x, y, result)] = fb :: buffer att rs' /\
          let resolved :=
            mkEvent (other att) (BombedFeedback x y result) o
              :: mkEvent att DropBomb None :: trace rs in
          match fb with
          | None => trace rs' = resolved
          | Some (x', y', result') =>
              exists o',
                trace rs'
                = mkEvent att (BombFeedback x' y' result') o' :: resolved
          end)) /\
  (forall (St : Type) TimedPlayer (self : NaiveGame.t St) ch score s,
      let run := Game._play_round TimedPlayer self ch in
      run_result run = Some (Ok score) ->
      delivery_schedule s (run_trace run)
      = delayed_schedule (Z.to_nat (NaiveGame.feedback_delay self))
                         (shots_by s (rev (run_trace run)))) /\
  (forall (St : Type) (self : NaiveGame.t St) ch score s,
      let run := NaiveGame._play_round self ch in
      run_result run = Some (Ok score) ->
      delivery_schedule s (run_trace run)
      = delayed_schedule (Z.to_nat (NaiveGame.feedback_delay self))
                         (shots_by s (rev (run_trace run)))).
Proof.
  split; [|split; [|split]].
  - intros St st1 st2 k tr s. destruct s; reflexivity.
  - intros St c1 c2 att rs rs' H. apply Game_turn_body_cases in H.
    destruct H as (_ & _ & [H|[H|[H|H]]]).
    + destruct H as (e & _ & _ & Hbuf & Htr & _). left. eauto.
    + destruct H as (x & y & _ & _ & _ & Hbuf & Htr & _). left. eauto.
    + destruct H as (x & y & result & e & _ & _ & _ & _ & _ & _ & _ & Hr).
      discriminate Hr.
    + destruct H as (x & y & result & o & fb & _ & _ & _ & Hbuf & _ & H).
      right. exists x, y, result, o, fb. split; [exact Hbuf|].
      cbv zeta in *. destruct fb as [[[x' y'] result']|].
      * destruct H as (o' & Htr & _). exists o'. exact Htr.
      * destruct H as [Htr _]. exact Htr.
  - intros St TimedPlayer self ch score s run. subst run.
    unfold Game._play_round.
    destruct (Game.new_player TimedPlayer self _ (seed1 ch)) as [r1 [o1|e]];
      [|discriminate].
    destruct (Game.new_player TimedPlayer self _ (seed2 ch)) as [r2 [o2|e]];
      [|discriminate].
    destruct o1 as [st1|], o2 as [st2|]; try reflexivity.
    apply Game_play_from_feedback. intros s'. apply constructions_silent.
  - intros St self ch score s run. subst run.
    unfold NaiveGame._play_round.
    destruct (NaiveGame.new_player self _ (seed1 ch)) as [st1|e];
      [|discriminate].
    destruct (NaiveGame.new_player self _ (seed2 ch)) as [st2|e];
      [|discriminate].
    intros H. pose proof (NaiveGame_play_from_ok _ _ _ _ _ _ _ _ H) as Heq.
    rewrite <- Heq in H |- *. revert H. apply Game_play_from_feedback.
    intros s'. apply constructions_silent.
Qed.

(** In [delayed_game] player 1 is told of its shots at (0,0), (1,0), (2,0)
    while its second, third and fourth shots are processed. *)
Lemma feedback_lags_by_feedback_delay_witness :
  let run := Game._play_round untimed delayed_game (mkChance false 0 0) in
  run_result run = Some (Ok (1, 1)) /\
  delivery_schedule P1 (run_trace run)
  = delayed_schedule 1 (shots_by P1 (rev (run_trace run))) /\
  delayed_schedule 1 (shots_by P1 (rev (run_trace run)))
  = [(2%nat, (0, 0, ShotResult.MISS)); (3%nat, (1, 0, ShotResult.MISS));
     (4%nat, (2, 0, ShotResult.MISS))].
Proof.
  intros run.
  assert (run_result run = Some (Ok (1, 1))) as Hres
      by (vm_compute; reflexivity).
  split; [exact Hres|]. split; [|vm_compute; reflexivity].
  destruct feedback_lags_by_feedback_delay as (_ & _ & H & _).
  exact (H _ untimed delayed_game (mkChance false 0 0) (1, 1) P1 Hres).
Defined.

(** C1 as stated fails: with [feedback_delay = 1] the result of player 1's
    first shot arrives while its second shot is processed, not its third;
    and the strict round, which tests [result] instead of the popped
    entry, ends in a [TypeError] on the first empty slot it pops. *)
Lemma feedback_is_not_one_shot_later :
  let run := Game._play_round untimed delayed_game (mkChance false 0 0) in
  run_result run = Some (Ok (1, 1)) /\
  shots_by P1 (rev (run_trace run))
  = [(0, 0, ShotResult.MISS); (1, 0, ShotResult.MISS);
     (2, 0, ShotResult.MISS); (3, 0, ShotResult.MISS)] /\
  delivery_schedule P1 (run_trace run)
  = [(2%nat, (0, 0, ShotResult.MISS)); (3%nat, (1, 0, ShotResult.MISS));
     (4%nat, (2, 0, ShotResult.MISS))] /\
  delivery_schedule P1 (run_trace run)
  <> stated_schedule 1 (shots_by P1 (rev (run_trace run))) /\
  run_result (NaiveGame._play_round delayed_game (mkChance false 0 0))
  = Some (Raise TypeError).
Proof.
  vm_compute. repeat split. discriminate.
Qed.

(** * The round: failure isolation *)

Lemma thrower_never_interrupts (ships : list Ship) :
  never_interrupts (thrower ships).
Proof.
  intros e [H|[H|[H|[H|H]]]].
  - destruct H as (? & ? & ? & ? & ? & ? & H). discriminate H.
  - destruct H as (st & H). discriminate H.
  - destruct H as (st & H). injection H as <-. reflexivity.
  - destruct H as (? & ? & ? & st & H). discriminate H.
  - destruct H as (? & ? & ? & st & H). discriminate H.
Qed.

Lemma stubborn_never_interrupts (ships : list Ship) (x y : Z) :
  never_interrupts (stubborn ships x y).
Proof.
  intros e [H|[H|[H|[H|H]]]].
  - destruct H as (? & ? & ? & ? & ? & ? & H). discriminate H.
  - destruct H as (st & H). discriminate H.
  - destruct H as (st & H). discriminate H.
  - destruct H as (? & ? & ? & st & H). discriminate H.
  - destruct H as (? & ? & ? & st & H). discriminate H.
Qed.

Lemma thrower_always_throws (ships : list Ship) :
  drop_bomb_always_throws (thrower ships).
Proof. intros st. exists (OtherException 0). split; reflexivity. Qed.

(** C6 as stated fails: the player whose [drop_bomb] always throws does
    not forfeit. Against an opponent that never finds its ship every round
    is a draw, 1000 points each over 1000 rounds; against an opponent
    without a ship it wins the round. *)
Lemma thrower_does_not_forfeit :
  run_result (Game._play_round untimed thrower_game (mkChance false 0 0))
  = Some (Ok (1, 1)) /\
  run_result (Game._play_round untimed thrower_game (mkChance true 0 0))
  = Some (Ok (1, 1)) /\
  Game.play untimed thrower_game (fixed_chance false) 1000
  = Some (Ok (1000, 1000)) /\
  run_result (Game._play_round untimed shipless_game (mkChance false 0 0))
  = Some (Ok (2, 0)).
Proof. vm_compute. repeat split. Qed.

(** * Sample runs *)

(** A ship of size 2 on a board of size 5 is sunk by two shots and stays
    sunk under further ones. *)
Lemma still_floating_until_all_hit_witness :
  let b := fst (Board.place_ship 2 0 0 true (Board.init 5 [2])) in
  Board.still_floating b = true /\
  Board.still_floating (bomb_all [(0, 0)] b) = true /\
  Board.still_floating (bomb_all [(0, 0); (1, 0)] b) = false /\
  Board.still_floating
    (bomb_all [(0, 0); (3, 3)] (bomb_all [(0, 0); (1, 0)] b)) = false.
Proof.
  intros b.
  destruct still_floating_until_all_hit as (_ & _ & Hsunk & _).
  split; [reflexivity|]. split; [reflexivity|]. split; [reflexivity|].
  apply Hsunk. reflexivity.
Defined.


(** * Further properties of the board *)

Lemma py_slice_In {A : Type} (l : list A) (start stop : Z) (a : A) :
  In a (py_slice l start stop) -> In a l.
Proof.
  unfold py_slice. intros H. apply list_elem_of_In in H.
  apply list_elem_of_In.
  apply elem_of_take in H. destruct H as (i & H & _).
  rewrite lookup_drop in H. eapply list_elem_of_lookup_2. exact H.
Qed.

Lemma py_slice_length {A : Type} (l : list A) (start stop : Z) :
  (length (py_slice l start stop) <= length l)%nat.
Proof. unfold py_slice. rewrite length_take, length_drop. lia. Qed.

Lemma comprehension_In {A B : Type} (f : A -> option B) (l : list A)
      (r : list B) (b : B) :
  comprehension f l = Some r -> In b r ->
  exists a, In a l /\ f a = Some b.
Proof.
  revert r. induction l as [|a l IH]; intros r H Hb; simpl in H.
  - injection H as <-. destruct Hb.
  - destruct (f a) as [v|] eqn:Hv; [|discriminate].
    destruct (comprehension f l) as [r'|]; [|discriminate].
    injection H as <-. destruct Hb as [<-|Hb].
    + exists a. split; [left; reflexivity|exact Hv].
    + destruct (IH r' eq_refl Hb) as (a' & Ha' & Hf).
      exists a'. split; [right; exact Ha'|exact Hf].
Qed.

(** The fields [place_ship] selects are fields of the grid. *)
Lemma ship_fields_in_grid (b : Board.t) (sz x y : Z) (h : bool)
      (fields : list nat) (a : nat) :
  Board.ship_fields b sz x y h = Some fields -> In a fields ->
  exists row, In row (Board._board b) /\ In a row.
Proof.
  unfold Board.ship_fields. destruct h.
  - destruct (py_index (Board._board b) y) as [row|] eqn:Hrow;
      [|discriminate].
    simpl. intros [= <-] Ha. exists row.
    split; [eapply py_index_Some_In; exact Hrow|].
    eapply py_slice_In. exact Ha.
  - intros Hc Ha.
    destruct (comprehension_In _ _ _ _ Hc Ha) as (column & Hcol & Hx).
    exists column. split; [eapply py_slice_In; exact Hcol|].
    eapply py_index_Some_In. exact Hx.
Qed.

Lemma grid_field_lt (b : Board.t) (row : list nat) (a : nat) :
  Board.wf b -> In row (Board._board b) -> In a row ->
  (a < length (Board.heap b))%nat.
Proof.
  intros [Hg Hh] Hrow Ha. rewrite Hg in Hrow. rewrite Hh.
  apply list_elem_of_In, list_elem_of_fmap in Hrow.
  destruct Hrow as (r & -> & Hr). apply elem_of_seq in Hr.
  apply list_elem_of_In, list_elem_of_fmap in Ha.
  destruct Ha as (c & -> & Hc). apply elem_of_seq in Hc. nia.
Qed.

Lemma field_at_lt (b : Board.t) (x y : Z) (a : nat) :
  Board.wf b -> Board.field_at b x y = Some a ->
  (a < length (Board.heap b))%nat.
Proof.
  intros Hwf H. unfold Board.field_at in H.
  destruct (py_index (Board._board b) y) as [row|] eqn:Hrow;
    [|discriminate].
  simpl in H. apply (grid_field_lt b row a Hwf).
  - eapply py_index_Some_In. exact Hrow.
  - eapply py_index_Some_In. exact H.
Qed.

(** X1: a failing [place_ship] raises [ValueError] and nothing else; it
    leaves the size, the grid, every field and the placed ships as they
    were, and the remaining ships either as they were (the size was not
    allowed) or short of one occurrence of the size (it was allowed, and
    is used up). *)
Theorem place_ship_failure_is_clean (sz x y : Z) (h : bool) (b : Board.t)
        (e : Exn) :
  snd (Board.place_ship sz x y h b) = Raise e ->
  let b' := fst (Board.place_ship sz x y h b) in
  e = ValueError /\
  Board.size b' = Board.size b /\
  Board._board b' = Board._board b /\
  Board.heap b' = Board.heap b /\
  Board._ships b' = Board._ships b /\
  match py_remove sz (Board._remaining_ships b) with
  | None => Board._remaining_ships b' = Board._remaining_ships b
  | Some rem => Board._remaining_ships b' = rem
  end.
Proof.
  unfold Board.place_ship.
  destruct (py_remove sz (Board._remaining_ships b)) as [rem|];
    [|intros [= <-]; repeat split].
  destruct (Board.ship_fields _ sz x y h) as [fields|];
    [|intros [= <-]; repeat split].
  destruct (negb _); [intros [= <-]; repeat split|].
  destruct (forallb _ fields); [discriminate|intros [= <-]; repeat split].
Qed.

Lemma place_ship_failure_is_clean_witness :
  let b := Board.init 5 [3; 3] in
  snd (Board.place_ship 3 3 0 true b) = Raise ValueError /\
  Board.heap (fst (Board.place_ship 3 3 0 true b)) = Board.heap b /\
  Board._remaining_ships (fst (Board.place_ship 3 3 0 true b)) = [3].
Proof.
  intros b.
  assert (snd (Board.place_ship 3 3 0 true b) = Raise ValueError) as H
      by reflexivity.
  destruct (place_ship_failure_is_clean 3 3 0 true b ValueError H)
    as (_ & _ & _ & Hh & _ & Hr).
  split; [exact H|]. split; [exact Hh|exact Hr].
Defined.

(** What a successful [place_ship] does to a well-formed board. *)
Lemma place_ship_ok_effect (sz x y : Z) (h : bool) (b : Board.t) :
  Board.wf b ->
  snd (Board.place_ship sz x y h b) = Ok tt ->
  let b' := fst (Board.place_ship sz x y h b) in
  exists fields,
    Board._ships b' = Board._ships b ++ [fields] /\
    Z.of_nat (length fields) = sz /\
    py_remove sz (Board._remaining_ships b)
    = Some (Board._remaining_ships b') /\
    Board._board b' = Board._board b /\
    (forall a, In a fields ->
               Board.state b a = FieldState.EMPTY /\
               Board.state b' a = FieldState.SHIP) /\
    (forall a, ~ In a fields -> Board.state b' a = Board.state b a).
Proof.
  intros Hwf. unfold Board.place_ship.
  destruct (py_remove sz (Board._remaining_ships b)) as [rem|];
    [|discriminate].
  destruct (Board.ship_fields _ sz x y h) as [fields|] eqn:Hf;
    [|discriminate].
  destruct (Z.eqb_spec (Z.of_nat (length fields)) sz) as [Hlen|Hlen];
    [|discriminate].
  simpl negb. cbv iota.
  destruct (forallb _ fields) eqn:Hempty; [|discriminate].
  intros _. simpl. exists fields.
  split; [reflexivity|]. split; [exact Hlen|]. split; [reflexivity|].
  split; [reflexivity|]. split.
  - intros a Ha. split.
    + rewrite forallb_forall in Hempty.
      apply FieldState_eqb_eq. apply (Hempty a Ha).
    + unfold Board.state. simpl.
      rewrite lookup_mark_ship; [reflexivity|exact Ha|].
      destruct (ship_fields_in_grid _ _ _ _ _ _ a Hf Ha) as (row & Hr & Har).
      apply (grid_field_lt b row a Hwf Hr Har).
  - intros a Ha. unfold Board.state. simpl.
    rewrite lookup_mark_ship_other by exact Ha. reflexivity.
Qed.


(** X5: a shot never changes the size, the grid, the ships or the
    remaining ships of a board, and it changes the state of no field but
    the one it lands on; a shot that raises changes nothing. *)
Theorem drop_bomb_touches_one_field (x y : Z) (b : Board.t) :
  let b' := fst (Board.drop_bomb x y b) in
  Board.size b' = Board.size b /\
  Board._board b' = Board._board b /\
  Board._ships b' = Board._ships b /\
  Board._remaining_ships b' = Board._remaining_ships b /\
  (forall a, Board.field_at b x y <> Some a ->
             Board.state b' a = Board.state b a) /\
  (forall e, snd (Board.drop_bomb x y b) = Raise e ->
             e = ValueError /\ b' = b).
Proof.
  destruct (drop_bomb_keeps_layout x y b) as (Hg & Hs & Hr & Hz & _).
  intros b'. subst b'.
  split; [exact Hz|]. split; [exact Hg|]. split; [exact Hs|].
  split; [exact Hr|]. unfold Board.drop_bomb. split.
  - intros a Ha. destruct (Board.field_at b x y) as [f|]; [|reflexivity].
    destruct (Field.drop_bomb (Board.state b f)) as [s' r].
    unfold Board.state. simpl.
    rewrite list_lookup_insert_ne by congruence. reflexivity.
  - intros e. destruct (Board.field_at b x y) as [f|].
    + destruct (Field.drop_bomb (Board.state b f)). discriminate.
    + intros [= <-]. split; reflexivity.
Qed.

(** X8: a ship of negative size, or longer than the board is wide, is
    never placed, whatever the remaining ships and the coordinates. *)
Theorem oversized_ship_is_rejected (sz x y : Z) (h : bool) (b : Board.t) :
  Board.wf b ->
  sz < 0 \/ Z.of_nat (Z.to_nat (Board.size b)) < sz ->
  Board.place_ship sz x y h b
  = (fst (Board.place_ship sz x y h b), Raise ValueError) /\
  Board._ships (fst (Board.place_ship sz x y h b)) = Board._ships b.
Proof.
  intros Hwf Hsz.
  assert (snd (Board.place_ship sz x y h b) = Raise ValueError) as Hfail.
  { destruct (place_ship_result sz x y h b) as [Hok|Hfail]; [|exact Hfail].
    exfalso. apply place_ship_ok_fields in Hok.
    destruct Hok as (rem & fields & _ & Hf & Hlen).
    destruct Hsz as [Hneg|Hbig]; [lia|].
    assert (length fields <= Z.to_nat (Board.size b))%nat; [|lia].
    destruct Hwf as [Hg _]. unfold Board.ship_fields in Hf. simpl in Hf.
    rewrite Hg in Hf. destruct h.
    - destruct (py_index _ y) as [row|] eqn:Hrow; [|discriminate].
      simpl in Hf. injection Hf as <-.
      apply py_index_Some_In, list_elem_of_In, list_elem_of_fmap in Hrow.
      destruct Hrow as (r & -> & _).
      etransitivity; [apply py_slice_length|].
      rewrite length_fresh_row. lia.
    - apply comprehension_length in Hf. rewrite Hf.
      etransitivity; [apply py_slice_length|].
      rewrite length_fresh_grid. lia. }
  split.
  - destruct (Board.place_ship sz x y h b) as [b' r]. simpl in *.
    rewrite Hfail. reflexivity.
  - apply (place_ship_failure_keeps_fields sz x y h b ValueError Hfail).
Qed.

Lemma oversized_ship_is_rejected_witness :
  snd (Board.place_ship 6 0 0 true (Board.init 5 [6])) = Raise ValueError.
Proof.
  destruct (oversized_ship_is_rejected 6 0 0 true (Board.init 5 [6])
              (wf_init 5 [6]) ltac:(right; simpl; lia)) as [H _].
  rewrite H. reflexivity.
Defined.

Lemma py_slice_sublist {A : Type} (l : list A) (start stop : Z) :
  py_slice l start stop `sublist_of` l.
Proof.
  unfold py_slice. etransitivity; [apply sublist_take|apply sublist_drop].
Qed.

Lemma NoDup_fresh_row (n r : nat) : NoDup (Board.fresh_row n r).
Proof.
  unfold Board.fresh_row. apply NoDup_fmap_2_strong; [|apply NoDup_seq].
  intros c c' _ _ H. lia.
Qed.

(** A slice of the rows of a fresh grid is a run of consecutive rows. *)
Lemma py_slice_fresh_grid (n : nat) (start stop : Z) :
  exists j k, py_slice (Board.fresh_grid n) start stop
              = Board.fresh_row n <$> seq j k.
Proof.
  unfold py_slice, Board.fresh_grid.
  rewrite <- fmap_drop, <- fmap_take, drop_seq, take_seq. eauto.
Qed.

Lemma ship_fields_NoDup (b : Board.t) (sz x y : Z) (h : bool)
      (fields : list nat) :
  Board.wf b -> Board.ship_fields b sz x y h = Some fields -> NoDup fields.
Proof.
  intros [Hg _]. unfold Board.ship_fields. rewrite Hg.
  set (n := Z.to_nat (Board.size b)). destruct h.
  - destruct (py_index (Board.fresh_grid n) y) as [row|] eqn:Hrow;
      [|discriminate].
    simpl. intros [= <-].
    apply py_index_Some_In, list_elem_of_In, list_elem_of_fmap in Hrow.
    destruct Hrow as (r & -> & _).
    eapply sublist_NoDup; [apply NoDup_fresh_row|apply py_slice_sublist].
  - destruct (py_slice_fresh_grid n y (y + sz)) as (j & k & ->).
    destruct (decide (- Z.of_nat n <= x < Z.of_nat n)) as [Hx|Hx].
    + rewrite (comprehension_total _ _
                 (fun r => cell n r (wrap (Z.of_nat n) x))).
      * intros [= <-]. apply NoDup_fmap_2_strong; [|apply NoDup_seq].
        unfold cell. intros r r' _ _ H. nia.
      * intros r _.
        rewrite py_index_in_range by (rewrite length_fresh_row; lia).
        rewrite length_fresh_row. apply lookup_fresh_row.
        pose proof (wrap_lt (Z.of_nat n) x). lia.
    + destruct k as [|k]; [intros [= <-]; constructor|].
      simpl. rewrite py_index_out_of_range
        by (rewrite length_fresh_row; exact Hx).
      discriminate.
Qed.

Lemma afloat_or_hit_after_drop_bomb (x y : Z) (b : Board.t) (a : nat) :
  (Board.state (fst (Board.drop_bomb x y b)) a = FieldState.SHIP \/
   Board.state (fst (Board.drop_bomb x y b)) a = FieldState.HIT) <->
  (Board.state b a = FieldState.SHIP \/ Board.state b a = FieldState.HIT).
Proof.
  unfold Board.drop_bomb.
  destruct (Board.field_at b x y) as [f|]; [|reflexivity].
  unfold Field.drop_bomb.
  destruct (Field._transitions (Board.state b f)) as [s' r] eqn:Ht.
  unfold Board.state in *. simpl.
  destruct (decide (f = a)) as [->|Hne].
  - destruct (decide (a < length (Board.heap b))%nat) as [Hlt|Hge].
    + rewrite list_lookup_insert_eq by exact Hlt. simpl.
      destruct (Board.heap b !! a) as [[]|]; simpl in *;
        injection Ht as <- <-; intuition congruence.
    + rewrite list_insert_ge by lia. reflexivity.
  - rewrite list_lookup_insert_ne by exact Hne. reflexivity.
Qed.

Lemma place_ship_ok_ships (sz x y : Z) (h : bool) (b : Board.t) :
  snd (Board.place_ship sz x y h b) = Ok tt ->
  exists rem fields,
    Board.ship_fields (Board.set_remaining b rem) sz x y h = Some fields /\
    Board._ships (fst (Board.place_ship sz x y h b))
    = Board._ships b ++ [fields].
Proof.
  unfold Board.place_ship.
  destruct (py_remove sz (Board._remaining_ships b)) as [rem|];
    [|discriminate].
  destruct (Board.ship_fields _ sz x y h) as [fields|] eqn:Hf;
    [|discriminate].
  destruct (negb _); [discriminate|].
  destruct (forallb _ fields); [|discriminate].
  intros _. exists rem, fields. split; [exact Hf|reflexivity].
Qed.

(** The ships of a board stay apart, and they are where the fields in
    state SHIP or HIT are. *)
Lemma evolves_ships_apart (size : Z) (ships : list Z) (b : Board.t) :
  evolves (Board.init size ships) b ->
  Board.wf b /\
  NoDup (concat (Board._ships b)) /\
  forall a, a ∈ concat (Board._ships b) <->
            Board.state b a = FieldState.SHIP \/
            Board.state b a = FieldState.HIT.
Proof.
  induction 1 as [|sz x y h b' _ (Hwf & Hnd & Hin)
                  |x y b' _ (Hwf & Hnd & Hin)].
  - split; [apply wf_init|]. split; [constructor|].
    intros a. simpl. split; [intros Ha; inversion Ha|].
    destruct (untouched_init size ships a) as [H|H]; rewrite H;
      intros [|]; try discriminate.
    exfalso. unfold Board.state, Board.init in H. simpl in H.
    destruct (replicate _ _ !! a) as [s|] eqn:Hs; [|discriminate].
    apply list_elem_of_lookup_2, elem_of_replicate in Hs.
    destruct Hs as [-> _]. discriminate.
  - split; [apply wf_place_ship; exact Hwf|].
    destruct (place_ship_result sz x y h b') as [Hok|Hfail].
    + destruct (place_ship_ok_effect sz x y h b' Hwf Hok)
        as (fields & Hs & _ & _ & _ & Hnew & Hold).
      assert (NoDup fields) as Hndf.
      { destruct (place_ship_ok_ships sz x y h b' Hok)
          as (rem' & fs & Hsf & Hs').
        rewrite Hs in Hs'. apply app_inv_head in Hs'. injection Hs' as <-.
        apply (ship_fields_NoDup _ _ _ _ _ _
                 (Hwf : Board.wf (Board.set_remaining b' rem')) Hsf). }
      rewrite Hs, concat_app. simpl. rewrite app_nil_r. split.
      * apply NoDup_app. split; [exact Hnd|]. split; [|exact Hndf].
        intros a Ha Haf. apply Hin in Ha.
        apply list_elem_of_In in Haf. destruct (Hnew a Haf) as [He _].
        rewrite He in Ha. destruct Ha; discriminate.
      * intros a. rewrite elem_of_app.
        destruct (in_dec Nat.eq_dec a fields) as [Haf|Haf].
        -- destruct (Hnew a Haf) as [_ ->].
           split; [auto|]. intros _. right. apply list_elem_of_In. exact Haf.
        -- rewrite (Hold a Haf), Hin. split; [|auto].
           intros [Ha|Ha]; [exact Ha|].
           apply list_elem_of_In in Ha. contradiction.
    + destruct (place_ship_failure_keeps_fields sz x y h b' _ Hfail)
        as (Hh & Hs & _).
      rewrite Hs. split; [exact Hnd|].
      intros a. unfold Board.state. rewrite Hh. apply Hin.
  - split; [apply wf_drop_bomb; exact Hwf|].
    destruct (drop_bomb_keeps_layout x y b') as (_ & -> & _).
    split; [exact Hnd|].
    intros a. rewrite afloat_or_hit_after_drop_bomb. apply Hin.
Qed.

(** X3: on every board obtained from [Board(size, ships)] by placements
    and shots, no field belongs to two ships or twice to one ship, and the
    fields of the ships are exactly the fields in state SHIP or HIT. *)
Theorem ships_never_share_a_field (size : Z) (ships : list Z) (b : Board.t) :
  evolves (Board.init size ships) b ->
  NoDup (concat (Board._ships b)) /\
  forall a, a ∈ concat (Board._ships b) <->
            Board.state b a = FieldState.SHIP \/
            Board.state b a = FieldState.HIT.
Proof. intros H. apply (evolves_ships_apart size ships b H). Qed.

Lemma ships_never_share_a_field_witness :
  let b := fst (Board.place_ship 2 0 0 false
                  (fst (Board.drop_bomb 1 0
                          (fst (Board.place_ship 2 0 0 true
                                  (Board.init 5 [2; 2])))))) in
  NoDup (concat (Board._ships b)) /\ Board._ships b = [[0; 1]%nat].
Proof.
  intros b. split; [|reflexivity].
  apply (ships_never_share_a_field 5 [2; 2] b).
  apply evolves_place, evolves_bomb, evolves_place, evolves_refl.
Defined.

(** X7: on every board obtained from [Board(size, ships)] by placements
    and shots, the sizes of the placed ships together with the remaining
    ships form a sub-multiset of [ships]: no size is placed more often
    than it was allowed; and the board keeps its size and its grid. *)
Theorem ships_stay_within_allowance (size : Z) (ships : list Z)
        (b : Board.t) :
  evolves (Board.init size ships) b ->
  ((fun ship => Z.of_nat (length ship)) <$> Board._ships b)
  ++ Board._remaining_ships b ⊆+ ships /\
  Board.size b = size /\
  Board._board b = Board.fresh_grid (Z.to_nat size) /\
  length (Board.heap b) = (Z.to_nat size * Z.to_nat size)%nat.
Proof.
  intros H. apply evolves_shape in H. destruct H as (Hs & Hg & Hh & Hm).
  simpl in *. rewrite length_replicate in Hh. auto.
Qed.

Lemma ships_stay_within_allowance_witness :
  let b := fst (Board.place_ship 3 1 1 true
                  (fst (Board.place_ship 3 4 0 true (Board.init 5 [3; 3]))))
  in
  Board._remaining_ships b = [] /\
  ((fun ship => Z.of_nat (length ship)) <$> Board._ships b)
  ++ Board._remaining_ships b ⊆+ [3; 3].
Proof.
  intros b. split; [reflexivity|].
  apply (ships_stay_within_allowance 5 [3; 3] b).
  apply evolves_place, evolves_place, evolves_refl.
Defined.

(** X4: on a well-formed board, a shot that is resolved and then repeated
    at the same coordinates returns PREVIOUS_MISS after MISS or
    PREVIOUS_MISS and PREVIOUS_HIT after HIT or PREVIOUS_HIT, and the
    repeated shot leaves the board exactly as the first one left it, with
    the field MISSED or HIT. *)
Theorem second_shot_reports_previous (x y : Z) (b : Board.t)
        (r : ShotResult.t) :
  Board.wf b ->
  snd (Board.drop_bomb x y b) = Ok r ->
  let b1 := fst (Board.drop_bomb x y b) in
  let missed := match r with
                | ShotResult.MISS | ShotResult.PREVIOUS_MISS => true
                | _ => false
                end in
  Board.drop_bomb x y b1
  = (b1, Ok (if missed then ShotResult.PREVIOUS_MISS
             else ShotResult.PREVIOUS_HIT)) /\
  Board.getitem b1 x y
  = Some (if missed then FieldState.MISSED else FieldState.HIT).
Proof.
  intros Hwf Hr.
  assert (exists a, Board.field_at b x y = Some a /\
                    Board.drop_bomb x y b
                    = (Board.set_heap b
                         (<[a := fst (Field._transitions (Board.state b a))]>
                            (Board.heap b)),
                       Ok (snd (Field._transitions (Board.state b a)))))
    as (a & Hf & Hb).
  { unfold Board.drop_bomb in *.
    destruct (Board.field_at b x y) as [a|]; [|discriminate].
    exists a. split; [reflexivity|]. unfold Field.drop_bomb.
    destruct (Field._transitions (Board.state b a)). reflexivity. }
  pose proof (field_at_lt b x y a Hwf Hf) as Hlt.
  rewrite Hb in Hr |- *. simpl in Hr |- *. injection Hr as <-.
  unfold Board.drop_bomb, Board.getitem, Board.field_at. simpl.
  fold (Board.field_at b x y). rewrite Hf. simpl.
  unfold Board.state. simpl.
  rewrite list_lookup_insert_eq by exact Hlt. simpl.
  unfold Field.drop_bomb.
  destruct (default FieldState.EMPTY (Board.heap b !! a)); simpl;
    rewrite list_insert_insert_eq; split; reflexivity.
Qed.

Lemma second_shot_reports_previous_witness :
  let b := fst (Board.place_ship 2 0 0 true (Board.init 5 [2])) in
  snd (Board.drop_bomb 1 0 b) = Ok ShotResult.HIT /\
  snd (Board.drop_bomb 1 0 (fst (Board.drop_bomb 1 0 b)))
  = Ok ShotResult.PREVIOUS_HIT.
Proof.
  intros b. split; [reflexivity|].
  assert (Board.wf b) as Hwf by (apply wf_place_ship, wf_init).
  destruct (second_shot_reports_previous 1 0 b ShotResult.HIT Hwf eq_refl)
    as [H _].
  rewrite H. reflexivity.
Defined.

Lemma wrap_add (n start i : Z) :
  0 <= i ->
  (- n <= start /\ start + i < 0) \/ (0 <= start /\ start + i < n) ->
  wrap n (start + i) = (wrap n start + Z.to_nat i)%nat.
Proof.
  intros Hi [[Hlo Hhi]|[Hlo Hhi]].
  - rewrite !wrap_neg by lia. lia.
  - rewrite !wrap_nonneg by lia. lia.
Qed.

(** X6: on a well-formed board of size N, once [place_ship] has placed a
    ship whose span lies within the grid (or wraps wholly below index 0),
    a shot at each of the coordinates the ship was asked for, (x + i, y)
    if horizontal and (x, y + i) if not, 0 <= i < size, is a HIT. *)
Theorem placed_ship_is_hit_where_placed (b : Board.t) (sz x y : Z)
        (horizontal : bool) (rem : list Z) (i : Z) :
  Board.wf b ->
  let N := Z.of_nat (Z.to_nat (Board.size b)) in
  (let cross := if horizontal then y else x in - N <= cross < N) ->
  (let along := if horizontal then x else y in
   (- N <= along /\ along + sz < 0) \/ (0 <= along /\ along + sz <= N)) ->
  py_remove sz (Board._remaining_ships b) = Some rem ->
  (forall a, In a (span_cells (Z.to_nat (Board.size b)) sz x y horizontal) ->
             Board.state b a = FieldState.EMPTY) ->
  0 <= i < sz ->
  let b' := fst (Board.place_ship sz x y horizontal b) in
  snd (Board.place_ship sz x y horizontal b) = Ok tt /\
  snd (Board.drop_bomb (if horizontal then x + i else x)
                       (if horizontal then y else y + i) b')
  = Ok ShotResult.HIT.
Proof.
  intros Hwf N Hcross Halong Hrem Hempty Hi b'. subst b'.
  set (n := Z.to_nat (Board.size b)) in *.
  assert (0 <= sz) as Hsz by lia.
  pose proof (place_ship_in_range b Hwf sz x y horizontal rem
                Hsz Hcross Halong Hrem Hempty) as Hp.
  fold n in Hp. rewrite Hp. simpl fst. simpl snd. split; [reflexivity|].
  set (b' := Board.set_heap _ _).
  assert (Board.wf b') as Hwf'.
  { destruct Hwf as [Hg Hh]. split; [exact Hg|].
    unfold b'. simpl. rewrite length_mark_ship. exact Hh. }
  assert (Z.to_nat (Board.size b') = n) as Hn by reflexivity.
  set (a := if horizontal
            then cell n (wrap N y) (wrap N x + Z.to_nat i)
            else cell n (wrap N y + Z.to_nat i) (wrap N x)).
  assert (Board.field_at b' (if horizontal then x + i else x)
                         (if horizontal then y else y + i) = Some a) as Hf.
  { rewrite (field_at_in_range b' Hwf') by
        (rewrite Hn; fold N; destruct horizontal; simpl in *; lia).
    rewrite Hn. fold N. unfold a. destruct horizontal; simpl in *.
    - rewrite wrap_add by lia. reflexivity.
    - rewrite wrap_add by lia. reflexivity. }
  assert (In a (span_cells n sz x y horizontal)) as Ha.
  { unfold span_cells, a. fold N. apply list_elem_of_In.
    destruct horizontal; apply list_elem_of_fmap;
      eexists; (split; [reflexivity|]); apply elem_of_seq; lia. }
  assert (Board.state b' a = FieldState.SHIP) as Hs.
  { unfold Board.state, b'. simpl.
    rewrite lookup_mark_ship; [reflexivity|exact Ha|].
    destruct Hwf as [_ ->]. fold n.
    apply (span_cells_lt n sz x y horizontal a Hsz Hcross Halong Ha). }
  unfold Board.drop_bomb. rewrite Hf, Hs. reflexivity.
Qed.

Lemma placed_ship_is_hit_where_placed_witness :
  let b := Board.init 12 [2; 3; 3; 4; 5] in
  snd (Board.drop_bomb 0 2 (fst (Board.place_ship 4 0 0 false b)))
  = Ok ShotResult.HIT.
Proof.
  intros b.
  destruct (placed_ship_is_hit_where_placed b 4 0 0 false [2; 3; 3; 5] 2
              (wf_init 12 [2; 3; 3; 4; 5])
              ltac:(simpl; lia) ltac:(simpl; lia) eq_refl) as [_ H].
  - intros a Ha. vm_compute in Ha.
    repeat (destruct Ha as [<-|Ha]; [reflexivity|]). destruct Ha.
  - lia.
  - exact H.
Defined.

(** * Further properties of the rounds *)

(** ** Points *)

Lemma scoring_points (b1 b2 : Board.t) :
  scoring b1 b2 = (2, 0) \/ scoring b1 b2 = (0, 2) \/
  scoring b1 b2 = (1, 1).
Proof.
  rewrite scoring_table.
  destruct (Board.still_floating b1), (Board.still_floating b2); auto.
Qed.

Lemma NaiveGame_round_points {St : Type} (self : NaiveGame.t St)
      (ch : Chance) (score : Z * Z) :
  run_result (NaiveGame._play_round self ch) = Some (Ok score) ->
  score = (2, 0) \/ score = (0, 2) \/ score = (1, 1).
Proof.
  unfold NaiveGame._play_round.
  destruct (NaiveGame.new_player self _ (seed1 ch)) as [st1|e];
    [|discriminate].
  destruct (NaiveGame.new_player self _ (seed2 ch)) as [st2|e];
    [|discriminate].
  unfold NaiveGame.play_from.
  match goal with
  | |- context [play_round_from ?su ?bd ?mt ?k ?s1 ?s2 ?tr ?sw] =>
      destruct (play_round_from_result su bd mt k s1 s2 tr sw)
        as (rs & res & -> & Hscore)
  end.
  simpl. intros ->. rewrite (Hscore score eq_refl). apply scoring_points.
Qed.

Lemma Game_round_points {St : Type}
      (TimedPlayer : Player.class St -> Player.class St)
      (self : NaiveGame.t St) (ch : Chance) (score : Z * Z) :
  run_result (Game._play_round TimedPlayer self ch) = Some (Ok score) ->
  score = (2, 0) \/ score = (0, 2) \/ score = (1, 1).
Proof.
  unfold Game._play_round.
  destruct (Game.new_player TimedPlayer self _ (seed1 ch)) as [r1 [o1|e]];
    [|discriminate].
  destruct (Game.new_player TimedPlayer self _ (seed2 ch)) as [r2 [o2|e]];
    [|discriminate].
  destruct o1 as [st1|], o2 as [st2|]; simpl;
    try (intros [= <-]; auto; fail).
  unfold Game.play_from.
  match goal with
  | |- context [play_round_from ?su ?bd ?mt ?k ?s1 ?s2 ?tr ?sw] =>
      destruct (play_round_from_result su bd mt k s1 s2 tr sw)
        as (rs & res & -> & Hscore)
  end.
  simpl. intros ->. rewrite (Hscore score eq_refl). apply scoring_points.
Qed.

(** The totals of a tournament whose rounds each hand out two points. *)
Lemma play_rounds_totals (round : nat -> Run) :
  (forall i score,
      run_result (round i) = Some (Ok score) ->
      score = (2, 0) \/ score = (0, 2) \/ score = (1, 1)) ->
  forall n i p q a b,
    play_rounds round n i p q = Some (Ok (a, b)) ->
    a + b = p + q + 2 * Z.of_nat n /\ p <= a /\ q <= b.
Proof.
  intros Hround n. induction n as [|n IH]; intros i p q a b H; simpl in H.
  - injection H as <- <-. lia.
  - specialize (Hround i).
    destruct (run_result (round i)) as [[[s1 s2]|e]|]; try discriminate.
    apply IH in H.
    destruct (Hround _ eq_refl) as [[= -> ->]|[[= -> ->]|[= -> ->]]]; lia.
Qed.

(** X9: a round that returns a score returns (2, 0), (0, 2) or (1, 1), in
    [NaiveGame] and in [Game]; so the totals [play] returns after [games]
    rounds are not negative and add up to twice the number of rounds
    played, which is [games], or 0 for a negative [games]. *)
Theorem tournament_points_add_up {St : Type}
        (TimedPlayer : Player.class St -> Player.class St)
        (self : NaiveGame.t St) (chance : nat -> Chance) (games : Z) :
  (forall ch score,
      run_result (NaiveGame._play_round self ch) = Some (Ok score) \/
      run_result (Game._play_round TimedPlayer self ch) = Some (Ok score) ->
      score = (2, 0) \/ score = (0, 2) \/ score = (1, 1)) /\
  (forall a b,
      NaiveGame.play self chance games = Some (Ok (a, b)) \/
      Game.play TimedPlayer self chance games = Some (Ok (a, b)) ->
      a + b = 2 * Z.max 0 games /\ 0 <= a /\ 0 <= b).
Proof.
  split.
  - intros ch score [H|H];
      [exact (NaiveGame_round_points self ch score H)
      |exact (Game_round_points TimedPlayer self ch score H)].
  - intros a b [H|H]; unfold NaiveGame.play, Game.play in H;
      apply play_rounds_totals in H;
      try (intros i score; first [apply NaiveGame_round_points
                                 |apply Game_round_points]); lia.
Qed.

Lemma tournament_points_add_up_witness :
  Game.play untimed thrower_game (fixed_chance false) 1000
  = Some (Ok (1000, 1000)) /\
  1000 + 1000 = 2 * Z.max 0 1000.
Proof.
  assert (Game.play untimed thrower_game (fixed_chance false) 1000
          = Some (Ok (1000, 1000))) as H by (vm_compute; reflexivity).
  split; [exact H|].
  destruct (tournament_points_add_up untimed thrower_game
              (fixed_chance false) 1000) as [_ Htot].
  destruct (Htot 1000 1000 (or_intror H)) as [Hsum _]. exact Hsum.
Defined.

(** ** Constructors that fail *)

(** X10: in a lenient round a constructor that raises anything but an
    interrupt forfeits the round: the score is (0, 2) if only player 1
    could not be built, (2, 0) if only player 2 could not, (1, 1) if
    neither could; both constructors are tried, and no method of either
    player is called. An interrupt from a constructor is raised on, and
    one from the first constructor keeps the second from running. The
    strict round raises whatever a constructor raises. *)
Theorem failed_constructor_forfeits {St : Type}
        (TimedPlayer : Player.class St -> Player.class St)
        (self : NaiveGame.t St) (ch : Chance) :
  let build base seed :=
    Player.construct base (NaiveGame.size self) (NaiveGame.max_turns self)
                     (NaiveGame.max_fn_time self)
                     (NaiveGame.feedback_delay self) (NaiveGame.ships self)
                     seed in
  let r1 := build (Game.instance_class TimedPlayer self
                                       (NaiveGame.p1_class self))
                  (seed1 ch) in
  let r2 := build (Game.instance_class TimedPlayer self
                                       (NaiveGame.p2_class self))
                  (seed2 ch) in
  let run := Game._play_round TimedPlayer self ch in
  let both := [mkEvent P2 Construct (raised r2);
               mkEvent P1 Construct (raised r1)] in
  (forall e, r1 = Raise e -> is_interrupt e = true ->
             run = mkRun [mkEvent P1 Construct (Some e)] None
                         (Some (Raise e))) /\
  (forall e, (forall e1, r1 = Raise e1 -> is_interrupt e1 = false) ->
             r2 = Raise e -> is_interrupt e = true ->
             run = mkRun both None (Some (Raise e))) /\
  (forall e1 e2, r1 = Raise e1 -> is_interrupt e1 = false ->
                 r2 = Raise e2 -> is_interrupt e2 = false ->
                 run = mkRun both None (Some (Ok (1, 1)))) /\
  (forall e1 st2, r1 = Raise e1 -> is_interrupt e1 = false ->
                  r2 = Ok st2 ->
                  run = mkRun both None (Some (Ok (0, 2)))) /\
  (forall st1 e2, r1 = Ok st1 ->
                  r2 = Raise e2 -> is_interrupt e2 = false ->
                  run = mkRun both None (Some (Ok (2, 0)))) /\
  (forall e, build (NaiveGame.p1_class self) (seed1 ch) = Raise e ->
             NaiveGame._play_round self ch
             = mkRun [mkEvent P1 Construct (Some e)] None
                     (Some (Raise e))) /\
  (forall st1 e, build (NaiveGame.p1_class self) (seed1 ch) = Ok st1 ->
                 build (NaiveGame.p2_class self) (seed2 ch) = Raise e ->
                 NaiveGame._play_round self ch
                 = mkRun [mkEvent P2 Construct (Some e);
                          mkEvent P1 Construct None] None
                         (Some (Raise e))).
Proof.
  intros build r1 r2 run both. subst run both.
  unfold Game._play_round, NaiveGame._play_round, Game.new_player,
    NaiveGame.new_player.
  fold (build (Game.instance_class TimedPlayer self
                 (NaiveGame.p1_class self)) (seed1 ch)).
  fold (build (Game.instance_class TimedPlayer self
                 (NaiveGame.p2_class self)) (seed2 ch)).
  fold r1 r2.
  fold (build (NaiveGame.p1_class self) (seed1 ch)).
  fold (build (NaiveGame.p2_class self) (seed2 ch)).
  repeat split.
  - intros e -> ->. reflexivity.
  - intros e H1 -> Hint. destruct r1 as [st1|e1].
    + simpl. rewrite Hint. reflexivity.
    + rewrite (H1 e1 eq_refl). simpl. rewrite Hint. reflexivity.
  - intros e1 e2 -> -> -> ->. reflexivity.
  - intros e1 st2 -> -> ->. reflexivity.
  - intros st1 e2 -> -> ->. reflexivity.
  - intros e ->. reflexivity.
  - intros st1 e -> ->. reflexivity.
Qed.

(** Player 1 of [unbuildable_game] cannot be built and forfeits. *)
Lemma failed_constructor_forfeits_witness :
  Game._play_round untimed unbuildable_game (mkChance false 0 0)
  = mkRun [mkEvent P2 Construct None;
           mkEvent P1 Construct (Some (OtherException 1))]
          None (Some (Ok (0, 2))).
Proof.
  destruct (failed_constructor_forfeits untimed unbuildable_game
              (mkChance false 0 0)) as (_ & _ & _ & H & _).
  exact (H (OtherException 1) [] eq_refl eq_refl eq_refl).
Defined.

(** ** Turns *)

Lemma drop_bomb_calls_app (s : Side) (evs tr : list Event) :
  drop_bomb_calls s (evs ++ tr)
  = (drop_bomb_calls s evs + drop_bomb_calls s tr)%nat.
Proof.
  unfold drop_bomb_calls. rewrite List.filter_app, length_app. reflexivity.
Qed.

Lemma drop_bomb_calls_preparation (s : Side) (evs : list Event) :
  Forall is_preparation evs -> drop_bomb_calls s evs = 0%nat.
Proof.
  unfold drop_bomb_calls.
  induction 1 as [|ev evs Hev _ IH]; [reflexivity|].
  simpl. unfold is_drop_bomb at 1.
  destruct Hev as [-> | ->]; exact IH.
Qed.

Section TurnBudget.
Context {St : Type}.
Variables c1 c2 : Player.class St.

(** A pass through either loop body asks the attacker for one bomb. *)
Lemma Game_turn_body_calls (att : Side) (rs rs' : Round St) (r : Res unit) :
  Game.turn_body c1 c2 att rs = (rs', r) ->
  drop_bomb_calls att (trace rs') = S (drop_bomb_calls att (trace rs)) /\
  drop_bomb_calls (other att) (trace rs')
  = drop_bomb_calls (other att) (trace rs).
Proof.
  intros H. apply Game_turn_body_cases in H.
  destruct H as (_ & _ & [H|[H|[H|H]]]).
  - destruct H as (e & _ & _ & _ & -> & _).
    destruct att; split; reflexivity.
  - destruct H as (x & y & _ & _ & _ & _ & -> & _).
    destruct att; split; reflexivity.
  - destruct H as (x & y & result & e & _ & _ & _ & _ & _ & _ & -> & _).
    destruct att; split; reflexivity.
  - destruct H as (x & y & result & o & fb & _ & _ & _ & _ & _ & H).
    cbv zeta in H. destruct fb as [[[x' y'] result']|].
    + destruct H as (o' & -> & _). destruct att; split; reflexivity.
    + destruct H as [-> _]. destruct att; split; reflexivity.
Qed.

Lemma NaiveGame_turn_body_calls (att : Side) (rs rs' : Round St)
      (r : Res unit) :
  NaiveGame.turn_body c1 c2 att rs = (rs', r) ->
  drop_bomb_calls att (trace rs') = S (drop_bomb_calls att (trace rs)) /\
  drop_bomb_calls (other att) (trace rs')
  = drop_bomb_calls (other att) (trace rs).
Proof.
  unfold NaiveGame.turn_body, bind, ret, raise, call_drop_bomb,
    board_drop_bomb, call_bombed_feedback, buffer_append, buffer_pop0,
    star_call, call_bomb_feedback, is_not_None.
  destruct att; simpl.
  - destruct (Player.drop_bomb c1 (p1 rs)) as [st [[x y]|e]];
      [simpl|simpl; intros [= <- <-]; split; reflexivity].
    destruct (Board.drop_bomb x y (p2_board rs)) as [b' [result|e]];
      [simpl|simpl; intros [= <- <-]; split; reflexivity].
    destruct (Player.bombed_feedback c2 x y result (p2 rs))
      as [st' [[]|e]];
      [simpl|simpl; intros [= <- <-]; split; reflexivity].
    match goal with
    | |- context [match ?l ++ [?v] with _ => _ end] =>
        destruct (l ++ [v]) as [|fb rest]
    end;
      [simpl; intros [= <- <-]; split; reflexivity|simpl].
    destruct fb as [[[x' y'] result']|];
      [simpl|simpl; intros [= <- <-]; split; reflexivity].
    destruct (Player.bomb_feedback c1 x' y' result' st) as [st'' res].
    intros [= <- <-]; split; reflexivity.
  - destruct (Player.drop_bomb c2 (p2 rs)) as [st [[x y]|e]];
      [simpl|simpl; intros [= <- <-]; split; reflexivity].
    destruct (Board.drop_bomb x y (p1_board rs)) as [b' [result|e]];
      [simpl|simpl; intros [= <- <-]; split; reflexivity].
    destruct (Player.bombed_feedback c1 x y result (p1 rs))
      as [st' [[]|e]];
      [simpl|simpl; intros [= <- <-]; split; reflexivity].
    match goal with
    | |- context [match ?l ++ [?v] with _ => _ end] =>
        destruct (l ++ [v]) as [|fb rest]
    end;
      [simpl; intros [= <- <-]; split; reflexivity|simpl].
    destruct fb as [[[x' y'] result']|];
      [simpl|simpl; intros [= <- <-]; split; reflexivity].
    destruct (Player.bomb_feedback c2 x' y' result' st) as [st'' res].
    intros [= <- <-]; split; reflexivity.
Qed.
End TurnBudget.

Lemma other_other (s : Side) : other (other s) = s.
Proof. destruct s; reflexivity. Qed.

Section TurnLoopBudget.
Context {St : Type}.
Variable max_turns : Z.
Variable body : Side -> M St unit.
Hypothesis Hbody :
  forall att rs rs' r,
    body att rs = (rs', r) ->
    drop_bomb_calls att (trace rs') = S (drop_bomb_calls att (trace rs)) /\
    drop_bomb_calls (other att) (trace rs')
    = drop_bomb_calls (other att) (trace rs).

Lemma turn_loop_budget (fuel : nat) (a : Side) (turn : Z)
      (rs rs' : Round St) (ex : LoopExit) :
  turn_loop max_turns body fuel [a; other a] turn rs = (rs', ex) ->
  exists na no : nat,
    drop_bomb_calls a (trace rs')
    = (drop_bomb_calls a (trace rs) + na)%nat /\
    drop_bomb_calls (other a) (trace rs')
    = (drop_bomb_calls (other a) (trace rs) + no)%nat /\
    (no <= na <= no + 1)%nat /\
    (na + no <= Z.to_nat (max_turns * 2 - turn))%nat /\
    (ex = Break ->
     (na + no)%nat = Z.to_nat (max_turns * 2 - turn) \/
     Board.still_floating
       (board (if (na =? no)%nat then a else other a) rs') = false).
Proof.
  revert a turn rs rs' ex.
  induction fuel as [|fuel IH]; intros a turn rs rs' ex H; simpl in H.
  - injection H as <- <-. exists 0%nat, 0%nat.
    repeat split; try lia. discriminate.
  - destruct (Board.still_floating (board a rs)) eqn:Hfloat; simpl in H.
    2:{ injection H as <- <-. exists 0%nat, 0%nat.
        repeat split; try lia. intros _. right. exact Hfloat. }
    destruct (Z.gtb_spec (turn + 1) (max_turns * 2)) as [Hover|Hleft].
    { injection H as <- <-. exists 0%nat, 0%nat.
      repeat split; lia. }
    destruct (body a rs) as [rs1 [[]|e]] eqn:Hb;
      destruct (Hbody a rs rs1 _ Hb) as [Ha Ho].
    + change ([other a] ++ [a]) with [other a; a] in H.
      rewrite <- (other_other a) in H at 2.
      apply IH in H.
      destruct H as (na & no & Hna & Hno & Hbal & Hsum & Hend).
      rewrite other_other in *.
      exists (S no), na.
      split; [lia|]. split; [lia|]. split; [lia|]. split; [lia|].
      intros Hex. destruct (Hend Hex) as [Hall|Hsunk]; [left; lia|].
      right. destruct (Nat.eqb_spec na no) as [Heq|Hne].
      * destruct (Nat.eqb_spec (S no) na); [lia|exact Hsunk].
      * destruct (Nat.eqb_spec (S no) na); [exact Hsunk|lia].
    + injection H as <- <-. exists 1%nat, 0%nat.
      split; [lia|]. split; [lia|]. split; [lia|]. split; [lia|].
      discriminate.
Qed.
End TurnLoopBudget.

(** A round in which the set-up asks for no bomb and each turn asks the
    attacker for one. *)
Lemma play_round_from_budget {St : Type}
      (set_up_ships : list Side -> M St unit) (body : Side -> M St unit)
      (max_turns feedback_delay : Z) (st1 st2 : St) (tr : list Event)
      (swap : bool) :
  (forall s, drop_bomb_calls s tr = 0%nat) ->
  (forall bunches rs rs' r s,
      set_up_ships bunches rs = (rs', r) ->
      drop_bomb_calls s (trace rs') = drop_bomb_calls s (trace rs)) ->
  (forall att rs rs' r,
      body att rs = (rs', r) ->
      drop_bomb_calls att (trace rs') = S (drop_bomb_calls att (trace rs)) /\
      drop_bomb_calls (other att) (trace rs')
      = drop_bomb_calls (other att) (trace rs)) ->
  turns_within_budget max_turns swap
    (play_round_from set_up_ships body max_turns feedback_delay
                     st1 st2 tr swap).
Proof.
  intros Htr Hset Hbody. unfold play_round_from, turns_within_budget.
  set (a := first_mover swap).
  assert (shuffled_bunches swap = [a; other a]) as ->
      by (destruct swap; reflexivity).
  destruct (set_up_ships _ _) as [rs1 [[]|e]] eqn:H1.
  2:{ simpl. rewrite (Hset _ _ _ _ a H1), (Hset _ _ _ _ (other a) H1).
      simpl. rewrite !Htr.
      repeat split; try lia. discriminate. }
  destruct (turn_loop _ _ _ _ _ _) as [rs2 ex] eqn:H2.
  destruct (turn_loop_budget max_turns body Hbody _ _ _ _ _ _ H2)
    as (na & no & Hna & Hno & Hbal & Hsum & Hend).
  rewrite (Hset _ _ _ _ a H1) in Hna.
  rewrite (Hset _ _ _ _ (other a) H1) in Hno. simpl in Hna, Hno.
  rewrite Htr in Hna, Hno. simpl in Hna, Hno.
  rewrite Z.sub_0_r in Hsum, Hend.
  assert (run_trace (match ex with
                     | Break =>
                         run_of rs2
                           (Some (Ok (scoring (p1_board rs2)
                                              (p2_board rs2))))
                     | Raised e => run_of rs2 (Some (Raise e))
                     | OutOfFuel => run_of rs2 None
                     end) = trace rs2) as Htrace by (destruct ex; reflexivity).
  rewrite Htrace, Hna, Hno.
  split; [lia|]. split; [lia|]. split; [lia|]. split; [lia|].
  intros boards score Hboards Hres.
  destruct ex; try discriminate Hres.
  injection Hboards as <-.
  destruct (Hend eq_refl) as [Hall|Hsunk]; [left; exact Hall|right].
  destruct (na =? no)%nat, a; exact Hsunk.
Qed.

Section NaiveGameSetUp.
Context {St : Type}.
Variables c1 c2 : Player.class St.

Lemma NaiveGame_place_ships_spec (s : Side) (ships : list Ship)
      (rs rs' : Round St) (r : Res unit) :
  NaiveGame.place_ships s ships rs = (rs', r) ->
  trace rs' = trace rs /\
  (forall s', buffer s' rs' = buffer s' rs) /\
  match r with Ok _ => True | Raise e => e = ValueError end.
Proof.
  revert rs. induction ships as [|ship ships IH]; intros rs.
  - intros [= <- <-]. auto.
  - simpl. unfold bind, board_place_ship.
    destruct ship as [[[sz x] y] h].
    destruct (place_ship_result sz x y h (board s rs)) as [Hr|Hr];
      destruct (Board.place_ship sz x y h (board s rs)) as [b res];
      simpl in Hr; subst res.
    + intros H. apply IH in H. destruct H as (-> & Hbuf & Hres).
      split; [destruct s; reflexivity|]. split; [|exact Hres].
      intros s'. rewrite Hbuf. destruct s, s'; reflexivity.
    + intros [= <- <-].
      split; [destruct s; reflexivity|]. split; [|reflexivity].
      intros s'. destruct s, s'; reflexivity.
Qed.

(** The strict set-up only adds [ship_locations] calls to the trace. *)
Lemma NaiveGame_set_up_ships_spec (bunches : list Side) (rs rs' : Round St)
      (r : Res unit) :
  NaiveGame.set_up_ships c1 c2 bunches rs = (rs', r) ->
  (forall s, buffer s rs' = buffer s rs) /\
  exists evs,
    trace rs' = evs ++ trace rs /\
    Forall (fun ev => ev_call ev = ShipLocations) evs.
Proof.
  revert rs. induction bunches as [|s bunches IH]; intros rs H.
  - injection H as <- <-. split; [auto|]. exists []. split; constructor.
  - simpl in H. unfold bind, call_ship_locations in H.
    destruct (Player.ship_locations (class_of c1 c2 s) (player s rs))
      as [st [ships|e]]; simpl in H.
    + destruct (NaiveGame.place_ships s ships _) as [rs1 res] eqn:Hp.
      apply NaiveGame_place_ships_spec in Hp.
      destruct Hp as (Htr & Hbuf & _).
      assert ((forall s', buffer s' rs' = buffer s' rs1) /\
              exists evs, trace rs' = evs ++ trace rs1 /\
                          Forall (fun ev => ev_call ev = ShipLocations) evs)
        as (Hbuf' & evs & Htr' & Hall).
      { destruct res as [[]|e].
        - apply IH in H. exact H.
        - injection H as <- <-. split; [auto|].
          exists []. split; constructor. }
      split; [intros s'; rewrite Hbuf', Hbuf; destruct s, s'; reflexivity|].
      exists (evs ++ [mkEvent s ShipLocations None]).
      split; [rewrite Htr', Htr, <- app_assoc; destruct s; reflexivity|].
      apply Forall_app. split; [exact Hall|].
      constructor; [reflexivity|constructor].
    + injection H as <- <-.
      split; [intros s'; destruct s, s'; reflexivity|].
      exists [mkEvent s ShipLocations (Some e)].
      split; [destruct s; reflexivity|].
      constructor; [reflexivity|constructor].
Qed.
End NaiveGameSetUp.

Lemma ship_locations_are_preparation (evs : list Event) :
  Forall (fun ev => ev_call ev = ShipLocations) evs ->
  Forall is_preparation evs.
Proof. induction 1; constructor; [right|]; assumption. Qed.

(** X11: in a round of [NaiveGame] or [Game] the two sides are asked for
    bombs in turn, at most [max_turns] times each, whatever the calls
    raise and however the round ends; a round that returns a score stopped
    because the turns were used up or because the side to move had
    nothing afloat. *)
Theorem rounds_keep_the_turn_budget {St : Type}
        (TimedPlayer : Player.class St -> Player.class St)
        (self : NaiveGame.t St) (ch : Chance) :
  turns_within_budget (NaiveGame.max_turns self) (swaps ch)
                      (NaiveGame._play_round self ch) /\
  turns_within_budget (NaiveGame.max_turns self) (swaps ch)
                      (Game._play_round TimedPlayer self ch).
Proof.
  assert (forall tr res,
             Forall is_preparation tr ->
             turns_within_budget (NaiveGame.max_turns self) (swaps ch)
                                 (mkRun tr None res)) as Hearly.
  { intros tr res Htr. unfold turns_within_budget. simpl.
    rewrite !(drop_bomb_calls_preparation _ tr Htr).
    repeat split; try lia. discriminate. }
  assert (forall o1 o2 s,
             drop_bomb_calls s [mkEvent P2 Construct o2;
                                mkEvent P1 Construct o1] = 0%nat) as Hbuilt
      by (intros o1 o2 s; reflexivity).
  split.
  - unfold NaiveGame._play_round.
    destruct (NaiveGame.new_player self _ (seed1 ch)) as [st1|e].
    2:{ apply Hearly. repeat constructor. }
    destruct (NaiveGame.new_player self _ (seed2 ch)) as [st2|e].
    2:{ apply Hearly. repeat constructor. }
    unfold NaiveGame.play_from. apply play_round_from_budget.
    + apply Hbuilt.
    + intros bunches rs rs' r s H.
      apply NaiveGame_set_up_ships_spec in H.
      destruct H as (_ & evs & -> & Hall).
      rewrite drop_bomb_calls_app, drop_bomb_calls_preparation;
        [reflexivity|apply ship_locations_are_preparation, Hall].
    + apply NaiveGame_turn_body_calls.
  - unfold Game._play_round.
    destruct (Game.new_player TimedPlayer self _ (seed1 ch)) as [r1 [o1|e]].
    2:{ apply Hearly. repeat constructor. }
    destruct (Game.new_player TimedPlayer self _ (seed2 ch)) as [r2 [o2|e]].
    2:{ apply Hearly. repeat constructor. }
    destruct o1 as [st1|], o2 as [st2|];
      try (apply Hearly; repeat constructor).
    unfold Game.play_from. apply play_round_from_budget.
    + apply Hbuilt.
    + intros bunches rs rs' r s H.
      apply Game_set_up_ships_spec in H.
      destruct H as (_ & _ & evs & -> & Hall & _).
      rewrite drop_bomb_calls_app, drop_bomb_calls_preparation;
        [reflexivity|apply ship_locations_are_preparation, Hall].
    + apply Game_turn_body_calls.
Qed.

(** In [delayed_game], of four turns a side, both players are asked for
    four bombs. *)
Lemma rounds_keep_the_turn_budget_witness :
  let run := Game._play_round untimed delayed_game (mkChance false 0 0) in
  drop_bomb_calls P1 (run_trace run) = 4%nat /\
  drop_bomb_calls P2 (run_trace run) = 4%nat /\
  turns_within_budget 4 false run.
Proof.
  intros run. split; [vm_compute; reflexivity|].
  split; [vm_compute; reflexivity|].
  exact (proj2 (rounds_keep_the_turn_budget untimed delayed_game
                                             (mkChance false 0 0))).
Defined.

(** ** The strict round and the feedback delay *)

Section StrictDelay.
Context {St : Type}.
Variables c1 c2 : Player.class St.

(** With an empty slot at the head of the attacker's buffer, a pass
    through the strict loop body raises: at the latest, the [TypeError] of
    unpacking the slot. *)
Lemma NaiveGame_turn_body_empty_slot (att : Side) (rs rs' : Round St)
      (r : Res unit) (rest : FeedbackBuffer) :
  buffer att rs = None :: rest ->
  NaiveGame.turn_body c1 c2 att rs = (rs', r) ->
  exists e, r = Raise e.
Proof.
  unfold NaiveGame.turn_body, bind, ret, raise, call_drop_bomb,
    board_drop_bomb, call_bombed_feedback, buffer_append, buffer_pop0,
    star_call, call_bomb_feedback, is_not_None.
  destruct att; simpl; intros Hbuf.
  - destruct (Player.drop_bomb c1 (p1 rs)) as [st [[x y]|e]];
      [simpl|simpl; intros [= <- <-]; eauto].
    destruct (Board.drop_bomb x y (p2_board rs)) as [b' [result|e]];
      [simpl|simpl; intros [= <- <-]; eauto].
    destruct (Player.bombed_feedback c2 x y result (p2 rs))
      as [st' [[]|e]];
      [simpl|simpl; intros [= <- <-]; eauto].
    rewrite Hbuf. simpl. intros [= <- <-]; eauto.
  - destruct (Player.drop_bomb c2 (p2 rs)) as [st [[x y]|e]];
      [simpl|simpl; intros [= <- <-]; eauto].
    destruct (Board.drop_bomb x y (p1_board rs)) as [b' [result|e]];
      [simpl|simpl; intros [= <- <-]; eauto].
    destruct (Player.bombed_feedback c1 x y result (p1 rs))
      as [st' [[]|e]];
      [simpl|simpl; intros [= <- <-]; eauto].
    rewrite Hbuf. simpl. intros [= <- <-]; eauto.
Qed.

Lemma NaiveGame_play_from_delay (self : NaiveGame.t St) (st1 st2 : St)
      (tr : list Event) (swap : bool) (score : Z * Z) :
  0 < NaiveGame.feedback_delay self ->
  Forall is_preparation tr ->
  let run := NaiveGame.play_from self c1 c2 st1 st2 tr swap in
  run_result run = Some (Ok score) ->
  Forall is_preparation (run_trace run) /\
  exists boards,
    run_boards run = Some boards /\
    (NaiveGame.max_turns self <= 0 \/
     Board.still_floating (board_of (first_mover swap) boards) = false).
Proof.
  intros Hk Htr run. subst run.
  unfold NaiveGame.play_from, play_round_from.
  set (a := first_mover swap).
  assert (shuffled_bunches swap = [a; other a]) as ->
      by (destruct swap; reflexivity).
  destruct (NaiveGame.set_up_ships c1 c2 _ _) as [rs1 [[]|e]] eqn:H1;
    [|discriminate].
  apply NaiveGame_set_up_ships_spec in H1.
  destruct H1 as (Hbuf & evs & Htr1 & Hall).
  assert (Forall is_preparation (trace rs1)) as Hprep.
  { rewrite Htr1. apply Forall_app. split; [|exact Htr].
    revert Hall. apply List.Forall_impl. intros ev H. right. exact H. }
  unfold loop_bound. simpl turn_loop.
  destruct (Board.still_floating (board a rs1)) eqn:Hfloat; simpl.
  2:{ intros _. split.
      - exact Hprep.
      - eexists. split; [reflexivity|]. right.
        destruct a; exact Hfloat. }
  destruct (Z.gtb_spec (0 + 1) (NaiveGame.max_turns self * 2))
    as [Hover|Hleft];
    simpl.
  { intros _. split.
    - exact Hprep.
    - eexists. split; [reflexivity|]. left. lia. }
  destruct (NaiveGame.turn_body c1 c2 a rs1) as [rs2 r] eqn:Hb.
  assert (exists rest, buffer a rs1 = None :: rest) as [rest Hhead].
  { rewrite Hbuf. unfold fresh_round, empty_buffer.
    destruct (Z.to_nat (NaiveGame.feedback_delay self)) as [|k] eqn:Hn;
      [lia|].
    exists (replicate k None). destruct a; reflexivity. }
  destruct (NaiveGame_turn_body_empty_slot a rs1 rs2 r rest Hhead Hb)
    as [e ->].
  discriminate.
Qed.
End StrictDelay.

(** X13: with [feedback_delay >= 1] a strict round never gets past its
    first turn: the first pass through the loop body pops an empty slot
    and raises. So a round of [NaiveGame] that returns a score has called
    nothing but the constructors and [ship_locations], and it was over
    before the first turn because [max_turns] is not positive or the
    first mover had nothing afloat. *)
Theorem strict_round_with_delay_never_plays {St : Type}
        (self : NaiveGame.t St) (ch : Chance) (score : Z * Z) :
  0 < NaiveGame.feedback_delay self ->
  let run := NaiveGame._play_round self ch in
  run_result run = Some (Ok score) ->
  Forall is_preparation (run_trace run) /\
  exists boards,
    run_boards run = Some boards /\
    (NaiveGame.max_turns self <= 0 \/
     Board.still_floating (board_of (first_mover (swaps ch)) boards)
     = false).
Proof.
  intros Hk run. subst run. unfold NaiveGame._play_round.
  destruct (NaiveGame.new_player self _ (seed1 ch)) as [st1|e];
    [|discriminate].
  destruct (NaiveGame.new_player self _ (seed2 ch)) as [st2|e];
    [|discriminate].
  apply NaiveGame_play_from_delay; [exact Hk|].
  repeat constructor.
Qed.

(** In [idle_delayed_game] the first mover has no ship: the round is
    scored at once. *)
Lemma strict_round_with_delay_never_plays_witness :
  let run := NaiveGame._play_round idle_delayed_game (mkChance false 0 0) in
  run_result run = Some (Ok (0, 2)) /\
  Forall is_preparation (run_trace run).
Proof.
  intros run.
  assert (run_result run = Some (Ok (0, 2))) as H
      by (vm_compute; reflexivity).
  split; [exact H|].
  assert (0 < NaiveGame.feedback_delay idle_delayed_game) as Hk
      by (simpl; lia).
  exact (proj1 (strict_round_with_delay_never_plays
                  idle_delayed_game (mkChance false 0 0) (0, 2) Hk H)).
Defined.

(** ** What the players are told *)

(** A shot that a board of a round resolves landed on the default grid. *)
Lemma resolved_shot_on_board (b : Board.t) (x y : Z)
      (result : ShotResult.t) :
  evolves Board.init_default b ->
  snd (Board.drop_bomb x y b) = Ok result ->
  feedback_on_board x y result.
Proof.
  intros Hb Hres. apply evolves_shape in Hb.
  destruct Hb as (Hsize & Hgrid & Hheap & _).
  change (Board.size Board.init_default) with 12 in *.
  assert (Board.wf b) as Hwf.
  { split; rewrite Hsize; [exact Hgrid|exact Hheap]. }
  unfold feedback_on_board, Board.default_size.
  destruct (decide (-12 <= x < 12 /\ -12 <= y < 12)) as [Hin|Hout].
  - split; [apply Hin|]. split; [apply Hin|].
    unfold Board.drop_bomb in Hres.
    destruct (Board.field_at b x y) as [f|]; [|discriminate].
    destruct (Board.state b f); injection Hres as <-; discriminate.
  - exfalso. unfold Board.drop_bomb in Hres.
    rewrite (field_at_out_of_range b Hwf) in Hres; [discriminate|].
    rewrite Hsize. exact Hout.
Qed.

Section FeedbackOnBoard.
Context {St : Type}.
Variables c1 c2 : Player.class St.

Lemma Game_turn_body_on_board (att : Side) (rs rs' : Round St)
      (r : Res unit) :
  on_board rs -> Game.turn_body c1 c2 att rs = (rs', r) -> on_board rs'.
Proof.
  intros (Hboards & Htrace & Hbufs) H.
  pose proof (evolve_Game_turn_body c1 c2 att rs rs' r H) as Hev.
  assert (forall s, evolves Board.init_default (board s rs')) as Hboards'
      by (intros s; exact (evolves_trans _ _ _ (Hboards s) (Hev s))).
  apply Game_turn_body_cases in H.
  destruct H as (_ & Htgt & H).
  assert (forall s, buffer att rs' = buffer att rs ->
                    Forall slot_on_board (buffer s rs')) as Hsame.
  { intros s Hatt.
    assert (s = att \/ s = other att) as [-> | ->]
        by (destruct s, att; auto).
    - rewrite Hatt. apply Hbufs.
    - rewrite Htgt. apply Hbufs. }
  split; [exact Hboards'|].
  destruct H as [H|[H|[H|H]]].
  - destruct H as (e & _ & _ & Hbuf & -> & _).
    split; [constructor; [exact I|exact Htrace]|].
    intros s. apply Hsame, Hbuf.
  - destruct H as (x & y & _ & _ & _ & Hbuf & -> & _).
    split; [constructor; [exact I|exact Htrace]|].
    intros s. apply Hsame, Hbuf.
  - destruct H as (x & y & result & e & _ & Hres & _ & Hbuf & _ & _
                   & -> & _).
    apply resolved_shot_on_board in Hres; [|apply Hboards].
    split; [constructor; [exact Hres|constructor; [exact I|exact Htrace]]|].
    intros s. apply Hsame, Hbuf.
  - destruct H as (x & y & result & o & fb & _ & Hres & _ & Hbuf & _ & H).
    apply resolved_shot_on_board in Hres; [|apply Hboards].
    assert (Forall slot_on_board (fb :: buffer att rs')) as Hslots.
    { rewrite <- Hbuf. apply Forall_app. split; [apply Hbufs|].
      constructor; [exact Hres|constructor]. }
    apply Forall_cons in Hslots. destruct Hslots as [Hfb Hrest].
    assert (Forall event_on_board
              (mkEvent (other att) (BombedFeedback x y result) o
                 :: mkEvent att DropBomb None :: trace rs)) as Htrace'
        by (constructor; [exact Hres|constructor; [exact I|exact Htrace]]).
    cbv zeta in H. split.
    + destruct fb as [[[x' y'] result']|].
      * destruct H as (o' & -> & _). constructor; [exact Hfb|exact Htrace'].
      * destruct H as [-> _]. exact Htrace'.
    + intros s.
      assert (s = att \/ s = other att) as [-> | ->]
          by (destruct s, att; auto).
      * exact Hrest.
      * rewrite Htgt. apply Hbufs.
Qed.

Lemma Game_set_up_ships_on_board (bunches : list Side) (rs rs' : Round St)
      (r : Res unit) :
  on_board rs -> Game.set_up_ships c1 c2 bunches rs = (rs', r) ->
  on_board rs'.
Proof.
  intros (Hboards & Htrace & Hbufs) H.
  pose proof (evolve_Game_set_up_ships c1 c2 bunches rs rs' r H) as Hev.
  apply Game_set_up_ships_spec in H.
  destruct H as (Hbuf & _ & evs & Htr & Hall & _).
  unfold on_board. rewrite Htr.
  split; [intros s; exact (evolves_trans _ _ _ (Hboards s) (Hev s))|].
  split.
  - apply Forall_app. split; [|exact Htrace].
    revert Hall. apply List.Forall_impl. intros ev Hev'.
    unfold event_on_board. rewrite Hev'. exact I.
  - intros s. rewrite Hbuf. apply Hbufs.
Qed.

Lemma Game_play_from_on_board (self : NaiveGame.t St) (st1 st2 : St)
      (tr : list Event) (swap : bool) :
  Forall event_on_board tr ->
  Forall event_on_board
         (run_trace (Game.play_from self c1 c2 st1 st2 tr swap)).
Proof.
  intros Htr. unfold Game.play_from.
  destruct (play_round_from_invariant
              on_board (fun _ => on_board)
              (Game.set_up_ships c1 c2) (Game.turn_body c1 c2)
              (NaiveGame.max_turns self) (NaiveGame.feedback_delay self)
              st1 st2 tr swap)
    as (rs & res & -> & H).
  - split; [intros s; destruct s; apply evolves_refl|].
    split; [exact Htr|].
    intros s. unfold fresh_round, empty_buffer.
    destruct s; simpl; apply Forall_replicate; exact I.
  - intros bunches rs rs' r Hrs Hrun.
    destruct r; exact (Game_set_up_ships_on_board _ _ _ _ Hrs Hrun).
  - intros att rs rs' r Hrs Hrun.
    destruct r; exact (Game_turn_body_on_board _ _ _ _ Hrs Hrun).
  - simpl. destruct res as [[score|e]|]; [apply H|apply H|destruct H].
Qed.
End FeedbackOnBoard.

(** X12: the players are only told of shots that landed on the board of
    the round: in every [bomb_feedback] and [bombed_feedback] call of a
    lenient round, however it ends, and of a strict round that returns a
    score, both coordinates lie in [-12, 12) and the result is not
    [INVALID], whatever board size the game is configured with. *)
Theorem feedback_names_fields_of_the_board {St : Type}
        (TimedPlayer : Player.class St -> Player.class St)
        (self : NaiveGame.t St) (ch : Chance) :
  Forall event_on_board (run_trace (Game._play_round TimedPlayer self ch)) /\
  (forall score,
      run_result (NaiveGame._play_round self ch) = Some (Ok score) ->
      Forall event_on_board (run_trace (NaiveGame._play_round self ch))).
Proof.
  split.
  - unfold Game._play_round.
    destruct (Game.new_player TimedPlayer self _ (seed1 ch)) as [r1 [o1|e]];
      [|repeat constructor].
    destruct (Game.new_player TimedPlayer self _ (seed2 ch)) as [r2 [o2|e]];
      [|repeat constructor].
    destruct o1 as [st1|], o2 as [st2|]; try (repeat constructor; fail).
    apply Game_play_from_on_board. repeat constructor.
  - intros score. unfold NaiveGame._play_round.
    destruct (NaiveGame.new_player self _ (seed1 ch)) as [st1|e];
      [|discriminate].
    destruct (NaiveGame.new_player self _ (seed2 ch)) as [st2|e];
      [|discriminate].
    intros H. rewrite <- (NaiveGame_play_from_ok _ _ _ _ _ _ _ _ H).
    apply Game_play_from_on_board. repeat constructor.
Qed.

(** In [plain_game] player 1's shot at (-1, 0) is reported as such, a hit
    on the ship at (11, 0). *)
Lemma feedback_names_fields_of_the_board_witness :
  let run := NaiveGame._play_round plain_game (mkChance false 0 0) in
  run_result run = Some (Ok (1, 1)) /\
  shots_by P1 (rev (run_trace run)) = [(-1, 0, ShotResult.HIT)] /\
  Forall event_on_board (run_trace run).
Proof.
  intros run.
  assert (run_result run = Some (Ok (1, 1))) as H
      by (vm_compute; reflexivity).
  split; [exact H|]. split; [vm_compute; reflexivity|].
  exact (proj2 (feedback_names_fields_of_the_board
                  untimed plain_game (mkChance false 0 0)) (1, 1) H).
Defined.

(** ** Setting up: skipping and stopping *)

Lemma set_board_same {St : Type} (s : Side) (rs : Round St) :
  set_board s (board s rs) rs = rs.
Proof. destruct rs, s; reflexivity. Qed.

Lemma set_board_twice {St : Type} (s : Side) (b b' : Board.t)
      (rs : Round St) :
  set_board s b' (set_board s b rs) = set_board s b' rs.
Proof. destruct s; reflexivity. Qed.

Lemma board_set_board {St : Type} (s : Side) (b : Board.t) (rs : Round St) :
  board s (set_board s b rs) = b.
Proof. destruct s; reflexivity. Qed.

Lemma place_all_cons (ship : Ship) (ships : list Ship) (b : Board.t) :
  place_all (ship :: ships) b
  = place_all ships
      (let '(sz, x, y, h) := ship in fst (Board.place_ship sz x y h b)).
Proof. destruct ship as [[[sz x] y] h]. reflexivity. Qed.

Lemma place_all_app (ships ships' : list Ship) (b : Board.t) :
  place_all (ships ++ ships') b = place_all ships' (place_all ships b).
Proof. unfold place_all. apply foldl_app. Qed.

Section SetUp.
Context {St : Type}.

(** The lenient placement loop tries every request. *)
Lemma Game_place_ships_all (s : Side) (ships : list Ship) (rs : Round St) :
  Game.place_ships s ships rs
  = (set_board s (place_all ships (board s rs)) rs, Ok tt).
Proof.
  revert rs. induction ships as [|ship ships IH]; intros rs.
  - simpl. unfold ret. rewrite set_board_same. reflexivity.
  - rewrite place_all_cons. simpl. unfold try_except, board_place_ship.
    destruct ship as [[[sz x] y] h].
    destruct (place_ship_result sz x y h (board s rs)) as [Hr|Hr];
      destruct (Board.place_ship sz x y h (board s rs)) as [b res];
      simpl in Hr; subst res; simpl;
      rewrite IH, board_set_board, set_board_twice; reflexivity.
Qed.

(** The strict placement loop stops at the first request that fails. *)
Lemma NaiveGame_place_ships_stops (s : Side) (ships : list Ship)
      (rs rs' : Round St) (r : Res unit) :
  NaiveGame.place_ships s ships rs = (rs', r) ->
  match r with
  | Ok _ => rs' = set_board s (place_all ships (board s rs)) rs
  | Raise e =>
      e = ValueError /\
      exists placed sz x y h rest,
        ships = placed ++ (sz, x, y, h) :: rest /\
        snd (Board.place_ship sz x y h (place_all placed (board s rs)))
        = Raise ValueError /\
        rs' = set_board s (place_all (placed ++ [(sz, x, y, h)])
                                     (board s rs)) rs
  end.
Proof.
  revert rs. induction ships as [|ship ships IH]; intros rs.
  - intros [= <- <-]. simpl. rewrite set_board_same. reflexivity.
  - cbn [NaiveGame.place_ships]. unfold bind, board_place_ship.
    destruct ship as [[[sz x] y] h].
    destruct (place_ship_result sz x y h (board s rs)) as [Hr|Hr];
      destruct (Board.place_ship sz x y h (board s rs)) as [b res] eqn:Hp;
      simpl in Hr; subst res.
    + intros H. apply IH in H. rewrite board_set_board in H.
      assert (b = fst (Board.place_ship sz x y h (board s rs))) as Hb
          by (rewrite Hp; reflexivity).
      destruct r as [[]|e].
      * rewrite H, set_board_twice, place_all_cons, Hb. reflexivity.
      * destruct H as (-> & placed & sz' & x' & y' & h' & rest & -> & Hf
                       & ->).
        split; [reflexivity|].
        exists ((sz, x, y, h) :: placed), sz', x', y', h', rest.
        split; [reflexivity|].
        rewrite <- app_comm_cons, !place_all_cons, <- Hb.
        split; [exact Hf|]. rewrite set_board_twice. reflexivity.
    + intros [= <- <-]. split; [reflexivity|].
      exists [], sz, x, y, h, ships. split; [reflexivity|].
      split; [simpl; rewrite Hp; reflexivity|].
      simpl. unfold place_all. simpl. rewrite Hp. reflexivity.
Qed.
End SetUp.

(** ** The boards and the reported results *)

Lemma bomb_all_snoc (shots : list (Z * Z)) (x y : Z) (b : Board.t) :
  bomb_all (shots ++ [(x, y)]) b
  = fst (Board.drop_bomb x y (bomb_all shots b)).
Proof. unfold bomb_all. rewrite foldl_app. reflexivity. Qed.

Lemma replay_app (shots shots' : list (Z * Z)) (b : Board.t) :
  replay (shots ++ shots') b
  = replay shots b ++ replay shots' (bomb_all shots b).
Proof.
  revert b. induction shots as [|[x y] shots IH]; intros b; [reflexivity|].
  simpl. change (bomb_all ((x, y) :: shots) b)
    with (bomb_all shots (fst (Board.drop_bomb x y b))).
  destruct (Board.drop_bomb x y b) as [b' [result|e]]; simpl;
    rewrite IH; reflexivity.
Qed.

Lemma replayed_snoc (ships : list Ship) (shots : list Shot) (b : Board.t)
      (x y : Z) (result : ShotResult.t) :
  replayed ships shots b ->
  snd (Board.drop_bomb x y b) = Ok result ->
  replayed ships (shots ++ [(x, y, result)]) (fst (Board.drop_bomb x y b)).
Proof.
  unfold replayed. intros [Hb Hs] Hres.
  rewrite fmap_app. simpl. rewrite bomb_all_snoc, replay_app, <- Hb, <- Hs.
  split; [reflexivity|]. simpl.
  destruct (Board.drop_bomb x y b) as [b' res]. simpl in Hres. subst res.
  reflexivity.
Qed.

Lemma preparation_shots_by (s : Side) (tr : list Event) :
  Forall is_preparation tr -> shots_by s (rev tr) = [].
Proof.
  intros H. apply silent_shots_by, List.Forall_rev.
  revert H. apply List.Forall_impl. intros ev Hev.
  apply silent_unless_feedback. destruct Hev as [-> | ->]; exact I.
Qed.

Section Replay.
Context {St : Type}.
Variables c1 c2 : Player.class St.

(** What a pass through the lenient loop body adds to the resolved
    shots. *)
Lemma Game_turn_body_shots (att : Side) (rs rs' : Round St) (r : Res unit) :
  Game.turn_body c1 c2 att rs = (rs', r) ->
  board att rs' = board att rs /\
  shots_by (other att) (rev (trace rs'))
  = shots_by (other att) (rev (trace rs)) /\
  ((board (other att) rs' = board (other att) rs /\
    shots_by att (rev (trace rs')) = shots_by att (rev (trace rs))) \/
   (exists x y result,
       snd (Board.drop_bomb x y (board (other att) rs)) = Ok result /\
       board (other att) rs'
       = fst (Board.drop_bomb x y (board (other att) rs)) /\
       shots_by att (rev (trace rs'))
       = shots_by att (rev (trace rs)) ++ [(x, y, result)])).
Proof.
  intros H. apply Game_turn_body_cases in H.
  destruct H as (Hatt & _ & H). split; [exact Hatt|].
  destruct H as [H|[H|[H|H]]].
  - destruct H as (e & _ & Hb & _ & -> & _).
    simpl. rewrite !shots_by_app.
    split; [destruct att; apply app_nil_r|]. left.
    split; [exact Hb|destruct att; apply app_nil_r].
  - destruct H as (x & y & _ & _ & Hb & _ & -> & _).
    simpl. rewrite !shots_by_app.
    split; [destruct att; apply app_nil_r|]. left.
    split; [exact Hb|destruct att; apply app_nil_r].
  - destruct H as (x & y & result & e & _ & Hres & Hb & _ & _ & _ & ->
                   & _).
    simpl. rewrite !shots_by_app.
    split; [destruct att; simpl; rewrite !app_nil_r; reflexivity|]. right.
    exists x, y, result. split; [exact Hres|]. split; [exact Hb|].
    destruct att; simpl; rewrite <- app_assoc; reflexivity.
  - destruct H as (x & y & result & o & fb & _ & Hres & Hb & _ & _ & H).
    cbv zeta in H.
    assert (trace rs' = mkEvent (other att) (BombedFeedback x y result) o
                          :: mkEvent att DropBomb None :: trace rs \/
            exists x' y' result' o',
              trace rs' = mkEvent att (BombFeedback x' y' result') o'
                            :: mkEvent (other att)
                                 (BombedFeedback x y result) o
                            :: mkEvent att DropBomb None :: trace rs)
      as [-> | (x' & y' & result' & o' & ->)].
    { destruct fb as [[[x' y'] result']|].
      - destruct H as (o' & Htr & _). right. eauto.
      - destruct H as [Htr _]. left. exact Htr. }
    + simpl. rewrite !shots_by_app.
      split; [destruct att; simpl; rewrite !app_nil_r; reflexivity|]. right.
      exists x, y, result. split; [exact Hres|]. split; [exact Hb|].
      destruct att; simpl; rewrite <- app_assoc; reflexivity.
    + simpl. rewrite !shots_by_app.
      split; [destruct att; simpl; rewrite !app_nil_r; reflexivity|]. right.
      exists x, y, result. split; [exact Hres|]. split; [exact Hb|].
      destruct att; simpl; rewrite <- !app_assoc; reflexivity.
Qed.

(** The lenient set-up places, on each board, the ships it was given for
    it, in order. *)
Lemma Game_set_up_ships_boards (bunches : list Side) (rs rs' : Round St)
      (r : Res unit) :
  Game.set_up_ships c1 c2 bunches rs = (rs', r) ->
  exists ships : Side -> list Ship,
    forall s, board s rs' = place_all (ships s) (board s rs).
Proof.
  revert rs. induction bunches as [|s0 bunches IH]; intros rs H.
  - injection H as <- <-. exists (fun _ => []). reflexivity.
  - simpl in H. unfold bind, Game.isolate, try_except, ret, raise,
                  call_ship_locations in H.
    destruct (Player.ship_locations (class_of c1 c2 s0) (player s0 rs))
      as [st [ships0|e]]; simpl in H.
    + rewrite Game_place_ships_all in H. apply IH in H.
      destruct H as [ships H].
      exists (fun s => if Side_eqb s s0 then ships0 ++ ships s
                       else ships s).
      intros s. rewrite H.
      destruct s, s0; simpl; rewrite ?place_all_app; reflexivity.
    + destruct (is_interrupt e); simpl in H.
      * injection H as <- <-. exists (fun _ => []).
        intros s. destruct s, s0; reflexivity.
      * apply IH in H. destruct H as [ships H]. exists ships.
        intros s. rewrite H. destruct s, s0; reflexivity.
Qed.

Lemma Game_play_from_replays (self : NaiveGame.t St) (st1 st2 : St)
      (tr : list Event) (swap : bool) :
  Forall is_preparation tr ->
  let run := Game.play_from self c1 c2 st1 st2 tr swap in
  exists b1 b2 ships1 ships2,
    run_boards run = Some (b1, b2) /\
    replayed ships1 (shots_by P2 (rev (run_trace run))) b1 /\
    replayed ships2 (shots_by P1 (rev (run_trace run))) b2.
Proof.
  intros Htr run. subst run. unfold Game.play_from, play_round_from.
  destruct (Game.set_up_ships c1 c2 _ _) as [rs1 r1] eqn:H1.
  destruct (Game_set_up_ships_boards _ _ _ _ H1) as [ships Hships].
  apply Game_set_up_ships_spec in H1.
  destruct H1 as (_ & _ & evs & Htr1 & Hall & _).
  set (J := fun rs : Round St =>
              forall s, replayed (ships (other s))
                                 (shots_by s (rev (trace rs)))
                                 (board (other s) rs)).
  assert (J rs1) as J1.
  { intros s. rewrite Htr1, preparation_shots_by.
    - rewrite Hships. split; [destruct s; reflexivity|reflexivity].
    - apply Forall_app. split; [|exact Htr].
      revert Hall. apply List.Forall_impl. intros ev H. right. exact H. }
  assert (forall rs, J rs ->
            exists b1 b2 ships1 ships2,
              Some (p1_board rs, p2_board rs) = Some (b1, b2) /\
              replayed ships1 (shots_by P2 (rev (trace rs))) b1 /\
              replayed ships2 (shots_by P1 (rev (trace rs))) b2) as Hend.
  { intros rs HJ. exists (p1_board rs), (p2_board rs), (ships P1), (ships P2).
    split; [reflexivity|]. split; [exact (HJ P2)|exact (HJ P1)]. }
  destruct r1 as [[]|e]; [|apply Hend, J1].
  destruct (turn_loop _ _ _ _ _ _) as [rs2 ex] eqn:H2.
  assert (J rs2) as J2.
  { assert (forall att rs rs' r,
               J rs -> Game.turn_body c1 c2 att rs = (rs', r) ->
               match r with Ok _ => J rs' | Raise _ => J rs' end) as Hbody.
    { intros att rs rs' r HJ Hb.
      assert (J rs') as HJ'; [|destruct r; exact HJ'].
      apply Game_turn_body_shots in Hb.
      destruct Hb as (Hatt & Hother & Hb). intros s.
      assert (s = att \/ s = other att) as [-> | ->]
          by (destruct s, att; auto).
      - destruct Hb as [[Hb Hs]|(x & y & result & Hres & Hb & Hs)];
          rewrite Hb, Hs; [apply HJ|].
        apply replayed_snoc; [apply HJ|exact Hres].
      - rewrite Hother, other_other, Hatt.
        specialize (HJ (other att)). rewrite other_other in HJ. exact HJ. }
    pose proof (turn_loop_invariant
                  (NaiveGame.max_turns self) (Game.turn_body c1 c2)
                  J (fun _ => J) Hbody _ _ _ _ _ _ H2 J1) as Hex.
    destruct ex; try exact Hex.
    exfalso. apply (turn_loop_from_start (NaiveGame.max_turns self)
                      (Game.turn_body c1 c2)
                      (shuffled_bunches swap) rs1).
    rewrite H2. reflexivity. }
  destruct ex; apply Hend, J2.
Qed.
End Replay.

(** X15: the boards a round ends with and the results it reported are
    those of a replay: each final board is a default board on which some
    ship requests were tried in order and which was then bombed at the
    opponent's resolved shots, in the order and with the results the trace
    shows; no other shot and no later placement touched it. This holds of
    a lenient round that got as far as the boards, however it ends, and of
    a strict round that returns a score. *)
Theorem round_is_a_replay {St : Type}
        (TimedPlayer : Player.class St -> Player.class St)
        (self : NaiveGame.t St) (ch : Chance) :
  (let run := Game._play_round TimedPlayer self ch in
   match run_boards run with
   | Some (b1, b2) =>
       exists ships1 ships2,
         replayed ships1 (shots_by P2 (rev (run_trace run))) b1 /\
         replayed ships2 (shots_by P1 (rev (run_trace run))) b2
   | None => True
   end) /\
  (let run := NaiveGame._play_round self ch in
   forall score,
     run_result run = Some (Ok score) ->
     exists b1 b2 ships1 ships2,
       run_boards run = Some (b1, b2) /\
       replayed ships1 (shots_by P2 (rev (run_trace run))) b1 /\
       replayed ships2 (shots_by P1 (rev (run_trace run))) b2).
Proof.
  split.
  - unfold Game._play_round.
    destruct (Game.new_player TimedPlayer self _ (seed1 ch)) as [r1 [o1|e]];
      [|exact I].
    destruct (Game.new_player TimedPlayer self _ (seed2 ch)) as [r2 [o2|e]];
      [|exact I].
    destruct o1 as [st1|], o2 as [st2|]; try exact I.
    match goal with
    | |- context [Game.play_from ?g ?c1 ?c2 ?s1 ?s2 ?tr ?sw] =>
        destruct (Game_play_from_replays c1 c2 g s1 s2 tr sw)
          as (b1 & b2 & ships1 & ships2 & Hb & H1 & H2);
          [repeat constructor|]
    end.
    cbv zeta. rewrite Hb. eauto.
  - intros run score. subst run. unfold NaiveGame._play_round.
    destruct (NaiveGame.new_player self _ (seed1 ch)) as [st1|e];
      [|discriminate].
    destruct (NaiveGame.new_player self _ (seed2 ch)) as [st2|e];
      [|discriminate].
    intros H. rewrite <- (NaiveGame_play_from_ok _ _ _ _ _ _ _ _ H).
    apply Game_play_from_replays. repeat constructor.
Qed.

(** [plain_game]: the board of player 2 is the default board with the
    ship at (10, 0), bombed at (-1, 0). *)
Lemma round_is_a_replay_witness :
  let run := NaiveGame._play_round plain_game (mkChance false 0 0) in
  run_result run = Some (Ok (1, 1)) /\
  shots_by P1 (rev (run_trace run)) = [(-1, 0, ShotResult.HIT)] /\
  exists b1 b2 ships1 ships2,
    run_boards run = Some (b1, b2) /\
    replayed ships1 (shots_by P2 (rev (run_trace run))) b1 /\
    replayed ships2 (shots_by P1 (rev (run_trace run))) b2.
Proof.
  intros run.
  assert (run_result run = Some (Ok (1, 1))) as H
      by (vm_compute; reflexivity).
  split; [exact H|]. split; [vm_compute; reflexivity|].
  exact (proj2 (round_is_a_replay untimed plain_game (mkChance false 0 0))
               (1, 1) H).
Defined.

(** * Further properties of the board: where ships can go *)

(** A slice of [sz > 0] cells asked for from [start] has [sz] cells only
    if the span stays on one side of index 0 and within the list. *)
Lemma py_slice_full {A : Type} (l : list A) (start sz : Z) :
  0 < sz ->
  Z.of_nat (length (py_slice l start (start + sz))) = sz ->
  (- Z.of_nat (length l) <= start /\ start + sz < 0) \/
  (0 <= start /\ start + sz <= Z.of_nat (length l)).
Proof.
  intros Hsz. unfold py_slice, slice_bound.
  rewrite length_take, length_drop.
  destruct (Z.ltb_spec start 0), (Z.ltb_spec (start + sz) 0); lia.
Qed.

Lemma py_index_Some_range {A : Type} (l : list A) (i : Z) (a : A) :
  py_index l i = Some a ->
  - Z.of_nat (length l) <= i < Z.of_nat (length l).
Proof.
  intros H.
  destruct (decide (- Z.of_nat (length l) <= i < Z.of_nat (length l)))
    as [Hin|Hout]; [exact Hin|].
  rewrite (py_index_out_of_range l i Hout) in H. discriminate.
Qed.

Lemma fresh_grid_row_length (n : nat) (row : list nat) :
  In row (Board.fresh_grid n) -> length row = n.
Proof.
  unfold Board.fresh_grid. intros H.
  apply list_elem_of_In, list_elem_of_fmap in H.
  destruct H as (r & -> & _). apply length_fresh_row.
Qed.

(** Where an accepted ship of size [sz > 0] starts. *)
Lemma accepted_ship_geometry (b : Board.t) (sz x y : Z) (horizontal : bool) :
  Board.wf b ->
  0 < sz ->
  snd (Board.place_ship sz x y horizontal b) = Ok tt ->
  let N := Z.of_nat (Z.to_nat (Board.size b)) in
  (let cross := if horizontal then y else x in - N <= cross < N) /\
  (let along := if horizontal then x else y in
   (- N <= along /\ along + sz < 0) \/ (0 <= along /\ along + sz <= N)).
Proof.
  intros Hwf Hsz Hok N. set (n := Z.to_nat (Board.size b)) in *.
  destruct (place_ship_ok_fields sz x y horizontal b Hok)
    as (rem & fields & Hrem & Hf & Hlen).
  destruct Hwf as [Hg _].
  unfold Board.ship_fields in Hf. simpl in Hf. rewrite Hg in Hf.
  fold n in Hf. destruct horizontal; simpl.
  - destruct (py_index (Board.fresh_grid n) y) as [row|] eqn:Hrow;
      [|discriminate].
    simpl in Hf. injection Hf as <-.
    pose proof (py_index_Some_range _ _ _ Hrow) as Hy.
    rewrite length_fresh_grid in Hy. fold N in Hy. split; [exact Hy|].
    apply py_index_Some_In, fresh_grid_row_length in Hrow.
    pose proof (py_slice_full row x sz Hsz Hlen) as Hx.
    rewrite Hrow in Hx. exact Hx.
  - pose proof (comprehension_length _ _ _ Hf) as Hl.
    rewrite Hl in Hlen.
    pose proof (py_slice_full _ y sz Hsz Hlen) as Hy.
    rewrite length_fresh_grid in Hy. fold N in Hy. split; [|exact Hy].
    destruct (py_slice (Board.fresh_grid n) y (y + sz))
      as [|row rows] eqn:Hs; [simpl in Hlen; lia|].
    simpl in Hf.
    destruct (py_index row x) as [a|] eqn:Ha; [|discriminate].
    pose proof (py_index_Some_range _ _ _ Ha) as Hx.
    assert (In row (Board.fresh_grid n)) as Hrow
        by (apply (py_slice_In _ y (y + sz)); rewrite Hs; left;
            reflexivity).
    apply fresh_grid_row_length in Hrow. rewrite Hrow in Hx. exact Hx.
Qed.

(** X16: on a well-formed board of size N, [place_ship] accepts a ship of
    size [sz > 0] only where it fits: the coordinate across the ship lies
    in [-N, N), the span along it lies within [0, N] or, for a negative
    start of at least -N, ends before index 0; the size was among the
    remaining ones, and the ship occupies the cells of the span, all of
    which were empty. With the converse shown for C9 this says exactly
    which requests are accepted. *)
Theorem accepted_ship_fits (b : Board.t) (sz x y : Z) (horizontal : bool) :
  Board.wf b ->
  0 < sz ->
  snd (Board.place_ship sz x y horizontal b) = Ok tt ->
  let n := Z.to_nat (Board.size b) in
  let N := Z.of_nat n in
  (let cross := if horizontal then y else x in - N <= cross < N) /\
  (let along := if horizontal then x else y in
   (- N <= along /\ along + sz < 0) \/ (0 <= along /\ along + sz <= N)) /\
  (exists rem, py_remove sz (Board._remaining_ships b) = Some rem) /\
  (forall a, In a (span_cells n sz x y horizontal) ->
             Board.state b a = FieldState.EMPTY) /\
  Board._ships (fst (Board.place_ship sz x y horizontal b))
  = Board._ships b ++ [span_cells n sz x y horizontal].
Proof.
  intros Hwf Hsz Hok n N.
  destruct (place_ship_ok_fields sz x y horizontal b Hok)
    as (rem & fields & Hrem & Hf & Hlen).
  destruct (accepted_ship_geometry b sz x y horizontal Hwf Hsz Hok)
    as [Hcross Halong].
  fold n N in Hcross, Halong.
  split; [exact Hcross|]. split; [exact Halong|].
  split; [exists rem; exact Hrem|].
  assert (0 <= sz) as Hsz' by lia.
  pose proof (ship_fields_in_range b Hwf sz x y horizontal Hsz'
                                   Hcross Halong rem) as Hspan.
  fold n in Hspan. rewrite Hspan in Hf. injection Hf as <-.
  unfold Board.place_ship in Hok |- *. rewrite Hrem in Hok |- *.
  rewrite Hspan in Hok |- *.
  destruct (negb _); [discriminate|].
  destruct (forallb _ _) eqn:Hall; [|discriminate].
  split; [|reflexivity].
  intros a Ha. rewrite forallb_forall in Hall.
  apply FieldState_eqb_eq. exact (Hall a Ha).
Qed.

(** The ship of size 3 at (1, 2) on a board of size 5. *)
Lemma accepted_ship_fits_witness :
  let b := Board.init 5 [3; 2] in
  (0 <= 1 /\ 1 + 3 <= 5) /\
  Board._ships (fst (Board.place_ship 3 1 2 true b)) = [[11; 12; 13]%nat].
Proof.
  intros b.
  destruct (accepted_ship_fits b 3 1 2 true (wf_init 5 [3; 2])
                               ltac:(lia) eq_refl)
    as (_ & Halong & _ & _ & Hships).
  split; [simpl in Halong; lia|exact Hships].
Defined.

(** * The sample players *)

(** ** The ships of [StrategicPlayer] *)

Lemma strategic_request (self : StrategicPlayer.t) (i : nat)
      (sz x y : Z) (h : bool) :
  StrategicPlayer.ship_locations self !! i = Some (sz, x, y, h) ->
  sorted_reverse (StrategicPlayer.ships self) !! i = Some sz /\
  x = 2 * (StrategicPlayer.size self - 1 - 2 * Z.of_nat i) /\
  y = StrategicPlayer.size self - 1 - sz /\
  h = false.
Proof.
  unfold StrategicPlayer.ship_locations. rewrite list_lookup_imap.
  destruct (sorted_reverse (StrategicPlayer.ships self) !! i) as [s|];
    [|discriminate].
  simpl. intros [= <- <- <- <-]. repeat split. lia.
Qed.

Lemma strategic_request_sizes (self : StrategicPlayer.t) :
  (fun r : Ship => r.1.1.1) <$> StrategicPlayer.ship_locations self
  = sorted_reverse (StrategicPlayer.ships self).
Proof.
  unfold StrategicPlayer.ship_locations.
  generalize (sorted_reverse (StrategicPlayer.ships self)).
  intros l. rewrite fmap_imap.
  rewrite (imap_ext _ (const id)) by reflexivity.
  rewrite imap_const. apply list_fmap_id.
Qed.

(** X17: [StrategicPlayer.ship_locations] leaves the instance as it is and
    asks for one vertical ship per configured size, largest first; the
    request number i (from 0) is for column 2 * (size - 1 - 2 * i), the
    doubling applied twice, and row size - 1 - ship_size. *)
Theorem strategic_ship_requests (self : StrategicPlayer.t) :
  let requests := StrategicPlayer.ship_locations self in
  let sizes := (fun r : Ship => r.1.1.1) <$> requests in
  Player.ship_locations StrategicPlayer.class self = (self, Ok requests) /\
  sizes ≡ₚ StrategicPlayer.ships self /\
  StronglySorted Z.ge sizes /\
  (forall (i : nat) sz x y h,
      requests !! i = Some (sz, x, y, h) ->
      x = 2 * (StrategicPlayer.size self - 1 - 2 * Z.of_nat i) /\
      y = StrategicPlayer.size self - 1 - sz /\
      h = false).
Proof.
  intros requests sizes. subst requests sizes.
  rewrite strategic_request_sizes. unfold sorted_reverse.
  split; [reflexivity|]. split; [apply merge_sort_Permutation|].
  split.
  - apply StronglySorted_merge_sort.
    + intros a b c. lia.
    + intros a b. lia.
  - intros i sz x y h H. apply strategic_request in H. tauto.
Qed.

(** With the default configuration the requests are for columns 22, 18,
    14, 10 and 6. *)
Lemma strategic_ship_requests_witness :
  let self := StrategicPlayer.init 12 144 0 0 [2; 3; 3; 4; 5] in
  StrategicPlayer.ship_locations self
  = [(5, 22, 6, false); (4, 18, 7, false); (3, 14, 8, false);
     (3, 10, 8, false); (2, 6, 9, false)] /\
  22 = 2 * (StrategicPlayer.size self - 1 - 2 * Z.of_nat 0).
Proof.
  intros self. split; [vm_compute; reflexivity|].
  destruct (strategic_ship_requests self) as (_ & _ & _ & H).
  exact (proj1 (H 0%nat 5 22 6 false eq_refl)).
Defined.

(** X18: the board rejects every request of a [StrategicPlayer] whose
    column, 2 * (size - 1 - 2 * i), is not below the size of the board;
    on a board of the player's own size these are the requests with
    4 * i + 2 <= size, for size 12 the three largest ships. *)
Theorem strategic_ships_off_the_board (self : StrategicPlayer.t)
        (b : Board.t) (i : nat) (sz x y : Z) (h : bool) :
  Board.wf b ->
  0 < sz ->
  StrategicPlayer.ship_locations self !! i = Some (sz, x, y, h) ->
  Z.of_nat (Z.to_nat (Board.size b))
  <= 2 * (StrategicPlayer.size self - 1 - 2 * Z.of_nat i) ->
  snd (Board.place_ship sz x y h b) = Raise ValueError.
Proof.
  intros Hwf Hsz Hreq Hcol.
  apply strategic_request in Hreq. destruct Hreq as (_ & -> & -> & ->).
  destruct (place_ship_result sz
              (2 * (StrategicPlayer.size self - 1 - 2 * Z.of_nat i))
              (StrategicPlayer.size self - 1 - sz) false b)
    as [Hok|Hfail]; [|exact Hfail].
  exfalso. apply accepted_ship_geometry in Hok; [|exact Hwf|exact Hsz].
  simpl in Hok. lia.
Qed.

Lemma strategic_ships_off_the_board_witness :
  snd (Board.place_ship 3 14 8 false (Board.init 12 [2; 3; 3; 4; 5]))
  = Raise ValueError.
Proof.
  apply (strategic_ships_off_the_board
           (StrategicPlayer.init 12 144 0 0 [2; 3; 3; 4; 5])
           (Board.init 12 [2; 3; 3; 4; 5]) 2%nat).
  - apply wf_init.
  - lia.
  - vm_compute. reflexivity.
  - vm_compute. discriminate.
Defined.

(** ** [StrategicPlayer] in a strict round *)

Lemma default_board_rejects_column (sz x y : Z) :
  12 <= x ->
  Board.place_ship sz x y false Board.init_default
  = (fst (Board.place_ship sz x y false Board.init_default),
     Raise ValueError).
Proof.
  intros Hx.
  destruct (place_ship_result sz x y false Board.init_default)
    as [Hok|Hfail].
  - exfalso.
    destruct (place_ship_ok_fields _ _ _ _ _ Hok) as (rem & _ & Hrem & _).
    assert (0 < sz) as Hsz.
    { destruct sz as [|q|q]; [|lia|]; vm_compute in Hrem; discriminate. }
    apply accepted_ship_geometry in Hok; [|apply wf_init|exact Hsz].
    simpl in Hok. change (Z.of_nat (Z.to_nat Board.default_size)) with 12
      in Hok. lia.
  - destruct (Board.place_ship sz x y false Board.init_default) as [b r].
    simpl in *. subst r. reflexivity.
Qed.

Lemma strategic_first_request (self : StrategicPlayer.t) :
  StrategicPlayer.ships self <> [] ->
  exists sz rest,
    StrategicPlayer.ship_locations self
    = (sz, 2 * (StrategicPlayer.size self - 1),
       StrategicPlayer.size self - 1 - sz, false) :: rest.
Proof.
  intros Hships.
  destruct (StrategicPlayer.ship_locations self) as [|[[[sz x] y] h] rest]
    eqn:Hreq.
  - exfalso. apply Hships.
    pose proof (strategic_request_sizes self) as Hs. rewrite Hreq in Hs.
    simpl in Hs. symmetry. apply Permutation_nil_l.
    rewrite Hs. unfold sorted_reverse. apply merge_sort_Permutation.
  - exists sz, rest.
    destruct (strategic_request self 0 sz x y h) as (_ & -> & -> & ->).
    + rewrite Hreq. reflexivity.
    + do 4 f_equal. lia.
Qed.

Section StrictStrategic.
Variables c1 c2 : Player.class StrategicPlayer.t.
Variable s : Side.
Hypothesis Hclass : class_of c1 c2 s = StrategicPlayer.class.

Lemma NaiveGame_set_up_strategic (bunches : list Side)
      (rs rs' : Round StrategicPlayer.t) (r : Res unit) :
  In s bunches ->
  board s rs = Board.init_default ->
  7 <= StrategicPlayer.size (player s rs) ->
  StrategicPlayer.ships (player s rs) <> [] ->
  NaiveGame.set_up_ships c1 c2 bunches rs = (rs', r) ->
  exists e, r = Raise e.
Proof.
  revert rs. induction bunches as [|s0 bunches IH];
    intros rs Hin Hboard Hsize Hships H; [destruct Hin|].
  simpl in H. unfold bind, call_ship_locations in H.
  assert (s0 = s \/ s0 <> s) as [->|Hne]
      by (destruct s0, s; auto; right; discriminate).
  - rewrite Hclass in H. simpl in H.
    destruct (strategic_first_request (player s rs) Hships)
      as (sz & rest & Hreq).
    rewrite Hreq in H. simpl in H. unfold bind, board_place_ship in H.
    assert (board s (record (mkEvent s ShipLocations None)
                            (set_player s (player s rs) rs))
            = Board.init_default) as Hb
        by (rewrite <- Hboard; destruct s; reflexivity).
    rewrite Hb, default_board_rejects_column in H by lia.
    injection H as _ <-. eauto.
  - destruct Hin as [Heq|Hin]; [congruence|].
    destruct (Player.ship_locations (class_of c1 c2 s0) (player s0 rs))
      as [st [ships0|e]]; simpl in H; [|injection H as _ <-; eauto].
    destruct (NaiveGame.place_ships s0 ships0 _) as [rs2 [[]|e]] eqn:Hp;
      [|injection H as _ <-; eauto].
    apply NaiveGame_place_ships_stops in Hp. subst rs2.
    apply IH in H; [exact H|exact Hin| | |].
    + rewrite <- Hboard. destruct s, s0; try congruence; reflexivity.
    + destruct s, s0; try congruence; exact Hsize.
    + destruct s, s0; try congruence; exact Hships.
Qed.
End StrictStrategic.

(** X19: a strict round in which either player is a [StrategicPlayer]
    configured with a size of at least 7 and at least one ship never
    returns a score: the player's first request is for a column beyond
    the default board, and the round raises, with that [ValueError] at the
    latest. *)
Theorem strict_round_with_strategic_player_raises
        (self : NaiveGame.t StrategicPlayer.t) (ch : Chance) (s : Side) :
  class_of (NaiveGame.p1_class self) (NaiveGame.p2_class self) s
  = StrategicPlayer.class ->
  7 <= NaiveGame.size self ->
  NaiveGame.ships self <> [] ->
  exists e, run_result (NaiveGame._play_round self ch) = Some (Raise e).
Proof.
  intros Hclass Hsize Hships. unfold NaiveGame._play_round.
  destruct (NaiveGame.new_player self _ (seed1 ch)) as [st1|e] eqn:H1;
    [|simpl; eauto].
  destruct (NaiveGame.new_player self _ (seed2 ch)) as [st2|e] eqn:H2;
    [|simpl; eauto].
  unfold NaiveGame.play_from, play_round_from.
  destruct (NaiveGame.set_up_ships _ _ _ _) as [rs1 r] eqn:Hset.
  apply (NaiveGame_set_up_strategic _ _ s Hclass) in Hset.
  - destruct Hset as [e ->]. simpl. eauto.
  - destruct s, (swaps ch); simpl; auto.
  - destruct s; reflexivity.
  - unfold NaiveGame.new_player in H1, H2.
    destruct s; simpl in Hclass |- *.
    + rewrite Hclass in H1. injection H1 as <-. exact Hsize.
    + rewrite Hclass in H2. injection H2 as <-. exact Hsize.
  - unfold NaiveGame.new_player in H1, H2.
    destruct s; simpl in Hclass |- *.
    + rewrite Hclass in H1. injection H1 as <-. exact Hships.
    + rewrite Hclass in H2. injection H2 as <-. exact Hships.
Qed.

(** Two [StrategicPlayer]s with the default configuration: the strict
    round raises [ValueError]; the lenient round is a draw. *)
Lemma strict_round_with_strategic_player_raises_witness :
  run_result (NaiveGame._play_round strategic_game (mkChance false 0 0))
  = Some (Raise ValueError) /\
  run_result (Game._play_round untimed strategic_game (mkChance false 0 0))
  = Some (Ok (1, 1)).
Proof.
  split; [|vm_compute; reflexivity].
  destruct (strict_round_with_strategic_player_raises
              strategic_game (mkChance false 0 0) P1 eq_refl)
    as [e He].
  - simpl. lia.
  - discriminate.
  - rewrite He. vm_compute in He. symmetry. exact He.
Defined.

(** ** The shots of [StrategicPlayer] *)

Lemma strategic_state_eta (self : StrategicPlayer.t) :
  StrategicPlayer.set_scanning_index self (StrategicPlayer.scanning_index self)
  = self.
Proof. destruct self. reflexivity. Qed.

Lemma strategic_drop_bomb_scan (self : StrategicPlayer.t) :
  StrategicPlayer.forced_drops self = [] ->
  StrategicPlayer.drop_bomb self
  = (StrategicPlayer.set_scanning_index
       self (StrategicPlayer.scanning_index self + 1),
     (StrategicPlayer.scanning_index self / 3,
      StrategicPlayer.scanning_index self mod 3)).
Proof. unfold StrategicPlayer.drop_bomb. intros ->. reflexivity. Qed.

Lemma strategic_bomb_feedback_no_hit (x y : Z) (result : ShotResult.t)
      (self : StrategicPlayer.t) :
  result <> ShotResult.HIT ->
  StrategicPlayer.bomb_feedback x y result self = self.
Proof. destruct result; intros H; try reflexivity. destruct H; reflexivity. Qed.

Lemma strategic_scan (feedback : list Shot) (self : StrategicPlayer.t) :
  StrategicPlayer.forced_drops self = [] ->
  Forall (fun shot : Shot => shot.2 <> ShotResult.HIT) feedback ->
  let k0 := StrategicPlayer.scanning_index self in
  take_turns StrategicPlayer.class feedback self
  = (StrategicPlayer.set_scanning_index
       self (k0 + Z.of_nat (length feedback)),
     (fun k : nat => Ok ((k0 + Z.of_nat k) / 3, (k0 + Z.of_nat k) mod 3))
       <$> seq 0 (length feedback)).
Proof.
  revert self. induction feedback as [|[[x y] result] feedback IH];
    intros self Hdrops Hall k0; subst k0.
  - simpl. rewrite Z.add_0_r, strategic_state_eta. reflexivity.
  - apply Forall_cons in Hall. destruct Hall as [Hres Hall]. simpl in Hres.
    cbn [take_turns StrategicPlayer.class Player.drop_bomb
         Player.bomb_feedback].
    rewrite (strategic_drop_bomb_scan self Hdrops).
    rewrite (strategic_bomb_feedback_no_hit x y result _ Hres).
    rewrite IH by (try exact Hall; destruct self; exact Hdrops).
    cbn [length seq fmap list_fmap]. rewrite Z.add_0_r.
    f_equal.
    + destruct self. unfold StrategicPlayer.set_scanning_index. simpl.
      f_equal. lia.
    + f_equal. rewrite <- (fmap_S_seq 0), <- list_fmap_compose.
      apply list_fmap_ext. intros i k _. simpl.
      destruct self; simpl.
      replace (scanning_index + 1 + Z.of_nat k)
        with (scanning_index + Z.of_nat (S k)) by lia.
      reflexivity.
Qed.

(** X20: as long as no feedback reports a [HIT], a [StrategicPlayer]
    scans: turn number k (from 0) of a new instance fires at
    (k // 3, k % 3), whatever the board size. All of these shots lie in
    the rows 0, 1 and 2, and from turn 3 * size on their column is beyond
    a board of the configured size. *)
Theorem strategic_player_scans_three_rows
        (size max_turns max_fn_time feedback_delay : Z) (ships : list Z)
        (feedback : list Shot) :
  Forall (fun shot : Shot => shot.2 <> ShotResult.HIT) feedback ->
  let self := StrategicPlayer.init size max_turns max_fn_time
                                   feedback_delay ships in
  let shots := snd (take_turns StrategicPlayer.class feedback self) in
  length shots = length feedback /\
  forall k : nat,
    (k < length feedback)%nat ->
    shots !! k = Some (Ok (Z.of_nat k / 3, Z.of_nat k mod 3)) /\
    0 <= Z.of_nat k mod 3 < 3 /\
    (3 * size <= Z.of_nat k -> size <= Z.of_nat k / 3).
Proof.
  intros Hall self shots. subst shots.
  rewrite (strategic_scan feedback self eq_refl Hall). simpl.
  rewrite length_fmap, length_seq. split; [reflexivity|].
  intros k Hk. split; [|split].
  - rewrite list_lookup_fmap, lookup_seq_lt by exact Hk. reflexivity.
  - apply Z.mod_pos_bound. lia.
  - intros Hfar. apply Z.div_le_lower_bound; lia.
Qed.

Lemma strategic_player_scans_three_rows_witness :
  snd (take_turns StrategicPlayer.class
         [(0, 0, ShotResult.MISS); (0, 1, ShotResult.MISS);
          (0, 2, ShotResult.MISS); (1, 0, ShotResult.MISS)]
         (StrategicPlayer.init 12 144 0 0 [2; 3; 3; 4; 5])) !! 3%nat
  = Some (Ok (1, 0)).
Proof.
  destruct (strategic_player_scans_three_rows
              12 144 0 0 [2; 3; 3; 4; 5]
              [(0, 0, ShotResult.MISS); (0, 1, ShotResult.MISS);
               (0, 2, ShotResult.MISS); (1, 0, ShotResult.MISS)])
    as [_ H].
  - repeat constructor; discriminate.
  - destruct (H 3%nat) as [Hshot _]; [simpl; lia|]. exact Hshot.
Defined.

(** ** Following up a hit *)

Lemma py_pop_snoc {A : Type} (l : list A) (a : A) :
  py_pop (l ++ [a]) = Some (a, l).
Proof.
  unfold py_pop. rewrite rev_app_distr. simpl. rewrite rev_involutive.
  reflexivity.
Qed.

Lemma strategic_forced (feedback : list Shot) (self : StrategicPlayer.t) :
  (length feedback <= length (StrategicPlayer.forced_drops self))%nat ->
  snd (take_turns StrategicPlayer.class feedback self)
  = Ok <$> take (length feedback) (rev (StrategicPlayer.forced_drops self)) /\
  StrategicPlayer.scanning_index
    (fst (take_turns StrategicPlayer.class feedback self))
  = StrategicPlayer.scanning_index self.
Proof.
  revert self. induction feedback as [|[[x y] result] feedback IH];
    intros self Hlen; [split; reflexivity|].
  simpl in Hlen.
  destruct (StrategicPlayer.forced_drops self) as [|d ds] eqn:Hdrops
    using rev_ind; [simpl in Hlen; lia|]. clear IHds.
  rewrite length_app in Hlen. simpl in Hlen.
  cbn [take_turns StrategicPlayer.class Player.drop_bomb
       Player.bomb_feedback].
  unfold StrategicPlayer.drop_bomb. rewrite Hdrops, py_pop_snoc.
  rewrite rev_app_distr. simpl.
  destruct feedback as [|f feedback].
  - simpl. split; [reflexivity|].
    destruct result, ds; destruct self; reflexivity.
  - assert (StrategicPlayer.bomb_feedback
              x y result (StrategicPlayer.set_forced_drops self ds)
            = StrategicPlayer.set_forced_drops self ds) as ->.
    { unfold StrategicPlayer.bomb_feedback.
      destruct ds as [|d' ds]; [simpl in Hlen; lia|].
      destruct result; reflexivity. }
    specialize (IH (StrategicPlayer.set_forced_drops self ds)).
    destruct (take_turns StrategicPlayer.class (f :: feedback)
                (StrategicPlayer.set_forced_drops self ds))
      as [st shots].
    simpl in IH, Hlen |- *. destruct IH as [-> ->]; [|split; reflexivity].
    lia.
Qed.

Lemma neighbours_shift (x y : Z) :
  StrategicPlayer.neighbours x y
  = (fun d : Z * Z => (x + d.1, y + d.2))
      <$> StrategicPlayer.neighbours 0 0.
Proof. reflexivity. Qed.

Lemma neighbours_origin (dx dy : Z) :
  (dx, dy) ∈ StrategicPlayer.neighbours 0 0 <->
  -2 <= dx <= 2 /\ -2 <= dy <= 2 /\ (dx, dy) <> (0, 0).
Proof.
  split.
  - intros H. apply list_elem_of_In in H. vm_compute in H.
    repeat (destruct H as [[= <- <-]|H];
            [split; [lia|split; [lia|discriminate]]|]).
    destruct H.
  - intros (Hx & Hy & Hne).
    assert (dx = -2 \/ dx = -1 \/ dx = 0 \/ dx = 1 \/ dx = 2)
      as [-> | [-> | [-> | [-> | ->]]]] by lia;
      assert (dy = -2 \/ dy = -1 \/ dy = 0 \/ dy = 1 \/ dy = 2)
      as [-> | [-> | [-> | [-> | ->]]]] by lia;
      try (destruct Hne; reflexivity);
      apply list_elem_of_In; vm_compute; tauto.
Qed.

(** X21: a [HIT] reported to a [StrategicPlayer] with nothing queued makes
    it fire, on its next 24 turns, at the 24 fields within two steps of
    the hit in each direction, each once, starting with (x + 2, y + 2)
    and never the hit field itself, whatever feedback it gets in between
    and whether these fields are on the board or not; the scan is
    suspended meanwhile. *)
Theorem strategic_player_follows_up_a_hit (self : StrategicPlayer.t)
        (x y : Z) (feedback : list Shot) :
  StrategicPlayer.forced_drops self = [] ->
  (length feedback <= 24)%nat ->
  let hit := StrategicPlayer.bomb_feedback x y ShotResult.HIT self in
  let queue := rev (StrategicPlayer.neighbours x y) in
  snd (take_turns StrategicPlayer.class feedback hit)
  = Ok <$> take (length feedback) queue /\
  StrategicPlayer.scanning_index
    (fst (take_turns StrategicPlayer.class feedback hit))
  = StrategicPlayer.scanning_index self /\
  length queue = 24%nat /\
  head queue = Some (x + 2, y + 2) /\
  NoDup queue /\
  (forall x' y',
      (x', y') ∈ queue <->
      -2 <= x' - x <= 2 /\ -2 <= y' - y <= 2 /\ (x', y') <> (x, y)).
Proof.
  intros Hdrops Hlen hit queue.
  assert (StrategicPlayer.forced_drops hit = StrategicPlayer.neighbours x y)
    as Hq by (unfold hit, StrategicPlayer.bomb_feedback; rewrite Hdrops;
              reflexivity).
  assert (StrategicPlayer.scanning_index hit
          = StrategicPlayer.scanning_index self) as Hidx
      by (unfold hit, StrategicPlayer.bomb_feedback; rewrite Hdrops;
          reflexivity).
  destruct (strategic_forced feedback hit) as [Hshots Hscan].
  { rewrite Hq. exact Hlen. }
  rewrite Hq in Hshots. rewrite Hidx in Hscan.
  split; [exact Hshots|]. split; [exact Hscan|].
  split; [reflexivity|]. split; [reflexivity|]. split.
  - unfold queue. apply NoDup_ListNoDup, List.NoDup_rev, NoDup_ListNoDup.
    rewrite neighbours_shift. apply NoDup_fmap_2.
    + intros [a b] [c d] [= H1 H2]. f_equal; lia.
    + apply (bool_decide_unpack _). vm_compute. exact I.
  - intros x' y'. unfold queue.
    rewrite list_elem_of_In, <- in_rev, <- list_elem_of_In.
    rewrite neighbours_shift, list_elem_of_fmap. split.
    + intros ([dx dy] & [= -> ->] & Hd). apply neighbours_origin in Hd.
      simpl. destruct Hd as (Hx & Hy & Hne).
      split; [lia|]. split; [lia|].
      intros [= H1 H2]. apply Hne. f_equal; lia.
    + intros (Hx & Hy & Hne). exists (x' - x, y' - y). split.
      * simpl. f_equal; lia.
      * apply neighbours_origin. split; [lia|]. split; [lia|].
        intros [= H1 H2]. apply Hne. f_equal; lia.
Qed.

Lemma strategic_player_follows_up_a_hit_witness :
  let self := StrategicPlayer.init 12 144 0 0 [2; 3; 3; 4; 5] in
  snd (take_turns StrategicPlayer.class
         [(7, 7, ShotResult.MISS); (7, 6, ShotResult.HIT)]
         (StrategicPlayer.bomb_feedback 5 5 ShotResult.HIT self))
  = [Ok (7, 7); Ok (7, 6)].
Proof.
  intros self.
  destruct (strategic_player_follows_up_a_hit
              self 5 5 [(7, 7, ShotResult.MISS); (7, 6, ShotResult.HIT)]
              eq_refl ltac:(simpl; lia)) as [H _].
  exact H.
Defined.

(** ** [MirrorPlayer] *)

Lemma mirror_turns (feedback : list Shot) (self : MirrorPlayer.t) :
  snd (take_turns MirrorPlayer.class feedback self)
  = replicate (length feedback)
              (Ok (default (0, 0) (MirrorPlayer.last_enemy_move self))) /\
  MirrorPlayer.last_enemy_move
    (fst (take_turns MirrorPlayer.class feedback self))
  = MirrorPlayer.last_enemy_move self /\
  StrategicPlayer.scanning_index
    (MirrorPlayer.base (fst (take_turns MirrorPlayer.class feedback self)))
  = StrategicPlayer.scanning_index (MirrorPlayer.base self).
Proof.
  revert self. induction feedback as [|[[x y] result] feedback IH];
    intros self; [repeat split|].
  cbn [take_turns MirrorPlayer.class Player.drop_bomb Player.bomb_feedback].
  unfold MirrorPlayer.drop_bomb.
  assert (forall st : MirrorPlayer.t,
             MirrorPlayer.last_enemy_move st
             = MirrorPlayer.last_enemy_move self ->
             StrategicPlayer.scanning_index (MirrorPlayer.base st)
             = StrategicPlayer.scanning_index (MirrorPlayer.base self) ->
             let '(st', shots) :=
               take_turns MirrorPlayer.class feedback
                          (MirrorPlayer.bomb_feedback x y result st) in
             shots = replicate (length feedback)
                       (Ok (default (0, 0)
                                    (MirrorPlayer.last_enemy_move self))) /\
             MirrorPlayer.last_enemy_move st'
             = MirrorPlayer.last_enemy_move self /\
             StrategicPlayer.scanning_index (MirrorPlayer.base st')
             = StrategicPlayer.scanning_index (MirrorPlayer.base self))
    as Hrest.
  { intros st Hmove Hidx.
    specialize (IH (MirrorPlayer.bomb_feedback x y result st)).
    destruct (take_turns _ _ _) as [st' shots]. simpl in IH.
    destruct IH as (-> & -> & ->). simpl. rewrite Hmove.
    split; [reflexivity|]. split; [reflexivity|]. rewrite <- Hidx.
    unfold StrategicPlayer.bomb_feedback.
    destruct result, (StrategicPlayer.forced_drops (MirrorPlayer.base st));
      reflexivity. }
  destruct (MirrorPlayer.last_enemy_move self) as [[mx my]|] eqn:Hmove;
    specialize (Hrest self Hmove eq_refl);
    destruct (take_turns _ _ _) as [st' shots];
    destruct Hrest as (-> & H1 & H2); simpl; rewrite H1, H2; repeat split.
Qed.

(** X22: a [MirrorPlayer] fires at the coordinates of its opponent's last
    resolved shot, turn after turn until it is told of another one, and at
    (0, 0) as long as it has been told of none; the feedback on its own
    shots changes nothing about that, and the scan it inherits never
    advances. *)
Theorem mirror_player_repeats_the_last_enemy_move
        (self : MirrorPlayer.t) (x y : Z) (result : ShotResult.t)
        (feedback : list Shot)
        (size max_turns max_fn_time feedback_delay : Z) (ships : list Z) :
  let new := MirrorPlayer.init size max_turns max_fn_time feedback_delay
                               ships in
  let told := MirrorPlayer.bombed_feedback x y result self in
  snd (take_turns MirrorPlayer.class feedback new)
  = replicate (length feedback) (Ok (0, 0)) /\
  snd (take_turns MirrorPlayer.class feedback told)
  = replicate (length feedback) (Ok (x, y)) /\
  StrategicPlayer.scanning_index
    (MirrorPlayer.base (fst (take_turns MirrorPlayer.class feedback told)))
  = StrategicPlayer.scanning_index (MirrorPlayer.base self).
Proof.
  intros new told.
  destruct (mirror_turns feedback new) as (Hnew & _ & _).
  destruct (mirror_turns feedback told) as (Htold & _ & Hidx).
  split; [exact Hnew|]. split; [exact Htold|exact Hidx].
Qed.

(** Told of a shot at (3, 4), a [MirrorPlayer] fires there twice; two of
    them with the default configuration fire at (0, 0) throughout, and
    draw. *)
Lemma mirror_player_repeats_the_last_enemy_move_witness :
  let self := MirrorPlayer.init 12 144 0 0 [2; 3; 3; 4; 5] in
  snd (take_turns MirrorPlayer.class
         [(3, 4, ShotResult.MISS); (3, 4, ShotResult.PREVIOUS_MISS)]
         (MirrorPlayer.bombed_feedback 3 4 ShotResult.HIT self))
  = [Ok (3, 4); Ok (3, 4)] /\
  run_result (Game._play_round untimed mirror_game (mkChance false 0 0))
  = Some (Ok (1, 1)).
Proof.
  intros self. split; [|vm_compute; reflexivity].
  exact (proj1 (proj2 (mirror_player_repeats_the_last_enemy_move
                         self 3 4 ShotResult.HIT
                         [(3, 4, ShotResult.MISS);
                          (3, 4, ShotResult.PREVIOUS_MISS)]
                         12 144 0 0 [2; 3; 3; 4; 5]))).
Defined.

(** * Further sample runs *)

(** A shot at (1, 1) on an empty board of size 5 leaves field 0 as it
    was, and a shot off the board leaves the board as it was. *)
Lemma drop_bomb_touches_one_field_witness :
  let b := Board.init 5 [2] in
  Board.state (fst (Board.drop_bomb 1 1 b)) 0%nat = Board.state b 0%nat /\
  fst (Board.drop_bomb 7 0 b) = b.
Proof.
  intros b. split.
  - destruct (drop_bomb_touches_one_field 1 1 b) as (_ & _ & _ & _ & H & _).
    apply H. vm_compute. discriminate.
  - destruct (drop_bomb_touches_one_field 7 0 b) as (_ & _ & _ & _ & _ & H).
    exact (proj2 (H ValueError eq_refl)).
Defined.

(** * A player without ships *)

Lemma no_ships_not_floating (b : Board.t) :
  Board._ships b = [] -> Board.still_floating b = false.
Proof. unfold Board.still_floating. intros ->. reflexivity. Qed.

Section Adrift.
Context {St : Type}.
Variables c1 c2 : Player.class St.
Variable t : Side.
Hypothesis Hthrows : ship_locations_always_throws (class_of c1 c2 t).

Lemma Game_set_up_ships_adrift (bunches : list Side) (rs rs' : Round St)
      (r : Res unit) :
  Game.set_up_ships c1 c2 bunches rs = (rs', r) ->
  Board._ships (board t rs) = [] -> Board._ships (board t rs') = [].
Proof.
  revert rs. induction bunches as [|s0 bunches IH]; intros rs H Hb.
  - injection H as <- <-. exact Hb.
  - simpl in H. unfold bind, Game.isolate, try_except, ret, raise,
                  call_ship_locations in H.
    assert (s0 = t \/ s0 <> t) as [->|Hne]
        by (destruct s0, t; auto; right; discriminate).
    + destruct (Hthrows (player t rs)) as (err & Herr & Hint).
      destruct (Player.ship_locations (class_of c1 c2 t) (player t rs))
        as [st res]. simpl in Herr. subst res. simpl in H.
      rewrite Hint in H. simpl in H.
      apply IH in H; [exact H|]. rewrite <- Hb. destruct t; reflexivity.
    + destruct (Player.ship_locations (class_of c1 c2 s0) (player s0 rs))
        as [st [ships0|e]]; simpl in H.
      * rewrite Game_place_ships_all in H.
        apply IH in H; [exact H|]. rewrite <- Hb.
        destruct s0, t; try congruence; reflexivity.
      * destruct (is_interrupt e); simpl in H.
        -- injection H as <- <-. rewrite <- Hb. destruct s0, t; reflexivity.
        -- apply IH in H; [exact H|]. rewrite <- Hb.
           destruct s0, t; reflexivity.
Qed.

Lemma Game_turn_body_adrift (att : Side) (rs rs' : Round St) (r : Res unit) :
  Game.turn_body c1 c2 att rs = (rs', r) ->
  Board._ships (board t rs) = [] -> Board._ships (board t rs') = [].
Proof.
  intros H Hb.
  pose proof (evolve_Game_turn_body c1 c2 att rs rs' r H t) as Hev.
  apply Game_turn_body_cases in H. destruct H as (Hatt & _ & H).
  assert (t = att \/ t = other att) as [Heq|Heq]
      by (destruct t, att; auto).
  - rewrite Heq, Hatt, <- Heq. exact Hb.
  - assert (board t rs' = board t rs \/
            exists x y, board t rs' = fst (Board.drop_bomb x y (board t rs)))
      as [->|(x & y & ->)].
    { rewrite Heq. destruct H as [H|[H|[H|H]]].
      - destruct H as (e & _ & Hsame & _). auto.
      - destruct H as (x & y & _ & _ & Hsame & _). auto.
      - destruct H as (x & y & result & e & _ & _ & Hbomb & _). eauto.
      - destruct H as (x & y & result & o & fb & _ & _ & Hbomb & _). eauto. }
    + exact Hb.
    + destruct (drop_bomb_keeps_layout x y (board t rs)) as (_ & -> & _).
      exact Hb.
Qed.

Lemma turn_loop_adrift (max_turns : Z) (fuel : nat) (cycle : list Side)
      (turn : Z) (rs rs' : Round St) (ex : LoopExit) :
  turn_loop max_turns (Game.turn_body c1 c2) fuel cycle turn rs = (rs', ex) ->
  Board._ships (board t rs) = [] ->
  Board._ships (board t rs') = [] /\
  drop_bomb_calls t (trace rs') = drop_bomb_calls t (trace rs).
Proof.
  revert cycle turn rs.
  induction fuel as [|fuel IH]; intros cycle turn rs H Hb; simpl in H.
  - injection H as <- <-. auto.
  - destruct cycle as [|att rest]; [injection H as <- <-; auto|].
    destruct (Board.still_floating (board att rs)) eqn:Hfloat; simpl in H;
      [|injection H as <- <-; auto].
    destruct (turn + 1 >? max_turns * 2); [injection H as <- <-; auto|].
    assert (t = other att) as Ht.
    { destruct t, att; try reflexivity;
        rewrite (no_ships_not_floating _ Hb) in Hfloat; discriminate. }
    destruct (Game.turn_body c1 c2 att rs) as [rs1 r] eqn:Hbody.
    pose proof (Game_turn_body_adrift _ _ _ _ Hbody Hb) as Hb1.
    apply Game_turn_body_calls in Hbody. destruct Hbody as [_ Hcalls].
    rewrite <- Ht in Hcalls.
    destruct r as [[]|e].
    + apply IH in H; [|exact Hb1]. rewrite <- Hcalls. exact H.
    + injection H as <- <-. auto.
Qed.

Lemma Game_play_from_adrift (self : NaiveGame.t St) (st1 st2 : St)
      (tr : list Event) (swap : bool) :
  drop_bomb_calls t tr = 0%nat ->
  let run := Game.play_from self c1 c2 st1 st2 tr swap in
  drop_bomb_calls t (run_trace run) = 0%nat /\
  exists boards,
    run_boards run = Some boards /\
    Board._ships (board_of t boards) = [] /\
    forall score,
      run_result run = Some (Ok score) ->
      if Board.still_floating (board_of (other t) boards)
      then points t score = 0 /\ points (other t) score = 2
      else score = (1, 1).
Proof.
  intros Htr run. subst run. unfold Game.play_from, play_round_from.
  destruct (Game.set_up_ships c1 c2 _ _) as [rs1 r1] eqn:H1.
  assert (Board._ships (board t rs1) = []) as Hb1
      by (apply (Game_set_up_ships_adrift _ _ _ _ H1); destruct t;
          reflexivity).
  apply Game_set_up_ships_spec in H1.
  destruct H1 as (_ & _ & evs & Htr1 & Hall & _).
  assert (drop_bomb_calls t (trace rs1) = 0%nat) as Hc1.
  { rewrite Htr1, drop_bomb_calls_app, drop_bomb_calls_preparation.
    - exact Htr.
    - apply ship_locations_are_preparation, Hall. }
  assert (forall (rs : Round St) res,
             Board._ships (board t rs) = [] ->
             drop_bomb_calls t (trace rs) = 0%nat ->
             (forall score, res = Some (Ok score) ->
                            score = scoring (p1_board rs) (p2_board rs)) ->
             drop_bomb_calls t (run_trace (run_of rs res)) = 0%nat /\
             exists boards,
               run_boards (run_of rs res) = Some boards /\
               Board._ships (board_of t boards) = [] /\
               forall score,
                 run_result (run_of rs res) = Some (Ok score) ->
                 if Board.still_floating (board_of (other t) boards)
                 then points t score = 0 /\ points (other t) score = 2
                 else score = (1, 1)) as Hend.
  { intros rs res Hb Hc Hscore. split; [exact Hc|].
    exists (p1_board rs, p2_board rs). split; [reflexivity|].
    split; [destruct t; exact Hb|].
    simpl. intros score Hres. rewrite (Hscore score Hres), scoring_table.
    pose proof (no_ships_not_floating _ Hb) as Hsunk.
    destruct t; simpl in Hsunk |- *; rewrite Hsunk;
      [destruct (Board.still_floating (p2_board rs))
      |destruct (Board.still_floating (p1_board rs))]; simpl; auto. }
  destruct r1 as [[]|e]; [|apply Hend; [exact Hb1|exact Hc1|discriminate]].
  destruct (turn_loop _ _ _ _ _ _) as [rs2 ex] eqn:H2.
  apply turn_loop_adrift in H2; [|exact Hb1].
  destruct H2 as [Hb2 Hc2]. rewrite Hc1 in Hc2.
  destruct ex; apply Hend; try assumption; try discriminate.
  intros score [= <-]. reflexivity.
Qed.
End Adrift.

(** X23: a player whose [ship_locations] always throws something other
    than an interrupt plays the lenient round without a ship and without
    a turn: its board has no ship at the end, it is never asked for a
    bomb, and it scores 0 if its opponent has a ship afloat at the end
    and 1 otherwise. *)
Theorem player_without_ships_cannot_win {St : Type}
        (TimedPlayer : Player.class St -> Player.class St)
        (self : NaiveGame.t St) (ch : Chance) (s : Side) :
  ship_locations_always_throws
    (class_of (Game.instance_class TimedPlayer self (NaiveGame.p1_class self))
              (Game.instance_class TimedPlayer self (NaiveGame.p2_class self))
              s) ->
  let run := Game._play_round TimedPlayer self ch in
  drop_bomb_calls s (run_trace run) = 0%nat /\
  forall boards,
    run_boards run = Some boards ->
    Board._ships (board_of s boards) = [] /\
    forall score,
      run_result run = Some (Ok score) ->
      if Board.still_floating (board_of (other s) boards)
      then points s score = 0 /\ points (other s) score = 2
      else score = (1, 1).
Proof.
  intros Hthrows run. subst run. unfold Game._play_round.
  destruct (Game.new_player TimedPlayer self _ (seed1 ch)) as [r1 [o1|e]];
    [|split; [destruct s; reflexivity|discriminate]].
  destruct (Game.new_player TimedPlayer self _ (seed2 ch)) as [r2 [o2|e]];
    [|split; [destruct s; reflexivity|discriminate]].
  destruct o1 as [st1|], o2 as [st2|];
    try (split; [destruct s; reflexivity|discriminate]).
  match goal with
  | |- context [Game.play_from ?g ?c1 ?c2 ?s1 ?s2 ?tr ?sw] =>
      destruct (Game_play_from_adrift c1 c2 s Hthrows g s1 s2 tr sw)
        as (Hcalls & boards & -> & H); [destruct s; reflexivity|]
  end.
  split; [exact Hcalls|]. intros boards' [= <-]. exact H.
Qed.

(** In [adrift_game] player 2 has no ship: it never gets to fire, and
    loses. *)
Lemma player_without_ships_cannot_win_witness :
  let run := Game._play_round untimed adrift_game (mkChance false 0 0) in
  run_result run = Some (Ok (2, 0)) /\
  drop_bomb_calls P2 (run_trace run) = 0%nat /\
  exists boards,
    run_boards run = Some boards /\
    Board._ships (board_of P2 boards) = [].
Proof.
  intros run.
  assert (ship_locations_always_throws (adrift 0 0)) as Hthrows
      by (intros st; exists (OtherException 2); split; reflexivity).
  destruct (player_without_ships_cannot_win
              untimed adrift_game (mkChance false 0 0) P2 Hthrows)
    as [Hcalls Hboards].
  split; [vm_compute; reflexivity|]. split; [exact Hcalls|].
  destruct (run_boards run) as [boards|] eqn:Hb;
    [|vm_compute in Hb; discriminate].
  exists boards. split; [reflexivity|].
  exact (proj1 (Hboards boards Hb)).
Defined.

(** * The random players *)

Lemma elem_of_py_range (n z : Z) : z ∈ py_range n <-> 0 <= z < n.
Proof.
  unfold py_range. rewrite list_elem_of_fmap. split.
  - intros (k & -> & Hk). apply elem_of_seq in Hk. lia.
  - intros Hz. exists (Z.to_nat z). split; [lia|].
    apply elem_of_seq. lia.
Qed.

Lemma NoDup_py_range (n : Z) : NoDup (py_range n).
Proof.
  unfold py_range. apply NoDup_fmap_2; [|apply NoDup_seq].
  intros a b H. lia.
Qed.

Lemma length_py_range (n : Z) : length (py_range n) = Z.to_nat n.
Proof. unfold py_range. rewrite length_fmap, length_seq. reflexivity. Qed.

Lemma elem_of_product_range (size x y : Z) :
  (x, y) ∈ BetterRandomPlayer.product_range size <->
  0 <= x < size /\ 0 <= y < size.
Proof.
  unfold BetterRandomPlayer.product_range. rewrite list_elem_of_bind. split.
  - intros (x' & H & Hx). apply list_elem_of_bind in H.
    destruct H as (y' & H & Hy). apply list_elem_of_singleton in H.
    injection H as -> ->.
    apply elem_of_py_range in Hx, Hy. auto.
  - intros [Hx Hy]. exists x. split; [|apply elem_of_py_range; exact Hx].
    apply list_elem_of_bind. exists y.
    split; [apply list_elem_of_singleton; reflexivity|].
    apply elem_of_py_range. exact Hy.
Qed.

Lemma NoDup_product_range (size : Z) :
  NoDup (BetterRandomPlayer.product_range size).
Proof.
  unfold BetterRandomPlayer.product_range. apply NoDup_bind.
  - intros x1 x2 [x y] _ _ H1 H2.
    apply list_elem_of_bind in H1, H2.
    destruct H1 as (y1 & H1 & _), H2 as (y2 & H2 & _).
    apply list_elem_of_singleton in H1, H2. congruence.
  - intros x _. apply NoDup_bind; [| |apply NoDup_py_range].
    + intros y1 y2 xy _ _ H1 H2.
      apply list_elem_of_singleton in H1, H2. congruence.
    + intros y _. apply NoDup_singleton.
  - apply NoDup_py_range.
Qed.

Lemma length_bind_const {A B : Type} (f : A -> list B) (l : list A)
      (n : nat) :
  (forall a, length (f a) = n) -> length (l ≫= f) = (length l * n)%nat.
Proof.
  intros Hf. induction l as [|a l IH]; [reflexivity|].
  change ((a :: l) ≫= f) with (f a ++ (l ≫= f)).
  rewrite length_app, Hf, IH. simpl. reflexivity.
Qed.

Lemma length_product_range (size : Z) :
  length (BetterRandomPlayer.product_range size)
  = (Z.to_nat size * Z.to_nat size)%nat.
Proof.
  unfold BetterRandomPlayer.product_range.
  rewrite (length_bind_const _ _ (Z.to_nat size)), length_py_range;
    [reflexivity|].
  intros x. rewrite (length_bind_const _ _ 1%nat), length_py_range;
    [lia|reflexivity].
Qed.

Section BetterRandom.
Variable randint_of : nat -> nat -> Z -> Z -> Z.
Variable shuffle_of : nat -> list (Z * Z) -> list (Z * Z).

Lemma better_random_sequence (feedback : list Shot)
      (self : BetterRandomPlayer.t) :
  (length feedback <= length (BetterRandomPlayer.bomb_sequence self))%nat ->
  snd (take_turns (BetterRandomPlayer.class randint_of shuffle_of)
                  feedback self)
  = Ok <$> take (length feedback)
                (rev (BetterRandomPlayer.bomb_sequence self)).
Proof.
  revert self. induction feedback as [|[[x y] result] feedback IH];
    intros self Hlen; [reflexivity|].
  simpl in Hlen.
  destruct self as [b sequence]. simpl in Hlen.
  destruct sequence as [|d ds _] using rev_ind; [simpl in Hlen; lia|].
  rewrite length_app in Hlen. simpl in Hlen.
  cbn [take_turns BetterRandomPlayer.class Player.drop_bomb
       Player.bomb_feedback].
  unfold BetterRandomPlayer.drop_bomb. simpl.
  rewrite py_pop_snoc, rev_app_distr. simpl.
  specialize (IH (BetterRandomPlayer.mk b ds)).
  destruct (take_turns _ feedback (BetterRandomPlayer.mk b ds))
    as [st shots].
  simpl in IH |- *. rewrite IH by lia. reflexivity.
Qed.
End BetterRandom.

(** X24: if [random.shuffle] permutes its list, a [BetterRandomPlayer]
    built for [size] fires, on its first size * size turns, at every cell
    (x, y) with 0 <= x, y < size exactly once, whatever the feedback. *)
Theorem better_random_player_covers_the_board
        (randint_of : nat -> nat -> Z -> Z -> Z)
        (shuffle_of : nat -> list (Z * Z) -> list (Z * Z))
        (size max_turns max_fn_time feedback_delay : Z) (ships : list Z)
        (results : nat -> Z -> Z -> Z)
        (shuffle : list (Z * Z) -> list (Z * Z)) (feedback : list Shot) :
  (forall l, shuffle l ≡ₚ l) ->
  length feedback = (Z.to_nat size * Z.to_nat size)%nat ->
  let self := BetterRandomPlayer.init size max_turns max_fn_time
                                      feedback_delay ships results shuffle in
  exists cells,
    snd (take_turns (BetterRandomPlayer.class randint_of shuffle_of)
                    feedback self)
    = Ok <$> cells /\
    length cells = (Z.to_nat size * Z.to_nat size)%nat /\
    NoDup cells /\
    forall x y, (x, y) ∈ cells <-> 0 <= x < size /\ 0 <= y < size.
Proof.
  intros Hshuffle Hlen self.
  set (sequence := shuffle (BetterRandomPlayer.product_range size)).
  assert (length sequence = (Z.to_nat size * Z.to_nat size)%nat) as Hseq
      by (unfold sequence; rewrite Hshuffle; apply length_product_range).
  exists (rev sequence).
  rewrite better_random_sequence by (simpl; fold sequence; lia).
  simpl. fold sequence.
  rewrite Hlen, <- Hseq, <- length_rev, firstn_all.
  split; [reflexivity|]. split; [rewrite length_rev; reflexivity|].
  split.
  - apply NoDup_ListNoDup, List.NoDup_rev, NoDup_ListNoDup.
    unfold sequence. rewrite Hshuffle. apply NoDup_product_range.
  - intros x y.
    rewrite list_elem_of_In, <- in_rev, <- list_elem_of_In.
    unfold sequence. rewrite Hshuffle. apply elem_of_product_range.
Qed.

(** With a shuffle that reverses, a player built for size 2 fires at
    (0, 0), (0, 1), (1, 0), (1, 1). *)
Lemma better_random_player_covers_the_board_witness :
  let feedback := [(0, 0, ShotResult.MISS); (0, 1, ShotResult.MISS);
                   (1, 0, ShotResult.HIT); (1, 1, ShotResult.MISS)] in
  snd (take_turns (BetterRandomPlayer.class (fun _ => lowest) (fun _ => @rev (Z * Z)))
                  feedback
                  (BetterRandomPlayer.init 2 144 0 0 [2; 3; 3; 4; 5]
                                           lowest (@rev (Z * Z))))
  = [Ok (0, 0); Ok (0, 1); Ok (1, 0); Ok (1, 1)] /\
  exists cells,
    snd (take_turns (BetterRandomPlayer.class (fun _ => lowest) (fun _ => @rev (Z * Z)))
                    feedback
                    (BetterRandomPlayer.init 2 144 0 0 [2; 3; 3; 4; 5]
                                             lowest (@rev (Z * Z))))
    = Ok <$> cells /\
    NoDup cells.
Proof.
  intros feedback. split; [vm_compute; reflexivity|].
  destruct (better_random_player_covers_the_board
              (fun _ => lowest) (fun _ => @rev (Z * Z)) 2 144 0 0 [2; 3; 3; 4; 5]
              lowest (@rev (Z * Z)) feedback)
    as (cells & Hshots & _ & Hnd & _).
  - intros l. symmetry. apply Permutation_rev.
  - reflexivity.
  - exists cells. split; [exact Hshots|exact Hnd].
Defined.

(** ** [RandomPlayer] *)

Lemma randint_in_range (a b : Z) (self : RandomPlayer.t) :
  within_range (RandomPlayer.randint_results self) ->
  a <= b ->
  exists v,
    a <= v <= b /\
    RandomPlayer.randint a b self
    = (RandomPlayer.mk (RandomPlayer.size self) (RandomPlayer.max_turns self)
                       (RandomPlayer.max_fn_time self)
                       (RandomPlayer.feedback_delay self)
                       (RandomPlayer.ships self)
                       (RandomPlayer.randint_results self)
                       (S (RandomPlayer.randint_calls self)),
       Ok v).
Proof.
  intros Hr Hab. unfold RandomPlayer.randint.
  destruct (Z.ltb_spec b a); [lia|].
  eexists. split; [|reflexivity]. apply Hr. exact Hab.
Qed.

Lemma rxy_in_range (self : RandomPlayer.t) :
  within_range (RandomPlayer.randint_results self) ->
  1 <= RandomPlayer.size self ->
  exists x y self',
    RandomPlayer._rxy self = (self', Ok (x, y)) /\
    0 <= x < RandomPlayer.size self /\
    0 <= y < RandomPlayer.size self /\
    RandomPlayer.size self' = RandomPlayer.size self /\
    RandomPlayer.randint_results self' = RandomPlayer.randint_results self.
Proof.
  intros Hr Hsize. unfold RandomPlayer._rxy.
  destruct (randint_in_range 0 (RandomPlayer.size self - 1) self Hr)
    as (x & Hx & ->); [lia|].
  cbn [RandomPlayer.size].
  match goal with
  | |- context [RandomPlayer.randint _ _ ?s] =>
      destruct (randint_in_range 0 (RandomPlayer.size self - 1) s Hr)
        as (y & Hy & ->); [lia|]
  end.
  eexists x, y, _. split; [reflexivity|]. simpl.
  split; [lia|]. split; [lia|]. split; reflexivity.
Qed.

Lemma ship_locations_for_in_range (ships : list Z) (self : RandomPlayer.t) :
  within_range (RandomPlayer.randint_results self) ->
  1 <= RandomPlayer.size self ->
  exists requests,
    snd (RandomPlayer.ship_locations_for ships self) = Ok requests /\
    (fun r : Ship => r.1.1.1) <$> requests = ships /\
    Forall (fun r : Ship =>
              0 <= r.1.1.2 < RandomPlayer.size self /\
              0 <= r.1.2 < RandomPlayer.size self) requests.
Proof.
  revert self. induction ships as [|ship_size ships IH];
    intros self Hr Hsize.
  - exists []. repeat split. constructor.
  - cbn [RandomPlayer.ship_locations_for].
    destruct (rxy_in_range self Hr Hsize)
      as (x & y & self1 & -> & Hx & Hy & Hs1 & Hr1).
    rewrite <- Hr1 in Hr. rewrite <- Hs1 in Hsize.
    destruct (randint_in_range 0 1 self1 Hr) as (h & Hh & ->); [lia|].
    match goal with
    | |- context [RandomPlayer.ship_locations_for ships ?s] =>
        destruct (IH s Hr Hsize) as (requests & Hreq & Hsizes & Hall);
          destruct (RandomPlayer.ship_locations_for ships s)
          as [self3 res]
    end.
    simpl in Hreq. subst res. simpl in Hall.
    exists ((ship_size, x, y, negb (h =? 0)) :: requests).
    split; [reflexivity|].
    split; [rewrite fmap_cons, Hsizes; reflexivity|].
    rewrite <- Hs1. constructor; [simpl; lia|exact Hall].
Qed.

(** X25: if [randint] keeps to its range, a [RandomPlayer] built for a
    size of at least 1 fires within [0, size) in both coordinates and asks
    for its configured ships in their order, each at coordinates within
    [0, size); built for a size below 1 its [drop_bomb] raises
    [ValueError], and so does its [ship_locations] unless it has no ship
    to ask for. *)
Theorem random_player_stays_on_its_board (self : RandomPlayer.t) :
  within_range (RandomPlayer.randint_results self) ->
  (1 <= RandomPlayer.size self ->
   (exists x y,
       snd (RandomPlayer.drop_bomb self) = Ok (x, y) /\
       0 <= x < RandomPlayer.size self /\
       0 <= y < RandomPlayer.size self) /\
   (exists requests,
       snd (RandomPlayer.ship_locations self) = Ok requests /\
       (fun r : Ship => r.1.1.1) <$> requests = RandomPlayer.ships self /\
       Forall (fun r : Ship =>
                 0 <= r.1.1.2 < RandomPlayer.size self /\
                 0 <= r.1.2 < RandomPlayer.size self) requests)) /\
  (RandomPlayer.size self < 1 ->
   RandomPlayer.drop_bomb self = (self, Raise ValueError) /\
   (RandomPlayer.ships self <> [] ->
    RandomPlayer.ship_locations self = (self, Raise ValueError))).
Proof.
  intros Hr. split.
  - intros Hsize. split.
    + destruct (rxy_in_range self Hr Hsize)
        as (x & y & self' & H & Hx & Hy & _).
      exists x, y. unfold RandomPlayer.drop_bomb. rewrite H. auto.
    + apply ship_locations_for_in_range; assumption.
  - intros Hsize.
    assert (RandomPlayer._rxy self = (self, Raise ValueError)) as Hrxy.
    { unfold RandomPlayer._rxy, RandomPlayer.randint.
      destruct (Z.ltb_spec (RandomPlayer.size self - 1) 0); [|lia].
      reflexivity. }
    split; [exact Hrxy|].
    intros Hships. unfold RandomPlayer.ship_locations.
    destruct (RandomPlayer.ships self) as [|ship_size ships];
      [destruct Hships; reflexivity|].
    cbn [RandomPlayer.ship_locations_for]. rewrite Hrxy. reflexivity.
Qed.

Lemma random_player_stays_on_its_board_witness :
  let self := RandomPlayer.init 12 144 0 0 [2; 3] lowest in
  snd (RandomPlayer.ship_locations self)
  = Ok [(2, 0, 0, false); (3, 0, 0, false)] /\
  exists x y,
    snd (RandomPlayer.drop_bomb self) = Ok (x, y) /\
    0 <= x < 12 /\ 0 <= y < 12.
Proof.
  intros self. split; [vm_compute; reflexivity|].
  assert (within_range (RandomPlayer.randint_results self)) as Hr
      by (intros k a b Hab; unfold self, lowest; simpl; lia).
  destruct (random_player_stays_on_its_board self Hr) as [Hin _].
  destruct Hin as [Hshot _]; [simpl; lia|]. exact Hshot.
Defined.

(** * The effect of a successful placement *)

(** X2: a successful [place_ship] on a well-formed board uses up exactly
    one occurrence of the size and appends one ship of exactly [sz]
    distinct fields, each a field of the grid; these were EMPTY and are
    SHIP afterwards; every other field, the grid, the number of fields,
    the board size and the earlier ships are as they were. *)
Theorem place_ship_success_effect (sz x y : Z) (h : bool) (b : Board.t) :
  Board.wf b ->
  snd (Board.place_ship sz x y h b) = Ok tt ->
  let b' := fst (Board.place_ship sz x y h b) in
  exists fields,
    Board._ships b' = Board._ships b ++ [fields] /\
    Z.of_nat (length fields) = sz /\
    py_remove sz (Board._remaining_ships b)
    = Some (Board._remaining_ships b') /\
    Board._board b' = Board._board b /\
    (forall a, In a fields ->
               Board.state b a = FieldState.EMPTY /\
               Board.state b' a = FieldState.SHIP) /\
    (forall a, ~ In a fields -> Board.state b' a = Board.state b a) /\
    Board.size b' = Board.size b /\
    length (Board.heap b') = length (Board.heap b) /\
    NoDup fields /\
    (forall a, In a fields ->
               (exists row, In row (Board._board b) /\ In a row) /\
               (a < length (Board.heap b))%nat).
Proof.
  intros Hwf Hok b'.
  destruct (place_ship_ok_effect sz x y h b Hwf Hok)
    as (fields & Hs & Hlen & Hrem & Hgrid & Hnew & Hold).
  destruct (place_ship_keeps_layout sz x y h b) as (Hsize & _ & Hheap).
  destruct (place_ship_ok_ships sz x y h b Hok) as (rem & fs & Hsf & Hs').
  fold b' in Hs, Hrem, Hgrid, Hnew, Hold, Hsize, Hheap, Hs'.
  rewrite Hs in Hs'. apply app_inv_head in Hs'. injection Hs' as <-.
  exists fields.
  split; [exact Hs|]. split; [exact Hlen|]. split; [exact Hrem|].
  split; [exact Hgrid|]. split; [exact Hnew|]. split; [exact Hold|].
  split; [exact Hsize|]. split; [exact Hheap|].
  split.
  - apply (ship_fields_NoDup _ _ _ _ _ _
             (Hwf : Board.wf (Board.set_remaining b rem)) Hsf).
  - intros a Ha.
    destruct (ship_fields_in_grid _ _ _ _ _ _ a Hsf Ha) as (row & Hrow & Hin).
    split; [exists row; split; assumption|].
    exact (grid_field_lt b row a Hwf Hrow Hin).
Qed.

(** The ship of size 3 at (1, 2) on a board of size 5 is on the fields 11,
    12 and 13, and the board keeps its size. *)
Lemma place_ship_success_effect_witness :
  let b := Board.init 5 [3; 2] in
  exists fields,
    Board._ships (fst (Board.place_ship 3 1 2 true b)) = [fields] /\
    Z.of_nat (length fields) = 3 /\
    Board.size (fst (Board.place_ship 3 1 2 true b)) = 5 /\
    NoDup fields.
Proof.
  intros b.
  destruct (place_ship_success_effect 3 1 2 true b (wf_init 5 [3; 2])
                                      eq_refl)
    as (fields & Hs & Hl & _ & _ & _ & _ & Hsize & _ & Hnd & _).
  exists fields. split; [exact Hs|]. split; [exact Hl|].
  split; [exact Hsize|exact Hnd].
Defined.

(** * Setting up: the first rejected request *)

Section Stops.
Context {St : Type}.

(** The strict placement loop stops at the first request the board
    rejects: the requests before it were all accepted. *)
Lemma NaiveGame_place_ships_first_rejected (s : Side) (ships : list Ship)
      (rs rs' : Round St) (r : Res unit) :
  NaiveGame.place_ships s ships rs = (rs', r) ->
  match r with
  | Ok _ =>
      accepted_in_turn ships (board s rs) /\
      rs' = set_board s (place_all ships (board s rs)) rs
  | Raise e =>
      e = ValueError /\
      ~ accepted_in_turn ships (board s rs) /\
      exists placed sz x y h rest,
        ships = placed ++ (sz, x, y, h) :: rest /\
        accepted_in_turn placed (board s rs) /\
        snd (Board.place_ship sz x y h (place_all placed (board s rs)))
        = Raise ValueError /\
        rs' = set_board s (place_all (placed ++ [(sz, x, y, h)])
                                     (board s rs)) rs
  end.
Proof.
  revert rs. induction ships as [|ship ships IH]; intros rs.
  - intros [= <- <-]. simpl. rewrite set_board_same. auto.
  - cbn [NaiveGame.place_ships]. unfold bind, board_place_ship.
    destruct ship as [[[sz x] y] h].
    destruct (place_ship_result sz x y h (board s rs)) as [Hr|Hr];
      destruct (Board.place_ship sz x y h (board s rs)) as [b res] eqn:Hp;
      simpl in Hr; subst res.
    + intros H. apply IH in H. rewrite board_set_board in H.
      assert (b = fst (Board.place_ship sz x y h (board s rs))) as Hb
          by (rewrite Hp; reflexivity).
      assert (snd (Board.place_ship sz x y h (board s rs)) = Ok tt) as Hok
          by (rewrite Hp; reflexivity).
      destruct r as [[]|e].
      * destruct H as [Hacc ->]. split.
        -- cbn [accepted_in_turn]. rewrite <- Hb. auto.
        -- rewrite set_board_twice, place_all_cons, Hb. reflexivity.
      * destruct H as (-> & Hnot & placed & sz' & x' & y' & h' & rest & ->
                       & Hacc & Hf & ->).
        split; [reflexivity|]. split.
        { cbn [accepted_in_turn]. rewrite <- Hb. tauto. }
        exists ((sz, x, y, h) :: placed), sz', x', y', h', rest.
        split; [reflexivity|]. split.
        { cbn [accepted_in_turn]. rewrite <- Hb. auto. }
        rewrite <- app_comm_cons, !place_all_cons, <- Hb.
        split; [exact Hf|]. rewrite set_board_twice. reflexivity.
    + intros [= <- <-]. split; [reflexivity|]. split.
      { cbn [accepted_in_turn]. rewrite Hp. simpl. intros [H _].
        discriminate H. }
      exists [], sz, x, y, h, ships. split; [reflexivity|].
      split; [exact I|].
      split; [simpl; rewrite Hp; reflexivity|].
      simpl. unfold place_all. simpl. rewrite Hp. reflexivity.
Qed.
End Stops.

(** X14: the lenient placement loop tries every request in order and
    skips those the board rejects, so it leaves the board as successive
    [place_ship] calls with their errors ignored do, and it never raises.
    The strict loop succeeds exactly if the board accepts every request
    in turn, and then does the same; otherwise it stops with the
    [ValueError] of the first rejected request: the requests before it
    were all accepted, that request has been tried on the board (its size
    is used up), and the requests after it are not tried. *)
Theorem placement_skips_or_stops {St : Type} (s : Side)
        (ships : list Ship) (rs : Round St) :
  Game.place_ships s ships rs
  = (set_board s (place_all ships (board s rs)) rs, Ok tt) /\
  (snd (NaiveGame.place_ships s ships rs) = Ok tt <->
   accepted_in_turn ships (board s rs)) /\
  (snd (NaiveGame.place_ships s ships rs) = Ok tt ->
   NaiveGame.place_ships s ships rs = Game.place_ships s ships rs) /\
  (forall e,
      snd (NaiveGame.place_ships s ships rs) = Raise e ->
      e = ValueError /\
      exists placed sz x y h rest,
        ships = placed ++ (sz, x, y, h) :: rest /\
        accepted_in_turn placed (board s rs) /\
        snd (Board.place_ship sz x y h (place_all placed (board s rs)))
        = Raise ValueError /\
        fst (NaiveGame.place_ships s ships rs)
        = set_board s (place_all (placed ++ [(sz, x, y, h)]) (board s rs))
                    rs).
Proof.
  split; [apply Game_place_ships_all|].
  destruct (NaiveGame.place_ships s ships rs) as [rs' r] eqn:H.
  apply NaiveGame_place_ships_first_rejected in H. simpl.
  split; [|split].
  - destruct r as [[]|e].
    + destruct H as [Hacc _]. tauto.
    + destruct H as (_ & Hnot & _). split; [discriminate|].
      intros Hacc. destruct (Hnot Hacc).
  - intros ->. destruct H as [_ ->].
    rewrite Game_place_ships_all. reflexivity.
  - intros e ->. destruct H as (He & _ & H). split; [exact He|exact H].
Qed.

(** Of the requests (5, 7, 7), (2, 11, 0) and (3, 0, 0), all horizontal,
    the second runs off the board: the lenient loop places the first and
    the third, the strict loop stops at the second. *)
Lemma placement_skips_or_stops_witness :
  let ships := [(5, 7, 7, true); (2, 11, 0, true); (3, 0, 0, true)] in
  let rs := fresh_round ([] : list (Z * Z)) [] 0 [] in
  length (Board._ships (board P1 (fst (Game.place_ships P1 ships rs))))
  = 2%nat /\
  snd (NaiveGame.place_ships P1 ships rs) = Raise ValueError /\
  accepted_in_turn [(5, 7, 7, true)] (board P1 rs) /\
  ~ accepted_in_turn ships (board P1 rs) /\
  exists placed sz x y h rest,
    ships = placed ++ (sz, x, y, h) :: rest /\
    accepted_in_turn placed (board P1 rs) /\
    snd (Board.place_ship sz x y h (place_all placed (board P1 rs)))
    = Raise ValueError /\
    fst (NaiveGame.place_ships P1 ships rs)
    = set_board P1 (place_all (placed ++ [(sz, x, y, h)]) (board P1 rs)) rs.
Proof.
  intros ships rs.
  assert (snd (NaiveGame.place_ships P1 ships rs) = Raise ValueError) as H
      by (vm_compute; reflexivity).
  split; [vm_compute; reflexivity|]. split; [exact H|].
  split; [split; [vm_compute; reflexivity|exact I]|].
  destruct (placement_skips_or_stops P1 ships rs) as (_ & Hiff & _ & Hstop).
  split.
  - intros Hacc. apply Hiff in Hacc. rewrite H in Hacc. discriminate Hacc.
  - exact (proj2 (Hstop ValueError H)).
Defined.

(** * The score of a round *)

Lemma scoring_stated (b1 b2 : Board.t) :
  scoring b1 b2
  = stated_score (Board.still_floating b1) (Board.still_floating b2).
Proof.
  unfold scoring, stated_score.
  destruct (Board.still_floating b1), (Board.still_floating b2); reflexivity.
Qed.

(** C5 (as far as the code goes): a round that got as far as creating the
    boards and returns a score returns (2 if player 1's board still floats
    else 0, 2 if player 2's board still floats else 0), replaced by the
    draw (1, 1) whenever that pair does not sum to 2, that is when both
    boards are sunk or neither is. Every completed [NaiveGame] round is of
    this kind, and so is every completed [Game] round in which both
    constructors succeeded. The other completed [Game] rounds are those in
    which a constructor raised something other than an interrupt: they
    have no boards, and return (0, 2) if only player 1 could not be built,
    (2, 0) if only player 2 could not, and (1, 1) if neither could. *)
Theorem round_score_from_final_boards :
  (forall b1 b2,
      scoring b1 b2
      = stated_score (Board.still_floating b1) (Board.still_floating b2)) /\
  (forall b1 b2,
      scoring b1 b2
      = match Board.still_floating b1, Board.still_floating b2 with
        | true, false => (2, 0)
        | false, true => (0, 2)
        | _, _ => (1, 1)
        end) /\
  (forall (St : Type) (self : NaiveGame.t St) ch,
      scored_from_boards (NaiveGame._play_round self ch) /\
      match run_result (NaiveGame._play_round self ch) with
      | Some (Ok score) =>
          exists b1 b2,
            run_boards (NaiveGame._play_round self ch) = Some (b1, b2) /\
            score = scoring b1 b2
      | _ => True
      end) /\
  (forall (St : Type) TimedPlayer (self : NaiveGame.t St) ch score,
      let run := Game._play_round TimedPlayer self ch in
      let r1 := NaiveGame.new_player
                  self (Game.instance_class TimedPlayer self
                                            (NaiveGame.p1_class self))
                  (seed1 ch) in
      let r2 := NaiveGame.new_player
                  self (Game.instance_class TimedPlayer self
                                            (NaiveGame.p2_class self))
                  (seed2 ch) in
      run_result run = Some (Ok score) ->
      match run_boards run with
      | Some (b1, b2) =>
          failed r1 = false /\ failed r2 = false /\
          score = scoring b1 b2 /\
          score = stated_score (Board.still_floating b1)
                               (Board.still_floating b2)
      | None =>
          (forall e, r1 = Raise e \/ r2 = Raise e -> is_interrupt e = false) /\
          (failed r1 = true \/ failed r2 = true) /\
          score = (if failed r1 && failed r2 then (1, 1)
                   else (Z.b2z (failed r2) * 2, Z.b2z (failed r1) * 2))
      end).
Proof.
  split; [exact scoring_stated|]. split; [exact scoring_table|]. split.
  - intros St self ch.
    assert (match run_result (NaiveGame._play_round self ch) with
            | Some (Ok score) =>
                exists b1 b2,
                  run_boards (NaiveGame._play_round self ch) = Some (b1, b2)
                  /\ score = scoring b1 b2
            | _ => True
            end) as H.
    { unfold NaiveGame._play_round.
      destruct (NaiveGame.new_player self _ (seed1 ch)) as [st1|e];
        [|exact I].
      destruct (NaiveGame.new_player self _ (seed2 ch)) as [st2|e];
        [|exact I].
      unfold NaiveGame.play_from.
      match goal with
      | |- context [play_round_from ?su ?bd ?mt ?k ?s1 ?s2 ?tr ?sw] =>
          destruct (play_round_from_result su bd mt k s1 s2 tr sw)
            as (rs & res & -> & Hscore)
      end.
      simpl. destruct res as [[score|e]|]; try exact I.
      eexists _, _. split; [reflexivity|]. apply Hscore. reflexivity. }
    split; [|exact H].
    intros score Hres. rewrite Hres in H.
    destruct H as (b1 & b2 & Hb & ->). exists b1, b2.
    split; [exact Hb|apply scoring_stated].
  - intros St TimedPlayer self ch score run r1 r2. subst run.
    unfold Game._play_round, Game.new_player. fold r1 r2.
    destruct r1 as [st1|e1]; simpl.
    + destruct r2 as [st2|e2]; simpl.
      * unfold Game.play_from.
        match goal with
        | |- context [play_round_from ?su ?bd ?mt ?k ?s1 ?s2 ?tr ?sw] =>
            destruct (play_round_from_result su bd mt k s1 s2 tr sw)
              as (rs & res & -> & Hscore)
        end.
        simpl. intros ->. rewrite (Hscore score eq_refl).
        repeat split. apply scoring_stated.
      * destruct (is_interrupt e2) eqn:Hint; simpl; [discriminate|].
        intros [= <-]. split; [|auto].
        intros e [H|H]; [discriminate H|injection H as <-; exact Hint].
    + destruct (is_interrupt e1) eqn:Hint1; simpl; [discriminate|].
      destruct r2 as [st2|e2]; simpl.
      * intros [= <-]. split; [|auto].
        intros e [H|H]; [injection H as <-; exact Hint1|discriminate H].
      * destruct (is_interrupt e2) eqn:Hint2; simpl; [discriminate|].
        intros [= <-]. split; [|auto].
        intros e [H|H]; injection H as <-; assumption.
Qed.

(** The round of [plain_game] is scored from its two boards, both still
    afloat; the round of [unbuildable_game] is decided by the constructor
    of player 1. *)
Lemma round_score_from_final_boards_witness :
  (exists b1 b2,
      run_boards (NaiveGame._play_round plain_game (mkChance false 0 0))
      = Some (b1, b2) /\
      (1, 1) = stated_score (Board.still_floating b1)
                            (Board.still_floating b2)) /\
  run_result (Game._play_round untimed unbuildable_game (mkChance false 0 0))
  = Some (Ok (0, 2)).
Proof.
  destruct round_score_from_final_boards as (_ & _ & Hstrict & Hlenient).
  split.
  - destruct (Hstrict _ plain_game (mkChance false 0 0)) as [H _].
    apply (H (1, 1)). vm_compute. reflexivity.
  - assert (run_result (Game._play_round untimed unbuildable_game
                                         (mkChance false 0 0))
            = Some (Ok (0, 2))) as Hres by (vm_compute; reflexivity).
    pose proof (Hlenient _ untimed unbuildable_game (mkChance false 0 0)
                         (0, 2) Hres) as _.
    exact Hres.
Defined.

(** C5 as stated fails for a lenient round that a constructor decides: in
    [unbuildable_game] player 1 cannot be built, the round returns (0, 2)
    and no board was ever created; two new boards, had they been created,
    would have given (1, 1). *)
Lemma forfeit_is_not_scored_from_boards :
  let run := Game._play_round untimed unbuildable_game (mkChance false 0 0) in
  run_result run = Some (Ok (0, 2)) /\
  run_boards run = None /\
  ~ scored_from_boards run /\
  stated_score (Board.still_floating Board.init_default)
               (Board.still_floating Board.init_default) = (1, 1) /\
  ~ every_lenient_round_scored_from_boards.
Proof.
  intros run.
  assert (run_result run = Some (Ok (0, 2))) as Hres by reflexivity.
  assert (run_boards run = None) as Hb by reflexivity.
  assert (~ scored_from_boards run) as Hnot.
  { intros H. destruct (H (0, 2) Hres) as (b1 & b2 & Hsome & _).
    rewrite Hb in Hsome. discriminate Hsome. }
  split; [exact Hres|]. split; [exact Hb|]. split; [exact Hnot|].
  split; [reflexivity|].
  intros H. apply Hnot. apply H.
Qed.

(** * A player whose [drop_bomb] always throws *)

(** A board that was never bombed and has nothing afloat holds no ship. *)
Lemma untouched_sunk_is_empty (size : Z) (ships : list Z) (b : Board.t) :
  evolves (Board.init size ships) b ->
  untouched b ->
  Board.still_floating b = false ->
  forall a, Board.state b a = FieldState.EMPTY.
Proof.
  intros Hev Hun Hsunk a.
  destruct (Hun a) as [H|H]; [exact H|].
  exfalso.
  destruct (evolves_ships_apart size ships b Hev) as (_ & _ & Hin).
  assert (a ∈ concat (Board._ships b)) as Ha by (apply Hin; left; exact H).
  apply list_elem_of_In, in_concat in Ha.
  destruct Ha as (ship & Hship & Hpart).
  assert (Board.still_floating b = true) as Hfl
      by (apply still_floating_spec; exists ship, a; auto).
  congruence.
Qed.

(** A lenient round between two instances, one of whose [drop_bomb] always
    throws: the other side's board is never bombed, and a score is the
    score of the final boards. *)
Lemma Game_play_from_thrower_scored {St : Type} (c1 c2 : Player.class St)
      (t : Side) (self : NaiveGame.t St) (st1 st2 : St) (tr : list Event)
      (swap : bool) :
  drop_bomb_always_throws (class_of c1 c2 t) ->
  let run := Game.play_from self c1 c2 st1 st2 tr swap in
  exists boards,
    run_boards run = Some boards /\
    untouched (board_of (other t) boards) /\
    evolves Board.init_default (board_of (other t) boards) /\
    forall score, run_result run = Some (Ok score) ->
                  score = scoring (fst boards) (snd boards).
Proof.
  intros Hthrows run.
  destruct (Game_play_from_thrower c1 c2 t Hthrows self st1 st2 tr swap)
    as (b1 & b2 & Hb & Hun).
  fold run in Hb.
  assert (evolves Board.init_default b1 /\ evolves Board.init_default b2)
    as [E1 E2].
  { destruct (play_round_from_boards
                (Game.set_up_ships c1 c2) (Game.turn_body c1 c2)
                (NaiveGame.max_turns self) (NaiveGame.feedback_delay self)
                st1 st2 tr swap
                (evolve_Game_set_up_ships _ _)
                (evolve_Game_turn_body _ _))
      as (b1' & b2' & Hb' & E1 & E2).
    change (run_boards run = Some (b1', b2')) in Hb'.
    rewrite Hb in Hb'. injection Hb' as <- <-. split; assumption. }
  destruct (play_round_from_result
              (Game.set_up_ships c1 c2) (Game.turn_body c1 c2)
              (NaiveGame.max_turns self) (NaiveGame.feedback_delay self)
              st1 st2 tr swap) as (rs & res & Hrun & Hscore).
  change (run = run_of rs res) in Hrun.
  exists (b1, b2). split; [exact Hb|].
  split; [destruct t; exact Hun|].
  split; [destruct t; assumption|].
  intros score Hres. rewrite Hrun in Hb, Hres. simpl in Hb, Hres.
  injection Hb as <- <-. apply Hscore. exact Hres.
Qed.

(** C6 (as far as the code goes), for players whose methods return fully
    evaluated values of the annotated types, as [Player.class] has them:
    whatever the players' methods raise, a lenient round ends, and it ends
    either with a score, no call having raised an interrupt, or with the
    [KeyboardInterrupt] or [SystemExit] that its last call raised; the
    tournament loop likewise ends with the totals or with such an
    interrupt, and with players that raise no interrupt it always returns
    the totals. A player whose [drop_bomb] always throws does not forfeit.
    It loses its turns, so it never bombs the opponent's board, and a round
    that laid out its boards and returns a score is scored from the final
    boards as usual: the thrower has 0 exactly when its own fleet is sunk
    while the opponent has a ship afloat, 2 exactly when it has a ship
    afloat and the opponent has none, which takes an opponent whose board
    holds no ship at all, and 1 exactly when both fleets or neither are
    afloat. *)
Theorem lenient_round_isolates_failures :
  (forall (St : Type) TimedPlayer (self : NaiveGame.t St) ch,
      let run := Game._play_round TimedPlayer self ch in
      only_interrupts_escape run /\
      forall e,
        run_result run = Some (Raise e) ->
        raised_by (Game.instance_class TimedPlayer self
                                       (NaiveGame.p1_class self)) e \/
        raised_by (Game.instance_class TimedPlayer self
                                       (NaiveGame.p2_class self)) e) /\
  (forall (St : Type) TimedPlayer (self : NaiveGame.t St) chance games,
      match Game.play TimedPlayer self chance games with
      | Some (Ok _) => True
      | Some (Raise e) => is_interrupt e = true
      | None => False
      end) /\
  (forall (St : Type) TimedPlayer (self : NaiveGame.t St),
      never_interrupts (Game.instance_class TimedPlayer self
                                            (NaiveGame.p1_class self)) ->
      never_interrupts (Game.instance_class TimedPlayer self
                                            (NaiveGame.p2_class self)) ->
      forall chance games,
      exists totals, Game.play TimedPlayer self chance games
                     = Some (Ok totals)) /\
  (forall (St : Type) TimedPlayer (self : NaiveGame.t St) ch (t : Side),
      drop_bomb_always_throws
        (class_of
           (Game.instance_class TimedPlayer self (NaiveGame.p1_class self))
           (Game.instance_class TimedPlayer self (NaiveGame.p2_class self))
           t) ->
      let run := Game._play_round TimedPlayer self ch in
      forall boards,
        run_boards run = Some boards ->
        let mine := board_of t boards in
        let theirs := board_of (other t) boards in
        untouched theirs /\
        forall score,
          run_result run = Some (Ok score) ->
          score = scoring (fst boards) (snd boards) /\
          (points t score = 0 <->
           Board.still_floating mine = false /\
           Board.still_floating theirs = true) /\
          (points t score = 2 <->
           Board.still_floating mine = true /\
           Board.still_floating theirs = false) /\
          (points t score = 1 <->
           Board.still_floating mine = Board.still_floating theirs) /\
          (points t score = 2 ->
           forall a, Board.state theirs a = FieldState.EMPTY)).
Proof.
  split; [|split; [|split]].
  - intros St TimedPlayer self ch. apply Game_play_round_escape.
  - intros St TimedPlayer self chance games. unfold Game.play.
    apply (play_rounds_escape _ (fun e => is_interrupt e = true)).
    intros i.
    destruct (Game_play_round_escape TimedPlayer self (chance i)) as [H _].
    unfold only_interrupts_escape in H.
    destruct (run_result _) as [[score|e]|]; [exact I|apply H|exact H].
  - intros St TimedPlayer self H1 H2 chance games. unfold Game.play.
    assert (forall i,
               match run_result
                       (Game._play_round TimedPlayer self (chance i)) with
               | Some (Ok _) => True
               | Some (Raise e) => False
               | None => False
               end) as Hround.
    { intros i.
      destruct (Game_play_round_escape TimedPlayer self (chance i))
        as [Hesc Hwho].
      unfold only_interrupts_escape in Hesc.
      destruct (run_result _) as [[score|e]|]; [exact I| |exact Hesc].
      destruct Hesc as [Hint _].
      destruct (Hwho e eq_refl) as [Hr|Hr];
        [apply H1 in Hr|apply H2 in Hr]; congruence. }
    pose proof (play_rounds_escape
                  (fun i => Game._play_round TimedPlayer self (chance i))
                  (fun _ => False) Hround (Z.to_nat games) 0%nat 0 0) as H.
    destruct (play_rounds _ _ _ _ _) as [[totals|e]|];
      [exists totals; reflexivity|destruct H|destruct H].
  - intros St TimedPlayer self ch t Hthrows run. subst run.
    unfold Game._play_round.
    destruct (Game.new_player TimedPlayer self _ (seed1 ch)) as [r1 [o1|e]];
      [|intros boards [=]].
    destruct (Game.new_player TimedPlayer self _ (seed2 ch)) as [r2 [o2|e]];
      [|intros boards [=]].
    destruct o1 as [st1|], o2 as [st2|]; [|intros boards [=]..].
    match goal with
    | |- context [Game.play_from ?g ?c1 ?c2 ?s1 ?s2 ?tr ?sw] =>
        destruct (Game_play_from_thrower_scored c1 c2 t g s1 s2 tr sw
                                                Hthrows)
          as (boards' & Hb & Hun & Hev & Hscore)
    end.
    intros boards Hboards.
    rewrite Hb in Hboards. injection Hboards as <-.
    split; [exact Hun|].
    intros score Hres. specialize (Hscore score Hres).
    split; [exact Hscore|].
    assert (Board.still_floating (board_of (other t) boards') = false ->
            forall a, Board.state (board_of (other t) boards') a
                      = FieldState.EMPTY) as Hempty
        by (apply (untouched_sunk_is_empty _ _ _ Hev Hun)).
    rewrite scoring_table in Hscore.
    assert (Board.still_floating (fst boards')
            = Board.still_floating (board_of P1 boards')) as F1
        by reflexivity.
    assert (Board.still_floating (snd boards')
            = Board.still_floating (board_of P2 boards')) as F2
        by reflexivity.
    rewrite F1, F2 in Hscore. clear F1 F2.
    destruct t; simpl other in *;
      destruct (Board.still_floating (board_of P1 boards')),
               (Board.still_floating (board_of P2 boards'));
      subst score; simpl points;
      repeat split; intros; try discriminate; try lia; auto;
      try (match goal with H : _ /\ _ |- _ => destruct H; discriminate end).
Qed.

(** The thrower of [thrower_game] gets through a tournament of 1000
    rounds; in a round it never bombs the opponent's board, keeps its own
    ship afloat and draws. *)
Lemma lenient_round_isolates_failures_witness :
  never_interrupts (thrower [(2, 5, 5, true)]) /\
  never_interrupts (stubborn [(2, 0, 0, true)] 0 0) /\
  drop_bomb_always_throws (thrower [(2, 5, 5, true)]) /\
  (exists totals,
      Game.play untimed thrower_game (fixed_chance false) 1000
      = Some (Ok totals)) /\
  let run := Game._play_round untimed thrower_game (mkChance false 0 0) in
  exists b1 b2 score,
    run_boards run = Some (b1, b2) /\
    run_result run = Some (Ok score) /\
    untouched b2 /\
    score = scoring b1 b2 /\
    (points P1 score = 1 <->
     Board.still_floating b1 = Board.still_floating b2).
Proof.
  destruct lenient_round_isolates_failures as (_ & _ & Hplay & Hthrow).
  split; [apply thrower_never_interrupts|].
  split; [apply stubborn_never_interrupts|].
  split; [apply thrower_always_throws|].
  split.
  - apply (Hplay _ untimed thrower_game).
    + apply thrower_never_interrupts.
    + apply stubborn_never_interrupts.
  - intros run.
    destruct (run_boards run) as [[b1 b2]|] eqn:Hb;
      [|vm_compute in Hb; discriminate Hb].
    destruct (run_result run) as [[score|e]|] eqn:Hres;
      [|vm_compute in Hres; discriminate Hres
       |vm_compute in Hres; discriminate Hres].
    destruct (Hthrow _ untimed thrower_game (mkChance false 0 0) P1
                     (thrower_always_throws _) (b1, b2) Hb)
      as (Hun & Hscore).
    destruct (Hscore score Hres) as (Hsc & _ & _ & Hdraw & _).
    exists b1, b2, score.
    split; [reflexivity|]. split; [reflexivity|].
    split; [exact Hun|]. split; [exact Hsc|]. exact Hdraw.
Defined.
